(** * The static interrupt scheduler generator (tools/sched/sched.c)

    A shallow embedding of the schedule generator: the tick table and the
    task table, the unroll planner [expand_ticks], the cost function
    [find_best_tick], the slot allocator [alloc_slot], task insertion
    [add_task], the input parser ([parse_time], [parse_schedule]) and the
    code emitter [write_tick_driver], then the emitted handlers run as the
    C program they are, followed by the properties of the schedule and of
    the program. *)

From Stdlib Require Import ZArith Lia Bool Ascii String List.
From Stdlib Require Import SpecFloat DecimalString.
From stdpp Require Import base tactics option list.

Local Open Scope string_scope.
Local Open Scope list_scope.
Local Open Scope Z_scope.

Infix "+:+" := String.append (at level 60, right associativity).

(** ** C values *)

(** [unsigned int] is a 32-bit word: a [Z] in [0, 2^32), arithmetic wraps. *)
Definition UINT_MOD : Z := 2 ^ 32.
Definition wrap (z : Z) : Z := z mod UINT_MOD.

(** [double] is IEEE-754 binary64 (53 bits of mantissa, infinities at
    exponent 1024) and [float] is binary32; both are carried by Rocq's
    specification floats. *)
Module Double.
Definition double : Type := spec_float.
Definition prec : Z := 53.
Definition emax : Z := 1024.

Definition of_Z (z : Z) : double := binary_normalize prec emax z 0 false.
Definition add : double -> double -> double := SFadd prec emax.
Definition mul : double -> double -> double := SFmul prec emax.
Definition div : double -> double -> double := SFdiv prec emax.
Definition ltb : double -> double -> bool := SFltb.
Definition leb : double -> double -> bool := SFleb.
(** [x >= y] *)
Definition geb (x y : double) : bool := SFleb y x.

Definition zero : double := S754_zero false.
Definition one : double := Eval vm_compute in of_Z 1.
Definition minus_one : double := Eval vm_compute in of_Z (-1).
(** The literal [99999.0]. *)
Definition huge : double := Eval vm_compute in of_Z 99999.

(** The decimal literal [m / 10^k], correctly rounded as long as both
    [m] and [10^k] are exactly representable. *)
Definition dec (m : Z) (k : nat) : double := div (of_Z m) (of_Z (10 ^ Z.of_nat k)).

(** Conversion to binary32 and back, as on assignment to a [float]; the
    result is written as a binary64 again. *)
Definition to_float (x : double) : double :=
  match x with
  | S754_finite s m e =>
      match binary_normalize 24 128 (cond_Zopp s (Zpos m)) e s with
      | S754_finite s' m' e' => binary_normalize prec emax (cond_Zopp s' (Zpos m')) e' s'
      | y => y
      end
  | _ => x
  end.

(** Truncation toward zero, the integral part kept by a conversion to an
    integer type; [None] for infinities and NaN. *)
Definition trunc (x : double) : option Z :=
  match x with
  | S754_zero _ => Some 0
  | S754_finite s m e =>
      Some (cond_Zopp s (if 0 <=? e then Z.shiftl (Zpos m) e
                         else Z.shiftr (Zpos m) (- e)))
  | _ => None
  end.
End Double.
Import Double.

(** ** Outcomes of a run

    The tool either carries on, stops with [exit (1)] after a diagnostic,
    or runs into behaviour the C language leaves undefined. *)
Inductive fatal : Type :=
| InvalidPeriod (period : Z) (name : string)
| LengthExceedsPeriod (name : string)
| PeriodTooLarge
| TooManySlots.

Inductive fault : Type :=
| DivisionByZero
| NullPointer
| OutOfBounds
| ConversionOverflow
| EndlessLoop.

Inductive outcome (A : Type) : Type :=
| Done (a : A)
| Exit (d : fatal)
| Undefined (f : fault).
Arguments Done {A} a.
Arguments Exit {A} d.
Arguments Undefined {A} f.

#[global] Instance outcome_bind : MBind outcome := fun A B k m =>
  match m with
  | Done a => k a
  | Exit d => Exit d
  | Undefined f => Undefined f
  end.
#[global] Instance outcome_ret : MRet outcome := fun A a => Done a.

(** [for (i = lo; n iterations; i++) body] over a threaded state. *)
Fixpoint for_loop {S : Type} (body : Z -> S -> outcome S) (i : Z) (n : nat) (s : S)
  : outcome S :=
  match n with
  | O => Done s
  | Datatypes.S n' => s' ← body i s; for_loop body (i + 1) n' s'
  end.

(** Unsigned division and remainder; a zero divisor is undefined. *)
Definition udiv (a b : Z) : outcome Z :=
  if b =? 0 then Undefined DivisionByZero else Done (a / b).
Definition umod (a b : Z) : outcome Z :=
  if b =? 0 then Undefined DivisionByZero else Done (a mod b).

(** ** Data model *)

Definition MAX_TICKS : Z := 32.
Definition MAX_SLOTS_PER_TICK : Z := 32.
Definition MAX_TASKS : Z := 64.
Definition CYCLES_PER_TICK : Z := 1952.
Definition MAX_ID : Z := 128.

Record task : Type := mk_task {
  name : string;
  period : Z;
  len : double;
  already_unrolled_count : Z;
  n_slots : Z
}.

(** A slot is one call of a task; [slot_task] is the position in the task
    table of the task the C pointer [slot->task] refers to. *)
Record slot : Type := mk_slot {
  divider : Z;
  slot_task : nat
}.

(** A tick is one unrolled handler.  The used part of the C array [slots]
    is the list [slots]; the C field [n_slots] is its length. *)
Record tick : Type := mk_tick {
  slots : list slot;
  tick_len : double
}.

Definition tick_n_slots (t : tick) : Z := Z.of_nat (length (slots t)).

Inductive warning : Type :=
| SkippingEntry (name : string)
| ShouldNotBeInline (name : string)
| ShouldBeInline (name : string) (cycles : Z)
| TickTakesTooLong (n : Z).

(** The globals of the program.  [ticks] always has [MAX_TICKS] entries;
    the C counter [n_tasks] is the length of [tasks]. *)
Record schedule : Type := mk_schedule {
  n_ticks : Z;
  ticks : list tick;
  tasks : list task;
  max_ticks : Z;
  max_divider : Z;
  prefix : string;
  include_files : list string;
  conditionals : list string;
  stderr : list warning
}.

Definition n_tasks (st : schedule) : Z := Z.of_nat (length (tasks st)).

Definition with_n_ticks (st : schedule) (n : Z) : schedule :=
  mk_schedule n (ticks st) (tasks st) (max_ticks st) (max_divider st)
    (prefix st) (include_files st) (conditionals st) (stderr st).
Definition with_ticks (st : schedule) (ts : list tick) : schedule :=
  mk_schedule (n_ticks st) ts (tasks st) (max_ticks st) (max_divider st)
    (prefix st) (include_files st) (conditionals st) (stderr st).
Definition with_tasks (st : schedule) (ts : list task) : schedule :=
  mk_schedule (n_ticks st) (ticks st) ts (max_ticks st) (max_divider st)
    (prefix st) (include_files st) (conditionals st) (stderr st).
Definition with_max_divider (st : schedule) (d : Z) : schedule :=
  mk_schedule (n_ticks st) (ticks st) (tasks st) (max_ticks st) d
    (prefix st) (include_files st) (conditionals st) (stderr st).
Definition warn (st : schedule) (w : warning) : schedule :=
  mk_schedule (n_ticks st) (ticks st) (tasks st) (max_ticks st) (max_divider st)
    (prefix st) (include_files st) (conditionals st) (stderr st ++ [w]).

Definition empty_tick : tick := mk_tick [] zero.

(** The globals as the program is loaded: zeroed tables, [max_ticks = 8],
    [max_divider = 1], [prefix = "tick"]. *)
Definition globals : schedule :=
  mk_schedule 0 (replicate (Z.to_nat MAX_TICKS) empty_tick) [] 8 1 "tick" [] [] [].

Definition init_schedule (st : schedule) : schedule :=
  with_tasks (with_n_ticks st 0) [].

(** Reading [ticks[i]]. *)
Definition get_tick (st : schedule) (i : Z) : outcome tick :=
  match ticks st !! Z.to_nat i with
  | Some t => Done t
  | None => Undefined OutOfBounds
  end.

(** ** The unroll planner *)

Definition expand_ticks (st : schedule) (new_tick_count : Z) : schedule :=
  (* Don't allow infinite expansion *)
  let new_tick_count :=
    if new_tick_count >? max_ticks st then max_ticks st else new_tick_count in
  (* n_ticks = 8, whatever was asked for *)
  let st := with_n_ticks st 8 in
  (* Initialize the new ticks *)
  with_ticks st
    (foldl (fun ts tickno => <[tickno := empty_tick]> ts) (ticks st)
       (seq 0 (Z.to_nat (n_ticks st)))).

(** ** The cost function *)

(** The cost of one bucket for the candidate [tickno]: the body of the
    innermost loop, adding to [total_len]. *)
Definition bucket_cost (st : schedule) (period count : Z) (len : double)
    (tickno index : Z) : outcome double :=
  stride ← udiv (n_ticks st) count;
  t ← get_tick st (wrap (tickno + wrap (stride * index)));
  let candidate_len := tick_len t in
  Done (if geb (add candidate_len len) one then huge
        else if (period >? n_ticks st) && (tickno =? wrap (stride - 1)) then minus_one
        else candidate_len).

Definition total_len (st : schedule) (period count : Z) (len : double) (tickno : Z)
  : outcome double :=
  for_loop (fun index total =>
              c ← bucket_cost st period count len tickno index;
              Done (add total c))
    0 (Z.to_nat count) zero.

Definition find_best_tick (st : schedule) (period count : Z) (len : double)
  : outcome Z :=
  candidates ← udiv (n_ticks st) count;
  '(best, _) ←
    for_loop (fun tickno best_so_far =>
                let '(best, best_len) := best_so_far in
                total ← total_len st period count len tickno;
                (* Track which of the alternatives is least utilized. *)
                Done (if ltb total best_len then (tickno, total)
                      else (best, best_len)))
      0 (Z.to_nat candidates) (0, huge);
  Done best.

(** ** Slot allocation *)

(** [alloc_slot] hands out the next free slot of [ticks[tickno]]; its caller
    fills the slot in at once, so the contents [s] are passed along. *)
Definition alloc_slot (st : schedule) (tickno : Z) (s : slot) : outcome schedule :=
  t ← get_tick st tickno;
  if wrap (tick_n_slots t + 1) =? MAX_SLOTS_PER_TICK then Exit TooManySlots
  else if MAX_SLOTS_PER_TICK <=? tick_n_slots t then Undefined OutOfBounds
  else Done (with_ticks st
               (<[Z.to_nat tickno := mk_tick (slots t ++ [s]) (tick_len t)]> (ticks st))).

(** ** Task insertion *)

(** [strchr (name, '?')]: the text before the first ['?'] and the text
    after it, when there is one. *)
Fixpoint split_conditional (name : string) : option (string * string) :=
  match name with
  | EmptyString => None
  | String c rest =>
      if Ascii.eqb c "?" then Some (EmptyString, rest)
      else match split_conditional rest with
           | Some (before, cond) => Some (String c before, cond)
           | None => None
           end
  end.

Definition conditional_defined (st : schedule) (cond : string) : bool :=
  existsb (String.eqb cond) (conditionals st).

(** Names of the form <function>/<divider>: [end = name + strlen (name) - 2].
    For a name shorter than two characters the byte read lies before the
    name; it is taken not to be ['/']. *)
Definition split_unrolled (name : string) : string * Z :=
  let n := String.length name in
  match String.get (n - 2) name, String.get (n - 1) name with
  | Some slash, Some digit =>
      if (2 <=? n)%nat && Ascii.eqb slash "/"
      then (String.substring 0 (n - 2) name,
            Z.of_nat (nat_of_ascii digit) - Z.of_nat (nat_of_ascii "0"))
      else (name, 0)
  | _, _ => (name, 0)
  end.

(** How many slots the task gets and with which divider; the tick table
    may be expanded and [max_divider] raised on the way. *)
Definition plan_slots (st : schedule) (period : Z) : outcome (schedule * Z * Z) :=
  if period >? n_ticks st then
    if period <=? max_ticks st then
      let st := expand_ticks st period in
      count ← udiv (n_ticks st) period;
      Done (st, count, 1)
    else
      divider ← udiv period (n_ticks st);
      if divider >? max_divider st then
        let st := with_max_divider st divider in
        if max_divider st >=? 256 then Exit PeriodTooLarge
        else Done (st, 1, divider)
      else Done (st, 1, divider)
  else
    count ← udiv (n_ticks st) period;
    Done (st, count, 1).

(** [task->n_slots++] *)
Definition bump_n_slots (st : schedule) (k : nat) : schedule :=
  with_tasks st
    (alter (fun t => mk_task (name t) (period t) (len t) (already_unrolled_count t)
                       (n_slots t + 1)) k (tasks st)).

(** [ticks[base].len += task->len / divider] *)
Definition charge_tick (st : schedule) (base : Z) (l : double) (divider : Z) : schedule :=
  with_ticks st
    (alter (fun t => mk_tick (slots t) (add (tick_len t) (div l (of_Z divider))))
       (Z.to_nat base) (ticks st)).

(** One turn of the loop that creates the slots. *)
Definition place_slot (k : nat) (period : Z) (l : double) (divider : Z)
    (st_base : schedule * Z) : outcome (schedule * Z) :=
  let '(st, base) := st_base in
  st ← alloc_slot st base (mk_slot divider k);
  let st := bump_n_slots st k in
  let st := charge_tick st base l divider in
  base ← umod (wrap (base + period)) (n_ticks st);
  Done (st, base).

Definition add_task (st : schedule) (name : string) (period : Z) (len : double)
  : outcome schedule :=
  (* Is this entry dependent on a conditional? *)
  let stripped :=
    match split_conditional name with
    | Some (before, cond) =>
        if conditional_defined st cond then Some before else None
    | None => Some name
    end in
  match stripped with
  | None => Done (warn st (SkippingEntry name))
  | Some name =>
      let '(name, already_unrolled_count) := split_unrolled name in
      (* Fill in the task structure: task = &tasks[n_tasks++] *)
      if MAX_TASKS <=? n_tasks st then Undefined OutOfBounds else
      let k := length (tasks st) in
      let st := with_tasks st
                  (tasks st ++ [mk_task name period len already_unrolled_count 0]) in
      '(st, count, divider) ← plan_slots st period;
      base ← find_best_tick st period count len;
      '(st, _) ← for_loop (fun _ => place_slot k period len divider)
                   0 (Z.to_nat count) (st, base);
      Done st
  end.

(** ** The input parser *)

(** Conversion of a [double] to [unsigned int]: the integral part, which
    must be representable. *)
Definition to_unsigned (x : double) : outcome Z :=
  match trunc x with
  | Some z => if (0 <=? z) && (z <? UINT_MOD) then Done z
              else Undefined ConversionOverflow
  | None => Undefined ConversionOverflow
  end.

(** Conversion of an [unsigned int] to [float], for the comparison
    [len >= period]. *)
Definition unsigned_to_float (z : Z) : double := to_float (of_Z z).

Definition is_delim (c : ascii) : bool :=
  Ascii.eqb c " " || Ascii.eqb c "009" || Ascii.eqb c "010".

(** The tokens [strtok] hands out for a line with the delimiters
    [" \t\n"], one after the other; [cur] is the token being read. *)
Fixpoint tokens_from (line cur : string) : list string :=
  match line with
  | EmptyString => if String.eqb cur "" then [] else [cur]
  | String c rest =>
      if is_delim c
      then (if String.eqb cur "" then tokens_from rest ""
            else cur :: tokens_from rest "")
      else tokens_from rest (cur +:+ String c "")
  end.
Definition tokens (line : string) : list string := tokens_from line "".

(** The buffers [fgets (line, 511, f)] delivers before [feof (f)] turns
    true: at most 510 characters each, cut after a newline.  A last line
    that is not closed by a newline is read together with the end of the
    file and is dropped by the [feof] test. *)
Fixpoint fgets_lines (file : list ascii) (cur : list ascii) : list string :=
  match file with
  | [] => []
  | c :: rest =>
      let cur := cur ++ [c] in
      if Ascii.eqb c "010" || (length cur =? 510)%nat
      then string_of_list_ascii cur :: fgets_lines rest []
      else fgets_lines rest cur
  end.

(** The checks of [parse_schedule] on a parsed entry, then its insertion. *)
Definition schedule_entry (st : schedule) (name : string) (period : Z) (len : double)
  : outcome schedule :=
  if negb (Z.land period (wrap (period - 1)) =? 0)
  then Exit (InvalidPeriod period name)
  else if geb len (unsigned_to_float period)
  then Exit (LengthExceedsPeriod name)
  else add_task st name period len.

Section Parser.

(** The C library's [strtod (string, NULL)]. *)
Variable strtod : string -> double.

Definition last_char (s : string) : option ascii :=
  String.get (String.length s - 1) s.

(** Parse a time string.  [None] is the null pointer [strtok] returns when
    the line has no further token. *)
Definition parse_time (string : option string) : outcome double :=
  match string with
  | None => Undefined NullPointer
  | Some s =>
      match last_char s with
      | None => Undefined OutOfBounds
      | Some suffix =>
          if Ascii.eqb suffix "c" || Ascii.eqb suffix "C"
          then Done (div (strtod s) (mul one (of_Z CYCLES_PER_TICK)))
          else Done (strtod s)
      end
  end.

(** The body of the loop of [parse_schedule], for one line read. *)
Definition parse_line (st : schedule) (line : string) : outcome schedule :=
  match tokens line with
  | [] => Done st
  | name :: rest =>
      if String.prefix "#" name then Done st
      else
        p ← parse_time (head rest);
        period ← to_unsigned p;
        if negb (Z.land period (wrap (period - 1)) =? 0)
        then Exit (InvalidPeriod period name)
        else
          l ← parse_time (head (tail rest));
          let len := to_float l in
          if geb len (unsigned_to_float period)
          then Exit (LengthExceedsPeriod name)
          else add_task st name period len
  end.

Fixpoint parse_lines (st : schedule) (lines : list string) : outcome schedule :=
  match lines with
  | [] => Done st
  | line :: rest => st ← parse_line st line; parse_lines st rest
  end.

Definition parse_schedule (st : schedule) (file : string) : outcome schedule :=
  parse_lines st (fgets_lines (list_ascii_of_string file) []).

End Parser.

(** A reading of [strtod] for plain decimal tokens: optional sign, digits,
    optional fraction; [0.0] when no digit can be read.  It serves the
    worked examples below. *)
Definition digit_of (c : ascii) : option Z :=
  let n := Z.of_nat (nat_of_ascii c) in
  if (48 <=? n) && (n <=? 57) then Some (n - 48) else None.

Fixpoint read_fraction (s : string) (m : Z) (k : nat) : Z * nat :=
  match s with
  | EmptyString => (m, k)
  | String c rest =>
      match digit_of c with
      | Some d => read_fraction rest (10 * m + d) (S k)
      | None => (m, k)
      end
  end.

Fixpoint read_decimal (s : string) (m : Z) : Z * nat :=
  match s with
  | EmptyString => (m, O)
  | String c rest =>
      match digit_of c with
      | Some d => read_decimal rest (10 * m + d)
      | None => if Ascii.eqb c "." then read_fraction rest m O else (m, O)
      end
  end.

Definition strtod_decimal (s : string) : double :=
  match s with
  | String "-" rest => let '(m, k) := read_decimal rest 0 in SFopp (dec m k)
  | _ => let '(m, k) := read_decimal s 0 in dec m k
  end.

(** ** The emitter

    What [write_tick_driver] writes to [f], one item for each piece of
    text it prints, and the advisory messages it writes to standard
    error. *)
Inductive item : Type :=
| Comment (text : string)
| FunctionDecl
| DividerDecl
| Include (file : string)
| Newline
| Prototype (n : Z)
| HandlerHead (n : Z)
| BlockBegin
| BlockEnd
| IfDivider (mask : Z)
| Extern (task_name : string)
| Call (task_name : string) (time : double)
| DividerIncrement
| SetFunction (n : Z)
| TimeComment (time : double)
| DriverFunction
| InitHead
| ResetDivider
| InitEnd.

(** The values [div] takes in [for (div = 1; div <= max_divider; div *= 2)].
    Once the doubling wraps to 0 the loop never ends; 33 turns are enough
    to tell. *)
Fixpoint divider_values (fuel : nat) (div max_divider : Z) : outcome (list Z) :=
  match fuel with
  | O => Undefined EndlessLoop
  | S fuel =>
      if div <=? max_divider
      then rest ← divider_values fuel (wrap (div * 2)) max_divider; Done (div :: rest)
      else Done []
  end.

Definition decimal (z : Z) : string := NilZero.string_of_int (Z.to_int z).

(** The string and its terminator fit in [char task_name[MAX_ID]]. *)
Definition fits (s : string) : bool := Z.of_nat (String.length s) <? MAX_ID.

(** The name a slot is called by in handler [n], built in the buffer
    [task_name] by [strcpy] and, for a pre-unrolled task, [sprintf]. *)
Definition call_name (t : task) (n : Z) : outcome (bool * string) :=
  let inline_p := String.prefix "!" (name t) in
  let task_name :=
    if inline_p then String.substring 1 (String.length (name t) - 1) (name t)
    else name t in
  if negb (fits task_name) then Undefined OutOfBounds
  else if already_unrolled_count t =? 0 then Done (inline_p, task_name)
  else
    n1 ← umod n (wrap (wrap (already_unrolled_count t) * period t));
    suffix ← udiv n1 (period t);
    let task_name := task_name +:+ "_" +:+ decimal suffix in
    if fits task_name then Done (inline_p, task_name) else Undefined OutOfBounds.

(** The calls of handler [n] guarded by the divider [div]: the inner loop
    over the slots, [used] telling whether the guard is already open. *)
Fixpoint emit_slots (st : schedule) (n div : Z) (ss : list slot) (used : bool)
  : outcome (list item * bool) :=
  match ss with
  | [] => Done ([], used)
  | s :: ss =>
      if divider s =? div then
        let open := (div >? 1) && negb used in
        match tasks st !! slot_task s with
        | None => Undefined OutOfBounds
        | Some t =>
            '(inline_p, task_name) ← call_name t n;
            '(rest, used') ← emit_slots st n div ss (used || open);
            Done ((if open then [Newline; IfDivider (div - 1); BlockBegin] else [])
                    ++ (if inline_p : bool then [] else [Extern task_name])
                    ++ [Call task_name (len t)] ++ rest,
                  used')
        end
      else emit_slots st n div ss used
  end.

(** The loop over the divider values: the items written and the number of
    guards left open. *)
Fixpoint emit_dividers (st : schedule) (n : Z) (t : tick) (divs : list Z)
  : outcome (list item * nat) :=
  match divs with
  | [] => Done ([], O)
  | div :: divs =>
      '(calls, used) ← emit_slots st n div (slots t) false;
      '(rest, divider_count) ← emit_dividers st n t divs;
      Done (calls ++ rest, ((if used : bool then 1 else 0) + divider_count)%nat)
  end.

(** The definition of the interrupt function of tick [n]. *)
Definition emit_handler (st : schedule) (n : Z) : outcome (list item) :=
  t ← get_tick st n;
  divs ← divider_values 33 1 (max_divider st);
  '(calls, divider_count) ← emit_dividers st n t divs;
  Done ([HandlerHead n; BlockBegin]
          ++ calls
          ++ replicate divider_count BlockEnd
          ++ (if (n =? wrap (n_ticks st - 1)) && (max_divider st >? 1)
              then [DividerIncrement] else [])
          ++ (if n_ticks st >? 1 then [SetFunction ((n + 1) mod n_ticks st)] else [])
          ++ [TimeComment (tick_len t); Newline; BlockEnd; Newline]).

Definition emit_handlers (st : schedule) : outcome (list (list item)) :=
  for_loop (fun n hs => h ← emit_handler st n; Done (hs ++ [h]))
    0 (Z.to_nat (n_ticks st)) [].

(** The initialization function. *)
Definition emit_init : list item := [InitHead; SetFunction 0; ResetDivider; InitEnd].

(** Conversion of a [double] to [int]: the integral part, which must be
    representable. *)
Definition to_int (x : double) : outcome Z :=
  match trunc x with
  | Some z => if (- 2 ^ 31 <=? z) && (z <? 2 ^ 31) then Done z
              else Undefined ConversionOverflow
  | None => Undefined ConversionOverflow
  end.

(** The check for a task that could be improved: the body of the loop
    over the task table. *)
Definition advise_task (t : task) : outcome (list warning) :=
  let inline_p := String.prefix "!" (name t) in
  let large :=
    if inline_p && (n_slots t >? 2) && ltb (of_Z 200) (len t)
    then [ShouldNotBeInline (String.substring 1 (String.length (name t) - 1) (name t))]
    else [] in
  c ← to_int (mul (len t) (of_Z CYCLES_PER_TICK));
  let cycles := wrap c in
  Done (large ++ (if negb inline_p && (cycles <? 40)
                  then [ShouldBeInline (name t) cycles] else [])).

Fixpoint advise_tasks (ts : list task) : outcome (list warning) :=
  match ts with
  | [] => Done []
  | t :: ts => w ← advise_task t; ws ← advise_tasks ts; Done (w ++ ws)
  end.

(** The warning the loop over the handlers gives for tick [n]. *)
Definition tick_warning (st : schedule) (n : Z) : list warning :=
  match ticks st !! Z.to_nat n with
  | Some t => if geb (tick_len t) one then [TickTakesTooLong n] else []
  | None => []
  end.

(** The text written to [f] and the messages written to standard error. *)
Definition write_tick_driver (st : schedule) : outcome (list item * list warning) :=
  advice ← advise_tasks (tasks st);
  handlers ← emit_handlers st;
  Done ([Comment "Automatically generated by gensched"; FunctionDecl; DividerDecl]
          ++ map Include (include_files st) ++ [Newline]
          ++ [Newline]
          ++ map Prototype (seqZ 0 (n_ticks st)) ++ [Newline]
          ++ concat handlers
          ++ [DriverFunction]
          ++ emit_init,
        advice ++ concat (map (tick_warning st) (seqZ 0 (n_ticks st)))).

(** The text of an item, as the [fprintf] calls format it; indentation is
    left out and [fmt_g] stands for the conversion [%g]. *)
Section Render.
Variable fmt_g : double -> string.
Variable prefix : string.

Definition lf : string := String "010" "".
Definition dq : string := String "034" "".
Definition ATTR_INTERRUPT : string := "__interrupt__".
Definition ATTR_FASTVAR : string :=
  "__attribute__((section (" +:+ dq +:+ "direct" +:+ dq +:+ ")))".

Definition time_comment (time : double) : string :=
  "/* " +:+ fmt_g time +:+ " interrupts / "
    +:+ fmt_g (mul time (of_Z CYCLES_PER_TICK)) +:+ " cycles */".

Definition render (i : item) : string :=
  match i with
  | Comment text => "/* " +:+ text +:+ " */" +:+ lf
  | FunctionDecl => ATTR_FASTVAR +:+ " void (*" +:+ prefix +:+ "_function) (void);" +:+ lf +:+ lf
  | DividerDecl => ATTR_FASTVAR +:+ " unsigned char " +:+ prefix +:+ "_divider;" +:+ lf
  | Include file => "#include " +:+ dq +:+ file +:+ dq +:+ lf
  | Newline => lf
  | Prototype n =>
      "static " +:+ ATTR_INTERRUPT +:+ " void " +:+ prefix +:+ "_" +:+ decimal n
        +:+ " (void);" +:+ lf
  | HandlerHead n =>
      "static " +:+ ATTR_INTERRUPT +:+ " void " +:+ prefix +:+ "_" +:+ decimal n
        +:+ " (void)" +:+ lf
  | BlockBegin => "{" +:+ lf
  | BlockEnd => "}" +:+ lf
  | IfDivider mask => "if (!(" +:+ prefix +:+ "_divider & " +:+ decimal mask +:+ "))" +:+ lf
  | Extern task_name => "extern void " +:+ task_name +:+ " (void);" +:+ lf
  | Call task_name time => task_name +:+ " (); " +:+ time_comment time +:+ lf
  | DividerIncrement => prefix +:+ "_divider++;" +:+ lf
  | SetFunction n => prefix +:+ "_function = " +:+ prefix +:+ "_" +:+ decimal n +:+ ";" +:+ lf
  | TimeComment time => time_comment time
  | DriverFunction =>
      " void " +:+ prefix +:+ "_driver (void)" +:+ lf +:+ "{" +:+ lf
        +:+ "#ifdef __m6809__" +:+ lf
        +:+ "   asm (" +:+ dq +:+ "jmp" +:+ String "009" "" +:+ "[_" +:+ prefix
        +:+ "_function]" +:+ dq +:+ ");" +:+ lf
        +:+ "#else" +:+ lf
        +:+ "   (*" +:+ prefix +:+ "_function) ();" +:+ lf
        +:+ "#endif" +:+ lf
        +:+ "}" +:+ lf +:+ lf
  | InitHead => "void " +:+ prefix +:+ "_init (void)" +:+ lf +:+ "{" +:+ lf
  | ResetDivider => "   " +:+ prefix +:+ "_divider = 0;" +:+ lf
  | InitEnd => "}" +:+ lf +:+ lf
  end.

End Render.

(** ** The emitted program

    The generated program keeps the handler to run next in
    [<prefix>_function] and counts in the [unsigned char]
    [<prefix>_divider]: [<prefix>_init] sets both, the driver jumps
    through the pointer at every interrupt, and the handlers call the
    tasks and assign the two variables.  The emitted text is run as C runs
    it: the statement after an [if] whose condition is false is passed
    over, a block as a whole. *)

(** The variables of the generated program; the function pointer is kept
    as the number of the handler it points to. *)
Record machine : Type := mk_machine {
  tick_function : Z;
  tick_divider : Z
}.

(** A run through emitted text: the variables, the condition of an [if]
    whose statement comes next, the nesting depth inside a block that is
    passed over, and the functions called so far. *)
Record frame : Type := mk_frame {
  vars : machine;
  pending : option bool;
  skipping : nat;
  called : list string
}.

Definition enter (m : machine) : frame := mk_frame m None O [].

(** A simple statement: it is passed over when it follows an [if] that
    failed. *)
Definition statement (f : frame) (m : machine) (calls : list string) : frame :=
  match pending f with
  | Some false => mk_frame (vars f) None O (called f)
  | _ => mk_frame m None O (called f ++ calls)
  end.

(** The effect of one item of emitted text. *)
Definition execute (f : frame) (i : item) : frame :=
  match skipping f with
  | S depth =>
      match i with
      | BlockBegin => mk_frame (vars f) (pending f) (S (S depth)) (called f)
      | BlockEnd => mk_frame (vars f) (pending f) depth (called f)
      | _ => f
      end
  | O =>
      match i with
      | IfDivider mask =>
          match pending f with
          | Some false => f
          | _ => mk_frame (vars f) (Some (Z.land (tick_divider (vars f)) mask =? 0))
                   O (called f)
          end
      | BlockBegin =>
          match pending f with
          | Some false => mk_frame (vars f) None 1 (called f)
          | _ => mk_frame (vars f) None O (called f)
          end
      | Call task_name _ => statement f (vars f) [task_name]
      | DividerIncrement =>
          statement f (mk_machine (tick_function (vars f))
                         ((tick_divider (vars f) + 1) mod 256)) []
      | SetFunction n => statement f (mk_machine n (tick_divider (vars f))) []
      | ResetDivider => statement f (mk_machine (tick_function (vars f)) 0) []
      | _ => f
      end
  end.

(** Running a piece of emitted text. *)
Definition run (body : list item) (f : frame) : frame := foldl execute f body.

(** One interrupt: the driver jumps to the handler the function pointer
    names, which runs to its end; the result is the functions it called
    and the variables afterwards.  [None] when there is no such handler. *)
Definition interrupt (handlers : list (list item)) (m : machine)
  : option (list string * machine) :=
  if tick_function m <? 0 then None
  else
    match handlers !! Z.to_nat (tick_function m) with
    | Some body => let f := run body (enter m) in Some (called f, vars f)
    | None => None
    end.

(** [k] consecutive interrupts: the handlers that run, each with the
    functions it calls. *)
Fixpoint dispatch (handlers : list (list item)) (k : nat) (m : machine)
  : option (list (Z * list string)) :=
  match k with
  | O => Some []
  | S k =>
      match interrupt handlers m with
      | Some (calls, m') =>
          match dispatch handlers k m' with
          | Some trace => Some ((tick_function m, calls) :: trace)
          | None => None
          end
      | None => None
      end
  end.

(** The states of the generated program: what [<prefix>_init] leaves and
    what the interrupts make of it. *)
Inductive running (handlers : list (list item)) : machine -> Prop :=
| running_init m : running handlers (vars (run emit_init (enter m)))
| running_interrupt m calls m' :
    running handlers m -> interrupt handlers m = Some (calls, m') ->
    running handlers m'.

(** How many of the calls go to a function [mine] holds of. *)
Fixpoint count_calls (mine : string -> bool) (calls : list string) : nat :=
  match calls with
  | [] => O
  | c :: calls => ((if mine c then 1 else 0) + count_calls mine calls)%nat
  end.

(** ** Runs of the tool

    [main] applies its options and reads its input files in argument
    order; a state is reachable when the entries read so far were all
    scheduled. *)
Inductive option_arg : Type :=
| OptMaxTicks (M : Z)
| OptPrefix (p : string)
| OptInclude (file : string)
| OptDefine (cond : string).

Definition apply_option (st : schedule) (o : option_arg) : schedule :=
  match o with
  | OptMaxTicks M =>
      mk_schedule (n_ticks st) (ticks st) (tasks st) (wrap M) (max_divider st)
        (prefix st) (include_files st) (conditionals st) (stderr st)
  | OptPrefix p =>
      mk_schedule (n_ticks st) (ticks st) (tasks st) (max_ticks st) (max_divider st)
        p (include_files st) (conditionals st) (stderr st)
  | OptInclude f =>
      mk_schedule (n_ticks st) (ticks st) (tasks st) (max_ticks st) (max_divider st)
        (prefix st) (include_files st ++ [f]) (conditionals st) (stderr st)
  | OptDefine c =>
      mk_schedule (n_ticks st) (ticks st) (tasks st) (max_ticks st) (max_divider st)
        (prefix st) (include_files st) (conditionals st ++ [c]) (stderr st)
  end.

Inductive reachable : schedule -> Prop :=
| reach_init : reachable (init_schedule globals)
| reach_option st o : reachable st -> reachable (apply_option st o)
| reach_entry st name period len st' :
    reachable st -> 0 <= period < UINT_MOD ->
    schedule_entry st name period len = Done st' ->
    reachable st'.

(** ** What the schedule is measured against *)

(** [z] is a power of two. *)
Definition is_pow2 (z : Z) : Prop := exists k, 0 <= k /\ z = 2 ^ k.

(** An entry whose conditional is not defined is skipped by [add_task]. *)
Definition skipped (st : schedule) (name : string) : bool :=
  match split_conditional name with
  | Some (_, cond) => negb (conditional_defined st cond)
  | None => false
  end.

(** The number of slots of a tick that call task [k]. *)
Definition calls_in (k : nat) (t : tick) : nat :=
  length (filter (fun s => slot_task s = k) (slots t)).

(** The number of slots of tick [i] that call task [k]. *)
Definition slots_in (st : schedule) (k : nat) (i : Z) : nat :=
  match ticks st !! Z.to_nat i with
  | Some t => calls_in k t
  | None => O
  end.

(** The number of slots task [k] has in the tick table. *)
Definition slot_count (st : schedule) (k : nat) : nat :=
  sum_list (map (slots_in st k) (seqZ 0 (n_ticks st))).

(** How many of the indices [base], [base + P], ..., [base + (count-1) P],
    taken modulo [n], are equal to [i]. *)
Fixpoint strides (base P n : Z) (count : nat) (i : Z) : nat :=
  match count with
  | O => O
  | S c => (strides base P n c i
            + (if ((base + Z.of_nat c * P) mod n =? i)%Z then 1 else 0))%nat
  end.

(** What a slot adds to the length of its tick. *)
Definition charge (st : schedule) (s : slot) : double :=
  match tasks st !! slot_task s with
  | Some T => div (len T) (of_Z (divider s))
  | None => zero
  end.

(** The length of a tick as its slots add up, in slot order. *)
Definition tick_charges (st : schedule) (t : tick) : double :=
  foldl (fun acc s => add acc (charge st s)) zero (slots t).

(** Task [k] sits in the table as the slot placer leaves it. *)
Definition placed (st : schedule) (k : nat) (T : task) : Prop :=
  let n := n_ticks st in
  let count := Z.max 1 (n / period T) in
  let d := Z.max 1 (period T / n) in
  1 <= period T /\
  n_slots T = count /\
  Z.of_nat (slot_count st k) = count /\
  (forall i t s, ticks st !! i = Some t -> s ∈ slots t -> slot_task s = k ->
                 divider s = d) /\
  (exists base, 0 <= base < n /\
     forall i, 0 <= i < n ->
       slots_in st k i = strides base (period T) n (Z.to_nat count) i).

(** The invariant of the runs of the tool. *)
Record sound (st : schedule) : Prop := mk_sound {
  sound_n_ticks :
    n_ticks st = 8 \/
    (n_ticks st = 0 /\ tasks st = []
     /\ ticks st = replicate (Z.to_nat MAX_TICKS) empty_tick);
  sound_ticks : length (ticks st) = Z.to_nat MAX_TICKS;
  sound_max_divider : exists e, 0 <= e <= 7 /\ max_divider st = 2 ^ e;
  sound_refs : forall i t s, ticks st !! i = Some t -> s ∈ slots t ->
                             (slot_task s < length (tasks st))%nat;
  sound_tasks : forall k T, tasks st !! k = Some T -> placed st k T;
  sound_len : forall i t, ticks st !! i = Some t -> tick_len t = tick_charges st t
}.

(** A tick after [m] more slots of task [k] with divider [d] and length
    [l] were placed in it. *)
Definition placed_tick (d : Z) (k : nat) (l : double) (m : nat) (t : tick) : tick :=
  mk_tick (slots t ++ replicate m (mk_slot d k))
    (Nat.iter m (fun x => add x (div l (of_Z d))) (tick_len t)).

(** ** Auxiliary notions of the proofs *)

(** The state after [c] turns of the slot loop. *)
Definition after_placing (st : schedule) (k : nat) (P : Z) (l : double) (d : Z)
    (base : Z) (c : nat) : schedule :=
  with_tasks
    (with_ticks st
       (imap (fun i t => placed_tick d k l (strides base P 8 c (Z.of_nat i)) t)
          (ticks st)))
    (alter (fun t => mk_task (name t) (period t) (len t) (already_unrolled_count t)
                       (n_slots t + Z.of_nat c)) k (tasks st)).

(** The state a successful insertion leaves. *)
Definition inserted (st : schedule) (T : task) (base : Z) : schedule :=
  let d := Z.max 1 (period T / 8) in
  let c := Z.max 1 (8 / period T) in
  after_placing
    (with_max_divider (with_n_ticks (with_tasks st (tasks st ++ [T])) 8)
       (Z.max (max_divider st) d))
    (length (tasks st)) (period T) (len T) d base (Z.to_nat c).

(** Task [T] after [c] of its slots were counted in [n_slots]. *)
Definition bumped (T : task) (c : Z) : task :=
  mk_task (name T) (period T) (len T) (already_unrolled_count T) (n_slots T + c).

(** How often handler [h] runs in a trace. *)
Definition times_run (h : Z) (trace : list Z) : nat :=
  length (filter (fun x => x = h) trace).

(** The suffix of a pre-unrolled task can be computed. *)
Definition suffix_defined (T : task) : Prop :=
  already_unrolled_count T = 0 \/
  wrap (wrap (already_unrolled_count T) * period T) <> 0.

(** The name the task is called by, with a suffix of one digit when the
    task is pre-unrolled, fits in the buffer it is built in. *)
Definition name_fits (T : task) : Prop :=
  let task_name :=
    if String.prefix "!" (name T)
    then String.substring 1 (String.length (name T) - 1) (name T)
    else name T in
  Z.of_nat (String.length task_name)
    + (if already_unrolled_count T =? 0 then 0 else 2) < MAX_ID.

(** The length of the task in cycles is an [int]. *)
Definition cycles_defined (T : task) : Prop :=
  exists z, trunc (mul (len T) (of_Z CYCLES_PER_TICK)) = Some z /\
            - 2 ^ 31 <= z < 2 ^ 31.

(** What the search for the best tick has found after [j] candidates. *)
Definition best_so_far (cost : Z -> outcome double) (j : Z) (best : Z) (best_len : double)
  : Prop :=
  (best = 0 /\ best_len = huge /\
   forall i, 0 <= i < j -> exists ci, cost i = Done ci /\ ltb ci huge = false) \/
  (0 <= best < j /\ cost best = Done best_len /\ ltb best_len huge = true /\
   (forall i, 0 <= i < j -> exists ci, cost i = Done ci /\ ltb ci best_len = false) /\
   (forall i, 0 <= i < best -> exists ci, cost i = Done ci /\ leb ci best_len = false)).

(** ** Scenarios *)

Definition fresh : schedule := init_schedule globals.

(** [n] entries [name period len] scheduled one after the other. *)
Fixpoint add_tasks (n : nat) (name : string) (period : Z) (len : double)
    (st : schedule) : outcome schedule :=
  match n with
  | O => Done st
  | S n => st ← add_tasks n name period len st; add_task st name period len
  end.

(** The token is a number of CPU cycles: its last character is [c] or [C]. *)
Definition in_cycles (s : string) : bool :=
  match last_char s with
  | Some c => Ascii.eqb c "c" || Ascii.eqb c "C"
  | None => false
  end.

(** The task [scan 1 0.1] once it is placed. *)
Definition scan_task : task := Eval vm_compute in mk_task "scan" 1 (dec 1 1) 0 8.

(** The schedule after the single entry [scan 1 0.1]. *)
Definition scanned : schedule :=
  Eval vm_compute in
    match add_task fresh "scan" 1 (dec 1 1) with
    | Done st => st
    | _ => fresh
    end.

(** The handlers emitted for [scanned]. *)
Definition scanned_handlers : list (list item) :=
  Eval vm_compute in
    match emit_handlers scanned with
    | Done hs => hs
    | _ => []
    end.

(** ** Notions for the further properties *)

(** The line holds delimiters only. *)
Fixpoint blank (line : string) : bool :=
  match line with
  | EmptyString => true
  | String c rest => is_delim c && blank rest
  end.

(** The first character of the line that is not a delimiter. *)
Fixpoint first_visible (line : string) : option ascii :=
  match line with
  | EmptyString => None
  | String c rest => if is_delim c then first_visible rest else Some c
  end.

(** No character of the list is a newline. *)
Definition no_newline (cs : list ascii) : Prop :=
  Forall (fun c => Ascii.eqb c "010" = false) cs.

(** The number of ticks a time token stands for. *)
Definition time_value (strtod : string -> double) (tok : string) : double :=
  if in_cycles tok then div (strtod tok) (of_Z CYCLES_PER_TICK) else strtod tok.

(** The name holds no ['?']. *)
Fixpoint no_question (s : string) : bool :=
  match s with
  | EmptyString => true
  | String c rest => negb (Ascii.eqb c "?") && no_question rest
  end.

(** Further facts every run keeps. *)
Record tidy (st : schedule) : Prop := mk_tidy {
  tidy_width : n_ticks st = 8 -> tasks st <> [];
  tidy_periods : forall k T, tasks st !! k = Some T -> is_pow2 (period T);
  tidy_dividers : forall i t s, ticks st !! i = Some t -> s ∈ slots t ->
                                is_pow2 (divider s) /\ divider s <= max_divider st;
  tidy_beyond : forall i t, ticks st !! i = Some t -> (8 <= i)%nat -> t = empty_tick;
  tidy_max : max_divider st = 1 \/
             exists i t s, ticks st !! i = Some t /\ s ∈ slots t /\
                           divider s = max_divider st
}.

(** No tick holds more than [cap] slots. *)
Definition within_cap (cap : Z) (ts : list tick) : Prop :=
  forall i t, ts !! i = Some t -> tick_n_slots t <= cap.

(** The items the loop over the slots writes. *)
Definition call_text (i : item) : bool :=
  match i with
  | Newline | IfDivider _ | BlockBegin | Extern _ | Call _ _ => true
  | _ => false
  end.

Definition is_block_begin (i : item) : bool :=
  match i with BlockBegin => true | _ => false end.
Definition is_block_end (i : item) : bool :=
  match i with BlockEnd => true | _ => false end.
Definition is_call (i : item) : bool :=
  match i with Call _ _ => true | _ => false end.

(** How many items of a kind a piece of output holds. *)
Fixpoint count_items (kind : item -> bool) (l : list item) : nat :=
  match l with
  | [] => O
  | i :: l => ((if kind i then 1 else 0) + count_items kind l)%nat
  end.

(** How many of the slots have the divider [dv]. *)
Fixpoint with_divider (dv : Z) (ss : list slot) : nat :=
  match ss with
  | [] => O
  | s :: ss => ((if (divider s =? dv)%Z then 1 else 0) + with_divider dv ss)%nat
  end.

(** Tick [i] is one of the ticks [base], [base + P], ... of a task of
    period [P]. *)
Definition on_stride (base P i : Z) : nat :=
  if i mod P =? base mod P then 1%nat else 0%nat.

(** A tick of [scanned]: one slot of the task [scan]. *)
Definition scan_tick : tick := Eval vm_compute in mk_tick [mk_slot 1 0] (dec 1 1).

(** The handler emitted for tick 0 of [scanned]. *)
Definition scan_handler : list item :=
  Eval vm_compute in
    match emit_handler scanned 0 with
    | Done h => h
    | _ => []
    end.

(** The schedule after [scan 1 0.1] and [rare 16 0.2]. *)
Definition rare_added : schedule :=
  Eval vm_compute in
    match add_task scanned "rare" 16 (dec 2 1) with
    | Done st => st
    | _ => scanned
    end.

(** The handlers emitted after [scan 1 0.1] and [rare 16 0.2]; the last
    one calls [rare] under a divider guard. *)
Definition rare_handlers : list (list item) :=
  Eval vm_compute in
    match emit_handlers rare_added with
    | Done hs => hs
    | _ => []
    end.

(** The schedule after the single entry [f/2 1 0.1]. *)
Definition unrolled_added : schedule :=
  Eval vm_compute in
    match add_task fresh "f/2" 1 (dec 1 1) with
    | Done st => st
    | _ => fresh
    end.

(** The task [f/2 1 0.1] once it is placed, and a tick that holds it. *)
Definition unrolled_task : task := Eval vm_compute in mk_task "f" 1 (dec 1 1) 2 8.
Definition unrolled_tick : tick := Eval vm_compute in mk_tick [mk_slot 1 0] (dec 1 1).

(** The handler emitted for tick 3 of [unrolled_added]. *)
Definition unrolled_handler : list item :=
  Eval vm_compute in
    match emit_handler unrolled_added 3 with
    | Done h => h
    | _ => []
    end.

(** A task whose length is not a number, and the schedule after the
    single entry that gives it. *)
Definition nan_task : task := mk_task "n" 8 S754_nan 0 1.
Definition nan_added : schedule :=
  Eval vm_compute in
    match schedule_entry fresh "n" 8 S754_nan with
    | Done st => st
    | _ => fresh
    end.

(** ** The loops *)

Lemma for_loop_inv {S : Type} (I : nat -> S -> Prop) body i n (s r : S) :
  I O s ->
  (forall j s s', (j < n)%nat -> I j s ->
     body (i + Z.of_nat j) s = Done s' -> I (Datatypes.S j) s') ->
  for_loop body i n s = Done r -> I n r.
Proof.
  revert I i s. induction n as [|n IH]; intros I i s H0 Hstep; simpl.
  - intros [= <-]. exact H0.
  - destruct (body i s) as [s'| |] eqn:Hb; try discriminate. simpl.
    apply (IH (fun j => I (Datatypes.S j))).
    + apply (Hstep O s s'); [lia|exact H0|]. now rewrite Z.add_0_r.
    + intros j s1 s2 Hj HI Hb'. apply (Hstep (Datatypes.S j) s1 s2); [lia|exact HI|].
      rewrite <- Hb'. f_equal. lia.
Qed.

(** ** Machine arithmetic *)

Lemma pow2_of_land (p : Z) :
  0 < p -> Z.land p (p - 1) = 0 -> exists k, 0 <= k /\ p = 2 ^ k.
Proof.
  intros Hp Hland. exists (Z.log2 p). split; [apply Z.log2_nonneg|].
  destruct (Z.log2_spec p Hp) as [Hlo Hhi].
  destruct (Z.eq_dec p (2 ^ Z.log2 p)) as [|Hne]; [assumption|exfalso].
  assert (Hlog : Z.log2 (p - 1) = Z.log2 p).
  { apply Z.log2_unique; [apply Z.log2_nonneg|]. lia. }
  assert (Hb1 : Z.testbit p (Z.log2 p) = true) by (apply Z.bit_log2; lia).
  assert (Hb2 : Z.testbit (p - 1) (Z.log2 p) = true).
  { rewrite <- Hlog. apply Z.bit_log2.
    assert (0 < 2 ^ Z.log2 p) by (apply Z.pow_pos_nonneg; [lia|apply Z.log2_nonneg]). lia. }
  assert (Hb : Z.testbit (Z.land p (p - 1)) (Z.log2 p) = true).
  { rewrite Z.land_spec, Hb1, Hb2. reflexivity. }
  rewrite Hland, Z.bits_0 in Hb. discriminate.
Qed.

Lemma wrap_small z : 0 <= z < UINT_MOD -> wrap z = z.
Proof. intros. unfold wrap. apply Z.mod_small. assumption. Qed.

Lemma period_check_pow2 (p : Z) :
  0 < p < UINT_MOD -> Z.land p (wrap (p - 1)) = 0 -> is_pow2 p.
Proof.
  intros Hp H. rewrite wrap_small in H by lia. apply pow2_of_land; [lia|assumption].
Qed.

(** ** Expanding the tick table *)

Lemma n_ticks_expand st p : n_ticks (expand_ticks st p) = 8.
Proof. reflexivity. Qed.

Lemma length_reset (ts : list tick) (l : list nat) :
  length (foldl (fun ts tickno => <[tickno := empty_tick]> ts) ts l) = length ts.
Proof.
  revert ts. induction l as [|i l IH]; intros ts; simpl; [reflexivity|].
  rewrite IH. apply length_insert.
Qed.

Lemma expand_fresh_ticks st p :
  ticks st = replicate (Z.to_nat MAX_TICKS) empty_tick ->
  ticks (expand_ticks st p) = ticks st.
Proof. intros H. unfold expand_ticks. simpl. rewrite H. reflexivity. Qed.

(** ** Planning the slots of a task *)

Lemma bind_done {A B} (m : outcome A) (k : A -> outcome B) r :
  m ≫= k = Done r -> exists a, m = Done a /\ k a = Done r.
Proof. destruct m; simpl; intros H; try discriminate. eauto. Qed.

Lemma udiv_done a b q : udiv a b = Done q -> b <> 0 /\ q = a / b.
Proof. unfold udiv. destruct (Z.eqb_spec b 0); intros [=]; auto. Qed.

Lemma umod_done a b q : umod a b = Done q -> b <> 0 /\ q = a mod b.
Proof. unfold umod. destruct (Z.eqb_spec b 0); intros [=]; auto. Qed.

Lemma find_best_tick_range st P count l base :
  find_best_tick st P count l = Done base ->
  count <> 0 /\ 0 <= base /\ (base = 0 \/ base < n_ticks st / count).
Proof.
  unfold find_best_tick. intros H.
  apply bind_done in H as (cands & Hc & H). apply udiv_done in Hc as [Hnz ->].
  apply bind_done in H as ([best bl] & Hloop & H). injection H as ->.
  split; [assumption|].
  set (n := Z.to_nat (n_ticks st / count)) in *.
  assert (HI : 0 <= base /\ (base = 0 \/ base < Z.of_nat n)).
  { revert Hloop.
    apply (for_loop_inv (fun j (s : Z * double) => 0 <= s.1 /\ (s.1 = 0 \/ s.1 < Z.of_nat j))
             _ 0 n (0, huge) (base, bl)).
    - simpl. lia.
    - intros j [b0 bl0] [b1 bl1] Hj [H0 H1] Hb. simpl in *.
      apply bind_done in Hb as (tot & _ & Hb).
      destruct (ltb tot bl0); injection Hb as <- <-; lia. }
  destruct HI as [H0 H1]. split; [assumption|].
  destruct H1 as [|H1]; [left; assumption|right]. subst n.
  destruct (Z.le_gt_cases 0 (n_ticks st / count)); [|lia].
  rewrite Z2Nat.id in H1; assumption.
Qed.

Lemma plan_slots_done st P st2 count d base l :
  (n_ticks st = 8 \/
   (n_ticks st = 0 /\ ticks st = replicate (Z.to_nat MAX_TICKS) empty_tick)) ->
  0 <= P -> 1 <= max_divider st < 256 ->
  plan_slots st P = Done (st2, count, d) ->
  find_best_tick st2 P count l = Done base ->
  1 <= P /\ count = Z.max 1 (8 / P) /\ d = Z.max 1 (P / 8) /\ d < 256 /\
  0 <= base < 8 /\
  st2 = with_max_divider (with_n_ticks st 8) (Z.max (max_divider st) d).
Proof.
  intros Hn HP Hmd Hplan Hbest.
  apply find_best_tick_range in Hbest as (Hcnz & Hb0 & Hb1).
  unfold plan_slots in Hplan.
  destruct st as [n ts tk mt md pf inc cd err]; simpl in *.
  destruct (Z.gtb_spec P n) as [Hgt|Hle].
  - destruct (Z.leb_spec P mt) as [Hmt|Hmt].
    + apply bind_done in Hplan as (c & Hc & Hplan).
      unfold expand_ticks in *; simpl in *.
      apply udiv_done in Hc as [HPnz ->]. injection Hplan as <- <- <-.
      simpl in *.
      assert (P <= 8).
      { destruct (Z.le_gt_cases P 8); [assumption|]. rewrite Z.div_small in Hcnz; lia. }
      assert (1 <= 8 / P) by (apply Z.div_le_lower_bound; lia).
      assert (8 / P <= 8) by (apply Z.div_le_upper_bound; nia).
      assert (P / 8 <= 1) by (apply Z.div_le_upper_bound; lia).
      repeat split; try lia.
      * destruct Hb1 as [->|Hb1]; [lia|].
        assert (8 / (8 / P) <= 8) by (apply Z.div_le_upper_bound; nia). lia.
      * unfold with_max_divider, with_n_ticks, with_ticks; simpl.
        rewrite (Z.max_l md 1) by lia. f_equal.
        destruct Hn as [->|[-> ->]]; [lia|]. reflexivity.
    + apply bind_done in Hplan as (dv & Hd & Hplan).
      apply udiv_done in Hd as [Hnnz ->].
      destruct Hn as [->|[-> _]]; [|lia].
      assert (1 <= P / 8) by (apply Z.div_le_lower_bound; lia).
      assert (8 / P = 0) by (apply Z.div_small; lia).
      destruct (Z.gtb_spec (P / 8) md) as [Hd|Hd]; simpl in Hplan.
      * destruct (Z.geb_spec (P / 8) 256) as [Hbig|Hbig]; [discriminate|].
        injection Hplan as <- <- <-. simpl in *.
        rewrite Z.div_1_r in Hb1.
        repeat split; try lia.
        unfold with_max_divider, with_n_ticks; simpl. f_equal. lia.
      * injection Hplan as <- <- <-. simpl in *. rewrite Z.div_1_r in Hb1.
        repeat split; try lia.
        unfold with_max_divider, with_n_ticks; simpl. f_equal. lia.
  - apply bind_done in Hplan as (c & Hc & Hplan).
    apply udiv_done in Hc as [HPnz ->]. injection Hplan as <- <- <-. simpl in *.
    destruct Hn as [->|[-> _]]; [|lia].
    assert (1 <= 8 / P) by (apply Z.div_le_lower_bound; lia).
    assert (8 / P <= 8) by (apply Z.div_le_upper_bound; nia).
    assert (P / 8 <= 1) by (apply Z.div_le_upper_bound; lia).
    repeat split; try lia.
    + destruct Hb1 as [->|Hb1]; [lia|].
      assert (8 / (8 / P) <= 8) by (apply Z.div_le_upper_bound; nia). lia.
    + unfold with_max_divider, with_n_ticks; simpl. f_equal. lia.
Qed.

(** ** The loop that creates the slots *)

Lemma wrap_mod_8 z : wrap z mod 8 = z mod 8.
Proof.
  unfold wrap, UINT_MOD. apply Z.mod_mod_divide.
  exists (2 ^ 29). reflexivity.
Qed.

Lemma placed_tick_succ d k l m t :
  placed_tick d k l (m + 1) t =
  mk_tick (slots (placed_tick d k l m t) ++ [mk_slot d k])
    (add (tick_len (placed_tick d k l m t)) (div l (of_Z d))).
Proof.
  unfold placed_tick. simpl. rewrite Nat.add_1_r. simpl. f_equal.
  rewrite <- app_assoc. f_equal. apply replicate_S_end.
Qed.

Lemma placed_tick_0 d k l t : placed_tick d k l 0 t = t.
Proof. destruct t. unfold placed_tick. simpl. now rewrite app_nil_r. Qed.

Lemma after_placing_0 st k P l d base : after_placing st k P l d base 0 = st.
Proof.
  destruct st as [n ts tk mt md pf inc cd err].
  unfold after_placing, with_tasks, with_ticks. simpl. f_equal.
  - apply list_eq. intros i. rewrite list_lookup_imap.
    destruct (ts !! i); simpl; [|reflexivity]. now rewrite placed_tick_0.
  - apply list_eq. intros i. destruct (decide (i = k)) as [->|].
    + rewrite list_lookup_alter_eq. destruct (tk !! k) as [[]|]; simpl; [|reflexivity].
      do 2 f_equal. lia.
    + now rewrite list_lookup_alter_ne.
Qed.

Lemma place_loop st k P l d base c st3 b :
  n_ticks st = 8 -> 0 <= base < 8 ->
  for_loop (fun _ => place_slot k P l d) 0 c (st, base) = Done (st3, b) ->
  st3 = after_placing st k P l d base c /\ b = (base + Z.of_nat c * P) mod 8.
Proof.
  intros Hn Hbase.
  apply (for_loop_inv
           (fun j (s : schedule * Z) =>
              s.1 = after_placing st k P l d base j /\
              s.2 = (base + Z.of_nat j * P) mod 8) _ 0 c (st, base) (st3, b)).
  - simpl. split; [now rewrite after_placing_0|]. rewrite Z.mod_small; lia.
  - intros j [s1 b1] [s2 b2] Hj [H1 H2] Hstep. simpl in *. subst s1 b1.
    unfold place_slot in Hstep.
    apply bind_done in Hstep as (sa & Halloc & Hstep).
    apply bind_done in Hstep as (bn & Hmod & Hstep). injection Hstep as <- <-.
    apply umod_done in Hmod as [_ ->].
    set (bj := (base + Z.of_nat j * P) mod 8) in *.
    assert (Hbj : 0 <= bj < 8) by (apply Z.mod_pos_bound; lia).
    unfold alloc_slot in Halloc.
    apply bind_done in Halloc as (t & Hget & Halloc).
    unfold get_tick in Hget.
    destruct (ticks (after_placing st k P l d base j) !! Z.to_nat bj) as [t'|] eqn:Hlk;
      [|discriminate]. injection Hget as ->.
    destruct (_ =? MAX_SLOTS_PER_TICK); [discriminate|].
    destruct (MAX_SLOTS_PER_TICK <=? _); [discriminate|]. injection Halloc as <-.
    split.
    + destruct st as [n ts tk mt md pf inc cd err].
      unfold after_placing, bump_n_slots, charge_tick, with_tasks, with_ticks in *.
      simpl in *. subst n.
      rewrite list_lookup_imap in Hlk.
      destruct (ts !! Z.to_nat bj) as [t0|] eqn:Ht0; [|discriminate].
      simpl in Hlk. injection Hlk as <-.
      f_equal.
      * apply list_eq. intros i.
        rewrite list_lookup_imap.
        destruct (decide (i = Z.to_nat bj)) as [->|Hne].
        -- rewrite list_lookup_alter_eq, list_lookup_insert_eq
             by (rewrite length_imap; eapply lookup_lt_Some; eassumption).
           rewrite Ht0. simpl. f_equal. rewrite Z2Nat.id by lia.
           rewrite Z.eqb_refl. rewrite placed_tick_succ. reflexivity.
        -- rewrite list_lookup_alter_ne, list_lookup_insert_ne by congruence.
           rewrite list_lookup_imap. destruct (ts !! i); simpl; [|reflexivity].
           f_equal. unfold bj. destruct (Z.eqb_spec ((base + Z.of_nat j * P) mod 8) (Z.of_nat i)); [lia|].
           f_equal. lia.
      * apply list_eq. intros i. destruct (decide (i = k)) as [->|Hne].
        -- rewrite !list_lookup_alter_eq. destruct (tk !! k) as [[]|]; simpl; [|reflexivity].
           do 2 f_equal. lia.
        -- now rewrite !list_lookup_alter_ne by congruence.
    + simpl. rewrite Hn, wrap_mod_8. fold bj. unfold bj.
      rewrite Zplus_mod_idemp_l. f_equal. lia.
Qed.

(** One placement appends the slot to the receiving tick and adds
    [len / divider] to its recorded length. *)
Lemma place_slot_done k P l d st base st' base' :
  place_slot k P l d (st, base) = Done (st', base') ->
  exists t,
    ticks st !! Z.to_nat base = Some t /\
    ticks st' !! Z.to_nat base
    = Some (mk_tick (slots t ++ [mk_slot d k]) (add (tick_len t) (div l (of_Z d)))) /\
    base' = wrap (base + P) mod n_ticks st.
Proof.
  unfold place_slot. intros H.
  apply bind_done in H as (sa & Halloc & H).
  apply bind_done in H as (bn & Hmod & H). injection H as <- <-.
  apply umod_done in Hmod as [_ ->].
  unfold alloc_slot in Halloc. apply bind_done in Halloc as (t & Hget & Halloc).
  unfold get_tick in Hget.
  destruct (ticks st !! Z.to_nat base) as [t'|] eqn:Hlk; [|discriminate].
  injection Hget as ->.
  destruct (_ =? MAX_SLOTS_PER_TICK); [discriminate|].
  destruct (MAX_SLOTS_PER_TICK <=? _); [discriminate|]. injection Halloc as <-.
  exists t. split; [reflexivity|]. split; [|reflexivity].
  destruct st as [n ts tk mt md pf inc cd err]. simpl in *.
  rewrite list_lookup_alter_eq, list_lookup_insert_eq
    by (eapply lookup_lt_Some; eassumption).
  reflexivity.
Qed.

(** ** Counting slots *)

Lemma sum_indicator_notin (p : Z) (l : list Z) :
  p ∉ l -> sum_list (map (fun i => if p =? i then 1%nat else 0%nat) l) = O.
Proof.
  induction l as [|x l IH]; simpl; intros Hp; [reflexivity|].
  rewrite not_elem_of_cons in Hp. destruct Hp as [Hx Hl].
  destruct (Z.eqb_spec p x); [contradiction|]. now rewrite IH.
Qed.

Lemma sum_indicator (p : Z) (l : list Z) :
  NoDup l -> p ∈ l -> sum_list (map (fun i => if p =? i then 1%nat else 0%nat) l) = 1%nat.
Proof.
  induction 1 as [|x l Hx Hnd IH]; intros Hp; [inversion Hp|]. simpl.
  destruct (Z.eqb_spec p x) as [->|Hne].
  - now rewrite sum_indicator_notin.
  - rewrite IH; [reflexivity|]. apply elem_of_cons in Hp as [|]; [contradiction|assumption].
Qed.

Lemma sum_list_add (f g : Z -> nat) (l : list Z) :
  sum_list (map (fun i => f i + g i)%nat l) = (sum_list (map f l) + sum_list (map g l))%nat.
Proof. induction l as [|x l IH]; simpl; [reflexivity|]. rewrite IH. lia. Qed.

Lemma sum_strides base P n c :
  0 < n -> sum_list (map (strides base P n c) (seqZ 0 n)) = c.
Proof.
  intros Hn. induction c as [|c IH]; simpl.
  - induction (seqZ 0 n) as [|x l IHl]; simpl; [reflexivity|]. now rewrite IHl.
  - rewrite (sum_list_add (strides base P n c)
               (fun i => if (base + Z.of_nat c * P) mod n =? i then 1%nat else 0%nat)).
    rewrite IH, sum_indicator; [lia|apply NoDup_seqZ|].
    apply elem_of_seqZ. pose proof (Z.mod_pos_bound (base + Z.of_nat c * P) n Hn). lia.
Qed.

Lemma calls_in_placed_tick_ne k' d k l m t :
  k' <> k -> calls_in k' (placed_tick d k l m t) = calls_in k' t.
Proof.
  intros Hne. unfold calls_in, placed_tick. simpl.
  rewrite filter_app, length_app.
  assert (H : filter (fun s => slot_task s = k') (replicate m (mk_slot d k)) = []).
  { induction m as [|m IH]; simpl; [reflexivity|].
    rewrite filter_cons_False by (simpl; congruence). exact IH. }
  rewrite H. simpl. lia.
Qed.

Lemma calls_in_placed_tick_eq d k l m t :
  calls_in k (placed_tick d k l m t) = (calls_in k t + m)%nat.
Proof.
  unfold calls_in, placed_tick. simpl. rewrite filter_app, length_app. f_equal.
  induction m as [|m IH]; simpl; [reflexivity|].
  rewrite filter_cons_True by reflexivity. simpl. now rewrite IH.
Qed.

Lemma calls_in_0 k t :
  (forall s, s ∈ slots t -> slot_task s <> k) -> calls_in k t = O.
Proof.
  unfold calls_in. induction (slots t) as [|s ss IH]; intros H; [reflexivity|].
  rewrite filter_cons_False by (apply H; left). apply IH. intros s' Hs'. apply H. now right.
Qed.

Lemma foldl_replicate {A B} (f : A -> B -> A) (a : A) (b : B) (m : nat) :
  foldl f a (replicate m b) = Nat.iter m (fun x => f x b) a.
Proof.
  revert a. induction m as [|m IH]; intros a; simpl; [reflexivity|].
  rewrite IH. clear IH. induction m as [|m IH]; simpl; [reflexivity|]. now rewrite IH.
Qed.

Lemma foldl_ext_in {A B} (f g : A -> B -> A) (a : A) (l : list B) :
  (forall x y, y ∈ l -> f x y = g x y) -> foldl f a l = foldl g a l.
Proof.
  revert a. induction l as [|y l IH]; intros a H; simpl; [reflexivity|].
  rewrite H by left. apply IH. intros x y' Hy'. apply H. now right.
Qed.

Lemma pow2_div8 P :
  is_pow2 P -> Z.max 1 (P / 8) < 256 ->
  exists e, 0 <= e <= 7 /\ Z.max 1 (P / 8) = 2 ^ e.
Proof.
  intros (k & Hk & ->) Hlt.
  destruct (Z.le_gt_cases 3 k) as [H3|H3].
  - replace k with ((k - 3) + 3) in * by lia.
    rewrite Z.pow_add_r in * by lia. change (2 ^ 3) with 8 in *.
    rewrite Z.div_mul in * by lia.
    assert (0 < 2 ^ (k - 3)) by (apply Z.pow_pos_nonneg; lia).
    rewrite Z.max_r in * by lia.
    exists (k - 3). split; [|reflexivity]. split; [lia|].
    destruct (Z.le_gt_cases (k - 3) 7); [assumption|].
    assert (2 ^ 8 <= 2 ^ (k - 3)) by (apply Z.pow_le_mono_r; lia).
    change (2 ^ 8) with 256 in *. lia.
  - exists 0. split; [lia|].
    assert (2 ^ k <= 2 ^ 2) by (apply Z.pow_le_mono_r; lia).
    assert (0 < 2 ^ k) by (apply Z.pow_pos_nonneg; lia).
    change (2 ^ 2) with 4 in *.
    rewrite Z.div_small by lia. reflexivity.
Qed.

Lemma max_pow2 a b :
  0 <= a <= 7 -> 0 <= b <= 7 ->
  exists e, 0 <= e <= 7 /\ Z.max (2 ^ a) (2 ^ b) = 2 ^ e.
Proof.
  intros Ha Hb. destruct (Z.le_ge_cases a b).
  - exists b. split; [assumption|]. apply Z.max_r. apply Z.pow_le_mono_r; lia.
  - exists a. split; [assumption|]. apply Z.max_l. apply Z.pow_le_mono_r; lia.
Qed.

(** ** A successful insertion *)

Lemma add_task_done st nm P l st' :
  (n_ticks st = 8 \/
   (n_ticks st = 0 /\ ticks st = replicate (Z.to_nat MAX_TICKS) empty_tick)) ->
  1 <= max_divider st < 256 -> 0 <= P ->
  add_task st nm P l = Done st' ->
  (skipped st nm = true /\ st' = warn st (SkippingEntry nm)) \/
  (skipped st nm = false /\ n_tasks st < MAX_TASKS /\
   exists nm' auc base,
     1 <= P /\ Z.max 1 (P / 8) < 256 /\ 0 <= base < 8 /\
     st' = inserted st (mk_task nm' P l auc 0) base).
Proof.
  intros Hn Hmd HP. unfold add_task, skipped.
  destruct (split_conditional nm) as [[before cond]|].
  2: set (nm1 := nm). 1: set (nm1 := before); destruct (conditional_defined st cond); simpl.
  2: { intros [= <-]. left. auto. }
  all: destruct (split_unrolled nm1) as [nm' auc];
    destruct (Z.leb_spec MAX_TASKS (n_tasks st)) as [|Hlt]; [discriminate|];
    intros H; right; (split; [reflexivity|]); (split; [assumption|]);
    apply bind_done in H as ([[st2 count] d] & Hplan & H);
    apply bind_done in H as (base & Hbest & H);
    apply bind_done in H as ([st3 b] & Hloop & H); injection H as <-;
    eapply plan_slots_done in Hplan as (HP1 & -> & -> & Hd & Hbase & ->);
      [| exact Hn | exact HP | exact Hmd | exact Hbest];
    apply place_loop in Hloop as [-> _]; [|reflexivity|assumption];
    exists nm', auc, base; auto.
Qed.

Lemma inserted_tasks st T base :
  tasks (inserted st T base)
  = tasks st ++ [bumped T (Z.of_nat (Z.to_nat (Z.max 1 (8 / period T))))].
Proof.
  unfold inserted, after_placing. simpl.
  rewrite <- (Nat.add_0_r (length (tasks st))) at 1.
  rewrite alter_app_r. reflexivity.
Qed.

Lemma inserted_ticks st T base :
  ticks (inserted st T base)
  = imap (fun i t =>
            placed_tick (Z.max 1 (period T / 8)) (length (tasks st)) (len T)
              (strides base (period T) 8 (Z.to_nat (Z.max 1 (8 / period T))) (Z.of_nat i)) t)
      (ticks st).
Proof. reflexivity. Qed.

Lemma inserted_n_ticks st T base : n_ticks (inserted st T base) = 8.
Proof. reflexivity. Qed.

Lemma inserted_max_divider st T base :
  max_divider (inserted st T base) = Z.max (max_divider st) (Z.max 1 (period T / 8)).
Proof. reflexivity. Qed.

Lemma inserted_tick_lookup st T base i t :
  ticks (inserted st T base) !! i = Some t ->
  exists t0, ticks st !! i = Some t0 /\
    t = placed_tick (Z.max 1 (period T / 8)) (length (tasks st)) (len T)
          (strides base (period T) 8 (Z.to_nat (Z.max 1 (8 / period T))) (Z.of_nat i)) t0.
Proof.
  rewrite inserted_ticks, list_lookup_imap.
  destruct (ticks st !! i) as [t0|]; simpl; [|discriminate].
  intros [= <-]. eauto.
Qed.

Lemma slots_in_inserted_old st T base k i :
  k <> length (tasks st) ->
  slots_in (inserted st T base) k i = slots_in st k i.
Proof.
  intros Hk. unfold slots_in. rewrite inserted_ticks, list_lookup_imap.
  destruct (ticks st !! Z.to_nat i); simpl; [|reflexivity].
  now apply calls_in_placed_tick_ne.
Qed.

Lemma slots_in_inserted_new st T base i :
  sound st -> 0 <= i < 8 ->
  slots_in (inserted st T base) (length (tasks st)) i
  = strides base (period T) 8 (Z.to_nat (Z.max 1 (8 / period T))) i.
Proof.
  intros Hs Hi. unfold slots_in. rewrite inserted_ticks, list_lookup_imap.
  destruct (ticks st !! Z.to_nat i) as [t0|] eqn:Ht0; simpl.
  - rewrite calls_in_placed_tick_eq, Z2Nat.id by lia.
    rewrite calls_in_0; [reflexivity|].
    intros s Hin Heq. pose proof (sound_refs st Hs _ _ _ Ht0 Hin). lia.
  - apply lookup_ge_None in Ht0. rewrite (sound_ticks st Hs) in Ht0.
    change (Z.to_nat MAX_TICKS) with 32%nat in Ht0. lia.
Qed.

Lemma charge_inserted_old st T base s :
  (slot_task s < length (tasks st))%nat ->
  charge (inserted st T base) s = charge st s.
Proof.
  intros Hlt. unfold charge. rewrite inserted_tasks, lookup_app_l by assumption.
  reflexivity.
Qed.

Lemma charge_inserted_new st T base d :
  charge (inserted st T base) (mk_slot d (length (tasks st))) = div (len T) (of_Z d).
Proof.
  unfold charge. simpl slot_task. rewrite inserted_tasks.
  rewrite lookup_app_r by lia. rewrite Nat.sub_diag. reflexivity.
Qed.

Lemma slot_count_ext st st' k :
  n_ticks st' = n_ticks st ->
  (forall i, 0 <= i < n_ticks st -> slots_in st' k i = slots_in st k i) ->
  slot_count st' k = slot_count st k.
Proof.
  intros Hn H. unfold slot_count. rewrite Hn. f_equal.
  apply map_ext_in. intros i Hi. apply H.
  apply list_elem_of_In, elem_of_seqZ in Hi. lia.
Qed.

Lemma placed_inserted_old st T base k T' :
  n_ticks st = 8 -> k <> length (tasks st) ->
  (forall i t s, ticks st !! i = Some t -> s ∈ slots t ->
                 (slot_task s < length (tasks st))%nat) ->
  placed st k T' -> placed (inserted st T base) k T'.
Proof.
  intros Hn Hk Hrefs (Hp & Hns & Hcount & Hdiv & basek & Hbk & Hstr).
  unfold placed. rewrite inserted_n_ticks, Hn in *.
  repeat split; try assumption; try lia.
  - rewrite <- Hcount. f_equal. apply slot_count_ext; [now rewrite Hn|].
    intros i _. now apply slots_in_inserted_old.
  - intros i t s Hlk Hin Hst.
    apply inserted_tick_lookup in Hlk as (t0 & Ht0 & ->).
    unfold placed_tick in Hin. simpl in Hin.
    apply elem_of_app in Hin as [Hin|Hin].
    + eapply Hdiv; eassumption.
    + apply elem_of_replicate in Hin as [-> _]. simpl in Hst. congruence.
  - exists basek. split; [assumption|]. intros i Hi.
    rewrite slots_in_inserted_old by assumption. now apply Hstr.
Qed.

Lemma placed_inserted_new st T base :
  sound st -> 1 <= period T -> 0 <= base < 8 -> n_slots T = 0 ->
  placed (inserted st T base) (length (tasks st))
    (bumped T (Z.of_nat (Z.to_nat (Z.max 1 (8 / period T))))).
Proof.
  intros Hs HP Hbase Hns. unfold placed. rewrite inserted_n_ticks. simpl.
  rewrite Hns, Z2Nat.id by lia.
  repeat split; try lia.
  - unfold slot_count. rewrite inserted_n_ticks.
    rewrite (map_ext_in _ (strides base (period T) 8 (Z.to_nat (Z.max 1 (8 / period T))))).
    + rewrite sum_strides by lia. lia.
    + intros i Hi. apply list_elem_of_In, elem_of_seqZ in Hi.
      apply slots_in_inserted_new; [assumption|lia].
  - intros i t s Hlk Hin Hst.
    apply inserted_tick_lookup in Hlk as (t0 & Ht0 & ->).
    unfold placed_tick in Hin. simpl in Hin.
    apply elem_of_app in Hin as [Hin|Hin].
    + pose proof (sound_refs st Hs _ _ _ Ht0 Hin). lia.
    + apply elem_of_replicate in Hin as [-> _]. reflexivity.
  - exists base. split; [assumption|]. intros i Hi.
    now apply slots_in_inserted_new.
Qed.

Lemma inserted_sound st T base :
  sound st -> is_pow2 (period T) -> Z.max 1 (period T / 8) < 256 ->
  0 <= base < 8 -> n_slots T = 0 ->
  sound (inserted st T base).
Proof.
  intros Hs Hpow Hd Hbase Hns.
  assert (HP : 1 <= period T).
  { destruct Hpow as (e & He & ->). assert (0 < 2 ^ e) by (apply Z.pow_pos_nonneg; lia). lia. }
  constructor.
  - left. reflexivity.
  - rewrite inserted_ticks, length_imap. apply (sound_ticks st Hs).
  - rewrite inserted_max_divider.
    destruct (sound_max_divider st Hs) as (a & Ha & ->).
    destruct (pow2_div8 _ Hpow Hd) as (b & Hb & ->).
    now apply max_pow2.
  - intros i t s Hlk Hin. rewrite inserted_tasks, length_app. simpl.
    apply inserted_tick_lookup in Hlk as (t0 & Ht0 & ->).
    unfold placed_tick in Hin. simpl in Hin.
    apply elem_of_app in Hin as [Hin|Hin].
    + pose proof (sound_refs st Hs _ _ _ Ht0 Hin). lia.
    + apply elem_of_replicate in Hin as [-> _]. simpl. lia.
  - intros k T'. rewrite inserted_tasks. intros Hlk.
    apply lookup_app_Some in Hlk as [Hlk|[Hge Hlk]].
    + assert (Hlt : (k < length (tasks st))%nat) by (eapply lookup_lt_Some; eassumption).
      apply placed_inserted_old.
      * destruct (sound_n_ticks st Hs) as [|(_ & Hnil & _)]; [assumption|].
        rewrite Hnil in Hlt. simpl in Hlt. lia.
      * lia.
      * apply (sound_refs st Hs).
      * now apply (sound_tasks st Hs).
    + apply list_lookup_singleton_Some in Hlk as [Hk <-].
      assert (k = length (tasks st)) as -> by lia.
      now apply placed_inserted_new.
  - intros i t Hlk.
    apply inserted_tick_lookup in Hlk as (t0 & Ht0 & ->).
    unfold tick_charges, placed_tick. simpl.
    rewrite foldl_app, foldl_replicate.
    rewrite (foldl_ext_in _ (fun acc s => add acc (charge st s)) zero (slots t0)).
    + fold (tick_charges st t0). rewrite <- (sound_len st Hs _ _ Ht0).
      generalize (tick_len t0). intros x.
      induction (strides _ _ _ _ _) as [|m IH]; simpl; [reflexivity|].
      rewrite IH, charge_inserted_new. reflexivity.
    + intros x s Hin. f_equal. apply charge_inserted_old.
      apply (sound_refs st Hs _ _ _ Ht0 Hin).
Qed.

(** ** The invariant holds in every run *)

Lemma sound_ext st st' :
  n_ticks st' = n_ticks st -> ticks st' = ticks st -> tasks st' = tasks st ->
  max_divider st' = max_divider st -> sound st -> sound st'.
Proof.
  destruct st, st'. simpl. intros -> -> -> -> [H1 H2 H3 H4 H5 H6].
  constructor; assumption.
Qed.

Lemma ticks_fresh :
  ticks (init_schedule globals) = replicate (Z.to_nat MAX_TICKS) empty_tick.
Proof. reflexivity. Qed.

Lemma sound_fresh : sound (init_schedule globals).
Proof.
  constructor.
  - right. auto.
  - reflexivity.
  - exists 0. split; [lia|reflexivity].
  - intros i t s Hlk Hin. rewrite ticks_fresh in Hlk.
    apply lookup_replicate in Hlk as [-> _]. inversion Hin.
  - intros k T Hlk. discriminate.
  - intros i t Hlk. rewrite ticks_fresh in Hlk.
    apply lookup_replicate in Hlk as [-> _]. reflexivity.
Qed.

Lemma sound_max_divider_bounds st : sound st -> 1 <= max_divider st <= 128.
Proof.
  intros Hs. destruct (sound_max_divider st Hs) as (e & He & ->).
  assert (2 ^ 0 <= 2 ^ e) by (apply Z.pow_le_mono_r; lia).
  assert (2 ^ e <= 2 ^ 7) by (apply Z.pow_le_mono_r; lia).
  change (2 ^ 0) with 1 in *. change (2 ^ 7) with 128 in *. lia.
Qed.

Lemma sound_shape st :
  sound st ->
  n_ticks st = 8 \/
  (n_ticks st = 0 /\ ticks st = replicate (Z.to_nat MAX_TICKS) empty_tick).
Proof. intros Hs. destruct (sound_n_ticks st Hs) as [|(? & _ & ?)]; auto. Qed.

Lemma schedule_entry_sound st nm P l st' :
  sound st -> 0 <= P < UINT_MOD ->
  schedule_entry st nm P l = Done st' -> sound st'.
Proof.
  intros Hs HP. unfold schedule_entry.
  destruct (Z.eqb_spec (Z.land P (wrap (P - 1))) 0) as [Hland|]; simpl; [|discriminate].
  destruct (geb l (unsigned_to_float P)); [discriminate|].
  intros Hadd. pose proof (sound_max_divider_bounds st Hs).
  apply add_task_done in Hadd as [[_ ->]|(_ & _ & nm' & auc & base & HP1 & Hd & Hb & ->)];
    [| | apply sound_shape; assumption | lia | lia].
  - revert Hs. apply sound_ext; reflexivity.
  - apply inserted_sound; try assumption; try reflexivity.
    simpl. apply period_check_pow2; [lia|assumption].
Qed.

Lemma reachable_sound st : reachable st -> sound st.
Proof.
  induction 1 as [|st o _ IH|st nm P l st' _ IH HP Hentry].
  - apply sound_fresh.
  - revert IH. apply sound_ext; destruct o; reflexivity.
  - eapply schedule_entry_sound; eassumption.
Qed.

(** C3: in every schedule the tool can build, each task [T] of the table
    has exactly [max (1, n_ticks / T.period)] slots ([slot_count], and the
    field [n_slots] agrees), all of them with the divider
    [max (1, T.period / n_ticks)], in the ticks [base], [base + T.period],
    ... taken modulo [n_ticks]; and the recorded length of every tick is
    what its slots add up to, [T.len / divider] each, in slot order. *)
Theorem every_task_evenly_placed st k T :
  reachable st -> tasks st !! k = Some T ->
  let n := n_ticks st in
  let count := Z.max 1 (n / period T) in
  let d := Z.max 1 (period T / n) in
  Z.of_nat (slot_count st k) = count /\
  n_slots T = count /\
  (forall i t s, ticks st !! i = Some t -> s ∈ slots t -> slot_task s = k ->
                 divider s = d) /\
  (exists base, 0 <= base < n /\
     forall i, 0 <= i < n ->
       slots_in st k i = strides base (period T) n (Z.to_nat count) i) /\
  (forall i t, ticks st !! i = Some t -> tick_len t = tick_charges st t).
Proof.
  intros Hr Hlk. pose proof (reachable_sound st Hr) as Hs.
  destruct (sound_tasks st Hs k T Hlk) as (_ & Hns & Hcount & Hdiv & Hbase).
  repeat split; try assumption. apply (sound_len st Hs).
Qed.

(** ** The emitted handlers *)

Lemma emit_handlers_done st hs :
  emit_handlers st = Done hs ->
  length hs = Z.to_nat (n_ticks st) /\
  forall i, 0 <= i < n_ticks st ->
    exists h, hs !! Z.to_nat i = Some h /\ emit_handler st i = Done h.
Proof.
  unfold emit_handlers. intros H.
  assert (HI : length hs = Z.to_nat (n_ticks st) /\
               forall i, (i < Z.to_nat (n_ticks st))%nat ->
                 exists h, hs !! i = Some h /\ emit_handler st (Z.of_nat i) = Done h).
  { revert H.
    apply (for_loop_inv
             (fun j (acc : list (list item)) =>
                length acc = j /\
                forall i, (i < j)%nat ->
                  exists h, acc !! i = Some h /\ emit_handler st (Z.of_nat i) = Done h)).
    - split; [reflexivity|]. intros i Hi. lia.
    - intros j acc acc' Hj [Hlen Hacc] Hb.
      apply bind_done in Hb as (h & Hh & Hb). injection Hb as <-.
      split; [rewrite length_app; simpl; lia|].
      intros i Hi. destruct (decide (i = j)) as [->|Hne].
      + exists h. split; [|exact Hh].
        rewrite lookup_app_r by lia. now rewrite Hlen, Nat.sub_diag.
      + destruct (Hacc i) as (h' & Hlk & Hh'); [lia|].
        exists h'. split; [|assumption]. rewrite lookup_app_l by lia. assumption. }
  destruct HI as [Hlen Hall]. split; [assumption|].
  intros i Hi. destruct (Hall (Z.to_nat i)) as (h & Hlk & Hh); [lia|].
  rewrite Z2Nat.id in Hh by lia. eauto.
Qed.

Lemma times_run_notin h l : h ∉ l -> times_run h l = O.
Proof.
  unfold times_run. induction l as [|x l IH]; intros Hh; [reflexivity|].
  apply not_elem_of_cons in Hh as [Hx Hl].
  rewrite filter_cons_False by congruence. now apply IH.
Qed.

Lemma times_run_once h l : NoDup l -> h ∈ l -> times_run h l = 1%nat.
Proof.
  unfold times_run. induction 1 as [|x l Hx Hnd IH]; intros Hh; [inversion Hh|].
  destruct (decide (x = h)) as [->|Hne].
  - rewrite filter_cons_True by reflexivity. simpl. f_equal.
    now apply times_run_notin.
  - rewrite filter_cons_False by assumption. apply IH.
    apply elem_of_cons in Hh as [|]; [congruence|assumption].
Qed.

Lemma rotation_inj n fp j j' :
  0 <= j < n -> 0 <= j' < n ->
  (fp + j) mod n = (fp + j') mod n -> j = j'.
Proof.
  intros Hj Hj' Heq.
  assert (Hd : (n | (fp + j) - (fp + j'))).
  { apply Z.mod_divide; [lia|]. rewrite Zminus_mod, Heq, Z.sub_diag. apply Z.mod_0_l. lia. }
  destruct Hd as [q Hq]. assert (q = 0) by nia. lia.
Qed.

Lemma rotation_once n fp h :
  0 <= h < n ->
  times_run h (map (fun j => (fp + j) mod n) (seqZ 0 n)) = 1%nat.
Proof.
  intros Hh. change (@map Z Z) with (@fmap list _ Z Z).
  apply times_run_once.
  - apply NoDup_fmap_2_strong; [|apply NoDup_seqZ].
    intros j j' Hj Hj'. apply elem_of_seqZ in Hj, Hj'. apply rotation_inj; lia.
  - apply list_elem_of_fmap. exists ((h - fp) mod n). split.
    + rewrite Zplus_mod_idemp_r. replace (fp + (h - fp)) with h by lia.
      symmetry. apply Z.mod_small. assumption.
    + apply elem_of_seqZ. pose proof (Z.mod_pos_bound (h - fp) n). lia.
Qed.

(** ** The emitter always writes its handlers *)

Lemma for_loop_total {A : Type} (I : A -> Prop) (body : Z -> A -> outcome A) i n s :
  I s ->
  (forall j s, (j < n)%nat -> I s ->
     exists s', body (i + Z.of_nat j) s = Done s' /\ I s') ->
  exists r, for_loop body i n s = Done r.
Proof.
  revert i s. induction n as [|n IH]; intros i s Hs Hbody; simpl; [eauto|].
  destruct (Hbody O s) as (s' & Hs' & HI); [lia|assumption|].
  rewrite Z.add_0_r in Hs'. rewrite Hs'. simpl.
  apply IH; [assumption|]. intros j s1 Hj Hs1.
  destruct (Hbody (S j) s1) as (s2 & Hs2 & HI2); [lia|assumption|].
  exists s2. split; [|assumption]. rewrite <- Hs2. f_equal. lia.
Qed.

Lemma bind_Done_l {A B} (a : A) (k : A -> outcome B) : Done a ≫= k = k a.
Proof. reflexivity. Qed.

Lemma divider_values_total md fuel dv :
  0 < dv -> md < dv * 2 ^ Z.of_nat fuel -> md < 2 ^ 31 ->
  exists l, divider_values (S fuel) dv md = Done l.
Proof.
  revert dv. induction fuel as [|fuel IH]; intros dv Hdv Hmd H31.
  - simpl in *. destruct (Z.leb_spec dv md); [lia|eauto].
  - cbn [divider_values]. destruct (Z.leb_spec dv md) as [Hle|]; [|eauto].
    assert (Hw : wrap (dv * 2) = dv * 2).
    { apply wrap_small. unfold UINT_MOD. change (2 ^ 32) with (2 * 2 ^ 31). lia. }
    rewrite Hw. destruct (IH (dv * 2)) as (l & Hl); [lia| |assumption|].
    + rewrite Nat2Z.inj_succ, Z.pow_succ_r in Hmd by lia. lia.
    + cbn [divider_values] in Hl. rewrite Hl. simpl. eauto.
Qed.

(** ** The search for the best tick *)

Ltac order_cases :=
  repeat match goal with
    | |- context [Z.compare ?a ?b] => destruct (Z.compare_spec a b)
    | H : context [Z.compare ?a ?b] |- _ => destruct (Z.compare_spec a b)
    | |- context [Pos.compare_cont Eq ?a ?b] =>
        change (Pos.compare_cont Eq a b) with (Pos.compare a b);
        destruct (Pos.compare_spec a b)
    | H : context [Pos.compare_cont Eq ?a ?b] |- _ =>
        change (Pos.compare_cont Eq a b) with (Pos.compare a b) in H;
        destruct (Pos.compare_spec a b)
    end; simpl in *; try discriminate; try reflexivity; try lia.

Lemma ltb_irrefl x : ltb x x = false.
Proof.
  unfold ltb, SFltb. destruct x as [s|s| |s m e]; simpl; try reflexivity.
  - destruct s; reflexivity.
  - destruct s; rewrite Z.compare_refl, Pos.compare_cont_refl; reflexivity.
Qed.

Lemma ltb_trans x y z : ltb x y = true -> ltb y z = true -> ltb x z = true.
Proof.
  unfold ltb, SFltb.
  destruct x as [sx|sx| |sx mx ex], y as [sy|sy| |sy my ey], z as [sz|sz| |sz mz ez];
    simpl; try discriminate; try reflexivity;
    repeat match goal with s : bool |- _ => destruct s end;
    simpl; try discriminate; try reflexivity; intros H1 H2; order_cases.
Qed.

Lemma leb_ltb_trans x y z : leb x y = true -> ltb y z = true -> ltb x z = true.
Proof.
  unfold ltb, leb, SFltb, SFleb.
  destruct x as [sx|sx| |sx mx ex], y as [sy|sy| |sy my ey], z as [sz|sz| |sz mz ez];
    simpl; try discriminate; try reflexivity;
    repeat match goal with s : bool |- _ => destruct s end;
    simpl; try discriminate; try reflexivity; intros H1 H2; order_cases.
Qed.

Lemma best_so_far_step cost j best bl tot :
  0 <= j -> cost j = Done tot -> best_so_far cost j best bl ->
  let r := if ltb tot bl then (j, tot) else (best, bl) in
  best_so_far cost (j + 1) r.1 r.2.
Proof.
  intros Hj Hcost Hinv. destruct (ltb tot bl) eqn:Hlt; simpl.
  - right. split; [lia|]. split; [assumption|].
    assert (Hhuge : ltb tot huge = true).
    { destruct Hinv as [(_ & -> & _)|(_ & _ & Hbl & _)]; [assumption|].
      eapply ltb_trans; eassumption. }
    assert (Hprev : forall i, 0 <= i < j ->
              exists ci, cost i = Done ci /\ ltb ci bl = false).
    { destruct Hinv as [(_ & -> & H)|(_ & _ & _ & H & _)]; assumption. }
    split; [assumption|]. split.
    + intros i Hi. destruct (Z.eq_dec i j) as [->|Hne].
      * exists tot. split; [assumption|apply ltb_irrefl].
      * destruct (Hprev i) as (ci & Hci & Hnlt); [lia|]. exists ci. split; [assumption|].
        destruct (ltb ci tot) eqn:Hc; [|reflexivity].
        rewrite (ltb_trans ci tot bl Hc Hlt) in Hnlt. discriminate.
    + intros i Hi. destruct (Hprev i Hi) as (ci & Hci & Hnlt).
      exists ci. split; [assumption|].
      destruct (leb ci tot) eqn:Hc; [|reflexivity].
      rewrite (leb_ltb_trans ci tot bl Hc Hlt) in Hnlt. discriminate.
  - destruct Hinv as [(-> & -> & H)|(Hb & Hcb & Hbl & Hall & Hbefore)].
    + left. repeat split. intros i Hi. destruct (Z.eq_dec i j) as [->|Hne].
      * eauto.
      * apply H. lia.
    + right. split; [lia|]. repeat split; try assumption.
      intros i Hi. destruct (Z.eq_dec i j) as [->|Hne].
      * eauto.
      * apply Hall. lia.
Qed.

(** [find_best_tick] returns the first candidate of least total cost among
    those whose total is below the sentinel [99999.0], and 0 when no
    candidate is below it. *)
Lemma find_best_tick_least st P c L b :
  find_best_tick st P c L = Done b ->
  exists best_len,
    best_so_far (total_len st P c L) (Z.max 0 (n_ticks st / c)) b best_len.
Proof.
  unfold find_best_tick. intros H.
  apply bind_done in H as (m & Hm & H). apply udiv_done in Hm as [Hc ->].
  apply bind_done in H as ([best bl] & Hloop & H). injection H as ->.
  exists bl.
  replace (Z.max 0 (n_ticks st / c)) with (Z.of_nat (Z.to_nat (n_ticks st / c))) by lia.
  revert Hloop.
  apply (for_loop_inv
           (fun j (s : Z * double) =>
              best_so_far (total_len st P c L) (Z.of_nat j) s.1 s.2)
           _ 0 _ (0, huge) (b, bl)).
  - left. repeat split. intros i Hi. simpl in Hi. lia.
  - intros j [b0 bl0] s' Hj Hinv Hstep. rewrite Z.add_0_l in Hstep.
    apply bind_done in Hstep as (tot & Htot & Hstep). injection Hstep as <-.
    rewrite Nat2Z.inj_succ, <- Z.add_1_r.
    apply (best_so_far_step _ _ b0 bl0 tot); [lia|assumption|assumption].
Qed.

(** ** The parser *)

Lemma parse_time_done strtod tok :
  tok <> "" ->
  parse_time strtod (Some tok)
  = Done (if in_cycles tok then div (strtod tok) (of_Z CYCLES_PER_TICK)
          else strtod tok).
Proof.
  intros Hne. unfold parse_time, in_cycles, last_char.
  destruct (String.get (String.length tok - 1) tok) as [c|] eqn:Hget.
  - destruct (Ascii.eqb c "c" || Ascii.eqb c "C"); reflexivity.
  - exfalso. destruct tok as [|a tok]; [congruence|].
    assert (Hlt : (String.length (String a tok) - 1 < String.length (String a tok))%nat)
      by (simpl; lia).
    revert Hget Hlt. generalize (String.length (String a tok) - 1)%nat.
    generalize (String a tok). clear. intros s. induction s as [|b s IH]; intros n; simpl.
    + lia.
    + destruct n; [discriminate|]. intros H Hlt. apply (IH n); [assumption|lia].
Qed.

Lemma parse_line_missing_period strtod st line nm :
  tokens line = [nm] -> String.prefix "#" nm = false ->
  parse_line strtod st line = Undefined NullPointer.
Proof. intros Ht Hc. unfold parse_line. rewrite Ht, Hc. reflexivity. Qed.

(** Every state [parse_line] leaves is a state of a run. *)
Lemma parse_line_reachable strtod st line st' :
  reachable st -> parse_line strtod st line = Done st' -> reachable st'.
Proof.
  intros Hr. unfold parse_line.
  destruct (tokens line) as [|nm rest]; [intros [= <-]; assumption|].
  destruct (String.prefix "#" nm); [intros [= <-]; assumption|].
  intros H. apply bind_done in H as (p & _ & H).
  apply bind_done in H as (P & HP & H).
  destruct (negb (Z.land P (wrap (P - 1)) =? 0)) eqn:Hland; [discriminate|].
  apply bind_done in H as (l & _ & H).
  destruct (geb (to_float l) (unsigned_to_float P)) eqn:Hlen; [discriminate|].
  apply (reach_entry st nm P (to_float l)); [assumption| |].
  - unfold to_unsigned in HP. destruct (trunc p) as [z|]; [|discriminate].
    destruct ((0 <=? z) && (z <? UINT_MOD)) eqn:Hz; [|discriminate].
    injection HP as <-. lia.
  - unfold schedule_entry. rewrite Hland, Hlen. assumption.
Qed.

Lemma parse_schedule_reachable strtod st file st' :
  reachable st -> parse_schedule strtod st file = Done st' -> reachable st'.
Proof.
  unfold parse_schedule. generalize (fgets_lines (list_ascii_of_string file) []).
  intros lines. revert st. induction lines as [|line lines IH]; intros st Hr; simpl.
  - intros [= <-]. assumption.
  - intros H. apply bind_done in H as (st1 & Hline & H).
    apply (IH st1); [|assumption]. eapply parse_line_reachable; eassumption.
Qed.

(** ** The first task of a run *)

(** Once a task is in the table the tick table is eight ticks wide,
    whatever [max_ticks] is. *)
Lemma n_ticks_is_8 st : reachable st -> tasks st <> [] -> n_ticks st = 8.
Proof.
  intros Hr Hne. destruct (sound_n_ticks st (reachable_sound st Hr)) as [|(_ & Hnil & _)];
    [assumption|contradiction].
Qed.

(** X23: a first task whose period exceeds [max_ticks] divides by the
    zero width of the table. *)
Lemma first_task_above_max_ticks st nm P l :
  n_ticks st = 0 -> 0 < P -> max_ticks st < P ->
  skipped st nm = false -> n_tasks st < MAX_TASKS ->
  add_task st nm P l = Undefined DivisionByZero.
Proof.
  intros Hn HP Hmt Hskip Hroom. unfold add_task. unfold skipped in Hskip.
  assert (Hplan : forall T, plan_slots (with_tasks st (tasks st ++ [T])) P
                            = Undefined DivisionByZero).
  { intros T. unfold plan_slots. simpl. rewrite Hn.
    destruct (Z.gtb_spec P 0); [|lia].
    destruct (Z.leb_spec P (max_ticks st)); [lia|]. reflexivity. }
  destruct (split_conditional nm) as [[before cond]|].
  - destruct (conditional_defined st cond); [|discriminate]. simpl.
    destruct (split_unrolled before). destruct (Z.leb_spec MAX_TASKS (n_tasks st)); [lia|].
    now rewrite Hplan.
  - destruct (split_unrolled nm). destruct (Z.leb_spec MAX_TASKS (n_tasks st)); [lia|].
    now rewrite Hplan.
Qed.

(** ** The capacity checks *)

Lemma alloc_slot_full st tickno t s :
  get_tick st tickno = Done t -> tick_n_slots t = 31 ->
  alloc_slot st tickno s = Exit TooManySlots.
Proof. intros Ht Hn. unfold alloc_slot. rewrite Ht, bind_Done_l, Hn. reflexivity. Qed.

Lemma alloc_slot_room st tickno t s :
  get_tick st tickno = Done t -> tick_n_slots t < 31 ->
  exists st', alloc_slot st tickno s = Done st'.
Proof.
  intros Ht Hn. unfold alloc_slot. rewrite Ht, bind_Done_l.
  assert (0 <= tick_n_slots t) by (unfold tick_n_slots; lia).
  rewrite wrap_small by (unfold UINT_MOD; lia).
  destruct (Z.eqb_spec (tick_n_slots t + 1) MAX_SLOTS_PER_TICK) as [H31|_];
    [unfold MAX_SLOTS_PER_TICK in H31; lia|].
  destruct (Z.leb_spec MAX_SLOTS_PER_TICK (tick_n_slots t)) as [H32|_];
    [unfold MAX_SLOTS_PER_TICK in H32; lia|]. eauto.
Qed.

Lemma add_task_table_full st nm P l :
  skipped st nm = false -> MAX_TASKS <= n_tasks st ->
  add_task st nm P l = Undefined OutOfBounds.
Proof.
  unfold add_task, skipped. intros Hskip Hfull.
  destruct (split_conditional nm) as [[before cond]|].
  - destruct (conditional_defined st cond); [|discriminate]. simpl.
    destruct (split_unrolled before). destruct (Z.leb_spec MAX_TASKS (n_tasks st)); [reflexivity|lia].
  - destruct (split_unrolled nm). destruct (Z.leb_spec MAX_TASKS (n_tasks st)); [reflexivity|lia].
Qed.

(** ** Worked inputs *)

(** Conjunctions of closed facts, each settled by evaluation. *)
Ltac by_evaluation :=
  lazymatch goal with
  | |- _ /\ _ => split; [by_evaluation | by_evaluation]
  | |- _ => vm_compute; reflexivity
  end.

Lemma reachable_scanned : reachable scanned.
Proof.
  apply (reach_entry fresh "scan" 1 (dec 1 1));
    [apply reach_init | unfold UINT_MOD; lia | vm_compute; reflexivity].
Qed.

(** C1: [expand_ticks] sets [n_ticks] to 8 whatever period asks for the
    expansion and whatever [max_ticks] is: with [max_ticks = 4] the single
    task [scan 1 0.1] leaves [n_ticks = 8], neither 1 nor at most
    [max_ticks]. *)
Theorem expand_ticks_ignores_request :
  (forall st p, n_ticks (expand_ticks st p) = 8) /\
  exists st',
    add_task (apply_option fresh (OptMaxTicks 4)) "scan" 1 (dec 1 1) = Done st' /\
    max_ticks st' = 4 /\ n_ticks st' = 8.
Proof.
  split; [reflexivity|]. eexists. by_evaluation.
Qed.

(** C2: on a fresh schedule with [max_ticks = 8] the single entry
    [rare 16 0.2] takes the divider branch while [n_ticks] is still 0, and
    the division [period / n_ticks] is undefined: nothing is scheduled. *)
Theorem rare_task_first_divides_by_zero :
  max_ticks fresh = 8 /\ n_ticks fresh = 0 /\
  add_task fresh "rare" 16 (dec 2 1) = Undefined DivisionByZero /\
  parse_line strtod_decimal fresh ("rare 16 0.2" +:+ lf) = Undefined DivisionByZero.
Proof. by_evaluation. Qed.

(** Once a task has expanded the table, the same entry is scheduled as the
    scenario describes: one slot with divider 2 in tick 7, called under the
    guard [if (!(tick_divider & 1))]. *)
Lemma rare_task_after_scan :
  exists st t h,
    add_task scanned "rare" 16 (dec 2 1) = Done st /\
    n_ticks st = 8 /\ max_divider st = 2 /\ slot_count st 1 = 1%nat /\
    ticks st !! 7%nat = Some t /\ slots t = [mk_slot 1 0; mk_slot 2 1] /\
    emit_handler st 7 = Done h /\
    take 9 h = [HandlerHead 7; BlockBegin; Extern "scan"; Call "scan" (dec 1 1);
                Newline; IfDivider 1; BlockBegin;
                Extern "rare"; Call "rare" (dec 2 1)] /\
    render (fun _ => "") "tick" (IfDivider 1) = "if (!(tick_divider & 1))" +:+ lf.
Proof. do 3 eexists. by_evaluation. Qed.

(** C4: five tasks of period 8 and length 0.2 fill ticks 0 to 4; for a task
    of period 4 and length 0.9 every candidate then overflows somewhere.
    Candidate 1 costs 99999.0 (tick 1 overflows, tick 5 is empty),
    candidate 0 costs 199998.0, and [find_best_tick] returns 0, which is
    not the candidate of least total cost. *)
Theorem find_best_tick_keeps_tick_0 :
  exists st c0 c1,
    add_tasks 5 "tk" 8 (dec 2 1) fresh = Done st /\
    find_best_tick st 4 2 (dec 9 1) = Done 0 /\
    total_len st 4 2 (dec 9 1) 0 = Done c0 /\
    total_len st 4 2 (dec 9 1) 1 = Done c1 /\
    c1 = huge /\ ltb c1 c0 = true.
Proof. do 3 eexists. by_evaluation. Qed.

(** C6: a line with the name alone, or with a name and a period, makes
    [parse_time] take the length of a null pointer; no diagnostic is
    printed. *)
Theorem missing_token_is_a_null_pointer :
  forall strtod st,
    parse_line strtod st ("foo" +:+ lf) = Undefined NullPointer /\
    parse_line strtod_decimal st ("foo 4" +:+ lf) = Undefined NullPointer.
Proof. intros strtod st. split; vm_compute; reflexivity. Qed.

(** C7, as the code has it: [parse_time] never reports an error.  It
    returns what [strtod] makes of the token, divided by
    [cycles_per_interrupt = 1952] when the token ends in [c] or [C]. *)
Theorem parse_time_never_fails strtod tok :
  tok <> "" ->
  CYCLES_PER_TICK = 1952 /\
  parse_time strtod (Some tok)
  = Done (if in_cycles tok then div (strtod tok) (of_Z CYCLES_PER_TICK)
          else strtod tok).
Proof. intros Hne. split; [reflexivity|]. now apply parse_time_done. Qed.

Lemma parse_time_never_fails_witness :
  "780c" <> "" /\
  (CYCLES_PER_TICK = 1952 /\
   parse_time strtod_decimal (Some "780c")
   = Done (if in_cycles "780c"
           then div (strtod_decimal "780c") (of_Z CYCLES_PER_TICK)
           else strtod_decimal "780c")).
Proof.
  split; [discriminate|].
  apply (parse_time_never_fails strtod_decimal "780c"). discriminate.
Defined.

(** C7, as stated, fails: the token [fast] has no numeric prefix, and
    [parse_time] returns [strtod]'s 0.0 for it instead of an error. *)
Lemma parse_time_accepts_malformed_token :
  (forall strtod, parse_time strtod (Some "fast") = Done (strtod "fast")) /\
  strtod_decimal "fast" = zero /\
  ~ (exists d, parse_time strtod_decimal (Some "fast") = Exit d).
Proof.
  split; [reflexivity|]. split; [vm_compute; reflexivity|]. intros [d Hd]. discriminate Hd.
Qed.

(** C8: the caps are not enforced where the claim puts them.  With 31
    slots in each tick, one short of the 32 the array holds, the next
    placement is already fatal; and with 64 tasks in the table the next
    insertion writes past the table instead of stopping the tool. *)
Theorem caps_are_off :
  (exists st,
     add_tasks 31 "tk" 1 zero fresh = Done st /\
     Forall (fun t => tick_n_slots t = 31) (take 8 (ticks st)) /\
     add_task st "tk" 1 zero = Exit TooManySlots) /\
  (exists st,
     add_tasks 64 "tk" 8 (dec 1 2) fresh = Done st /\
     n_tasks st = MAX_TASKS /\
     add_task st "tk" 8 (dec 1 2) = Undefined OutOfBounds).
Proof.
  split; eexists; (split; [vm_compute; reflexivity|]); split; try (vm_compute; reflexivity).
  vm_compute. repeat constructor.
Qed.

(** C3 on the schedule of the single entry [scan 1 0.1]. *)
Lemma every_task_evenly_placed_witness :
  reachable scanned /\ tasks scanned !! 0%nat = Some scan_task /\
  (let n := n_ticks scanned in
   let count := Z.max 1 (n / period scan_task) in
   let d := Z.max 1 (period scan_task / n) in
   Z.of_nat (slot_count scanned 0) = count /\
   n_slots scan_task = count /\
   (forall i t s, ticks scanned !! i = Some t -> s ∈ slots t -> slot_task s = 0%nat ->
                  divider s = d) /\
   (exists base, 0 <= base < n /\
      forall i, 0 <= i < n ->
        slots_in scanned 0 i = strides base (period scan_task) n (Z.to_nat count) i) /\
   (forall i t, ticks scanned !! i = Some t -> tick_len t = tick_charges scanned t)).
Proof.
  split; [exact reachable_scanned|]. split; [vm_compute; reflexivity|].
  apply (every_task_evenly_placed scanned 0 scan_task);
    [exact reachable_scanned | vm_compute; reflexivity].
Defined.

(** C10: a line whose period parses to 0 passes the power-of-two test
    ([0 & (0 - 1)] is 0); when its length is below 0 it passes the length
    test as well and reaches [add_task], where [n_ticks / period] divides
    by zero. *)
Theorem zero_period_divides_by_zero strtod st line nm ptok ltok rest p l :
  tokens line = nm :: ptok :: ltok :: rest ->
  String.prefix "#" nm = false ->
  parse_time strtod (Some ptok) = Done p -> to_unsigned p = Done 0 ->
  parse_time strtod (Some ltok) = Done l ->
  geb (to_float l) (unsigned_to_float 0) = false ->
  0 <= n_ticks st ->
  Z.land 0 (wrap (0 - 1)) = 0 /\
  parse_line strtod st line = add_task st nm 0 (to_float l) /\
  (skipped st nm = false -> n_tasks st < MAX_TASKS ->
   add_task st nm 0 (to_float l) = Undefined DivisionByZero).
Proof.
  intros Htok Hc Hp Hu Hl Hlen Hn. split; [reflexivity|]. split.
  - unfold parse_line. rewrite Htok, Hc. cbn [head tail].
    rewrite Hp, bind_Done_l, Hu, bind_Done_l.
    change (negb (Z.land 0 (wrap (0 - 1)) =? 0)) with false. cbv iota.
    rewrite Hl, bind_Done_l. cbv zeta. rewrite Hlen. reflexivity.
  - intros Hskip Hroom. unfold add_task. unfold skipped in Hskip.
    assert (Hplan : forall T, plan_slots (with_tasks st (tasks st ++ [T])) 0
                              = Undefined DivisionByZero).
    { intros T. unfold plan_slots. simpl.
      destruct (Z.gtb_spec 0 (n_ticks st)); [lia|]. reflexivity. }
    destruct (split_conditional nm) as [[before cond]|].
    + destruct (conditional_defined st cond); [|discriminate]. simpl.
      destruct (split_unrolled before). destruct (Z.leb_spec MAX_TASKS (n_tasks st)); [lia|].
      now rewrite Hplan.
    + destruct (split_unrolled nm). destruct (Z.leb_spec MAX_TASKS (n_tasks st)); [lia|].
      now rewrite Hplan.
Qed.

Lemma zero_period_divides_by_zero_witness :
  parse_line strtod_decimal fresh ("foo 0 -1" +:+ lf)
  = add_task fresh "foo" 0 (to_float (strtod_decimal "-1")) /\
  add_task fresh "foo" 0 (to_float (strtod_decimal "-1")) = Undefined DivisionByZero.
Proof.
  destruct (zero_period_divides_by_zero strtod_decimal fresh ("foo 0 -1" +:+ lf)
              "foo" "0" "-1" [] (strtod_decimal "0") (strtod_decimal "-1"))
    as (_ & Hline & Hadd); try (vm_compute; reflexivity).
  - vm_compute. discriminate.
  - split; [exact Hline|]. apply Hadd; vm_compute; reflexivity.
Defined.

(** ** Further properties of the scheduler *)

Lemma append_empty_r (s : string) : s +:+ "" = s.
Proof. induction s as [|c s IH]; simpl; [reflexivity|]. now rewrite IH. Qed.

Lemma append_not_empty (s : string) (c : ascii) : String.eqb (s +:+ String c "") "" = false.
Proof. destruct s; reflexivity. Qed.

Lemma tokens_from_nonempty line cur tok :
  tok ∈ tokens_from line cur -> tok <> "".
Proof.
  revert cur. induction line as [|c line IH]; intros cur; simpl.
  - destruct (String.eqb_spec cur ""); [intros H; inversion H|].
    intros H. apply list_elem_of_singleton in H. congruence.
  - destruct (is_delim c).
    + destruct (String.eqb_spec cur "").
      * apply IH.
      * intros H. apply elem_of_cons in H as [->|H]; [assumption|]. now apply IH in H.
    + apply IH.
Qed.

Lemma tokens_from_nil line cur :
  tokens_from line cur = [] <-> cur = "" /\ blank line = true.
Proof.
  revert cur. induction line as [|c line IH]; intros cur; simpl.
  - destruct (String.eqb_spec cur ""); split; intros H; try tauto; try discriminate.
  - destruct (is_delim c); simpl.
    + destruct (String.eqb_spec cur "") as [->|Hne].
      * rewrite IH. tauto.
      * split; [discriminate|]. intros [? _]; contradiction.
    + rewrite IH. split; [|intros [_ H]; discriminate].
      intros [H _]. destruct cur; discriminate.
Qed.

Lemma tokens_from_first line cur nm rest :
  tokens_from line cur = nm :: rest ->
  String.get 0 nm = match cur with
                    | EmptyString => first_visible line
                    | String c _ => Some c
                    end.
Proof.
  revert cur. induction line as [|c line IH]; intros cur; simpl.
  - destruct (String.eqb_spec cur "") as [|Hne]; [discriminate|].
    intros [= <- _]. destruct cur; [contradiction|reflexivity].
  - destruct (is_delim c).
    + destruct (String.eqb_spec cur "") as [->|Hne].
      * apply IH.
      * intros [= <- _]. destruct cur; [contradiction|reflexivity].
    + intros H. apply IH in H. rewrite H. destruct cur; reflexivity.
Qed.

Lemma prefix_hash nm : String.prefix "#" nm = true <-> String.get 0 nm = Some "#"%char.
Proof.
  destruct nm as [|c nm]; [split; discriminate|].
  change (String.prefix "#" (String c nm))
    with (if Ascii.ascii_dec "#" c then String.prefix "" nm else false).
  change (String.get 0 (String c nm)) with (Some c).
  destruct (Ascii.ascii_dec "#" c) as [<-|Hne].
  - split; [reflexivity|]. intros _. now destruct nm.
  - split; [discriminate|]. intros [= ->]. contradiction.
Qed.

(** X1: blank lines and comment lines are ignored. *)
Theorem blank_and_comment_lines_are_ignored strtod st line :
  blank line = true \/ first_visible line = Some "#"%char ->
  parse_line strtod st line = Done st.
Proof.
  intros [Hb|Hc]; unfold parse_line, tokens.
  - assert (Ht : tokens_from line "" = []) by (apply tokens_from_nil; auto).
    now rewrite Ht.
  - destruct (tokens_from line "") as [|nm rest] eqn:Ht; [reflexivity|].
    apply tokens_from_first in Ht. rewrite Hc in Ht.
    apply prefix_hash in Ht. now rewrite Ht.
Qed.

Lemma land_pow2_pred k : 0 <= k -> Z.land (2 ^ k) (2 ^ k - 1) = 0.
Proof.
  intros Hk. replace (2 ^ k - 1) with (Z.ones k) by (rewrite Z.ones_equiv; lia).
  rewrite Z.land_ones by assumption. apply Z.mod_same.
  assert (0 < 2 ^ k) by (apply Z.pow_pos_nonneg; lia). lia.
Qed.

(** X2: the test [period & (period - 1)] lets through 0 and the powers of
    two, and nothing else. *)
Theorem period_test_accepts_zero_and_powers_of_two P :
  0 <= P < UINT_MOD ->
  (Z.land P (wrap (P - 1)) = 0 <-> P = 0 \/ is_pow2 P).
Proof.
  intros HP. split.
  - intros Hland. destruct (Z.eq_dec P 0) as [|Hne]; [left; assumption|right].
    apply period_check_pow2; [lia|assumption].
  - intros [->|(k & Hk & ->)]; [reflexivity|].
    assert (0 < 2 ^ k) by (apply Z.pow_pos_nonneg; lia).
    rewrite wrap_small by lia. now apply land_pow2_pred.
Qed.

Lemma tokens_nonempty line tok : tok ∈ tokens line -> tok <> "".
Proof. apply tokens_from_nonempty. Qed.

(** X3: a line of three or more tokens is scheduled from its first three
    tokens; what follows them is not looked at. *)
Theorem parse_line_uses_three_tokens strtod st line nm ptok ltok rest P :
  tokens line = nm :: ptok :: ltok :: rest ->
  String.prefix "#" nm = false ->
  to_unsigned (time_value strtod ptok) = Done P ->
  parse_line strtod st line
  = schedule_entry st nm P (to_float (time_value strtod ltok)).
Proof.
  intros Htok Hc HP.
  assert (Hp : ptok <> "") by (apply (tokens_nonempty line); rewrite Htok, !elem_of_cons; auto).
  assert (Hl : ltok <> "") by (apply (tokens_nonempty line); rewrite Htok, !elem_of_cons; auto).
  unfold parse_line, schedule_entry. rewrite Htok, Hc. cbn [head tail].
  rewrite (parse_time_done strtod ptok Hp), bind_Done_l.
  fold (time_value strtod ptok). rewrite HP, bind_Done_l.
  destruct (negb (Z.land P (wrap (P - 1)) =? 0)); [reflexivity|].
  rewrite (parse_time_done strtod ltok Hl), bind_Done_l. reflexivity.
Qed.

(** X4: a period that is neither 0 nor a power of two stops the tool with
    the invalid-period diagnostic, before the length token is looked for. *)
Theorem parse_line_rejects_other_periods strtod st line nm ptok rest P :
  tokens line = nm :: ptok :: rest ->
  String.prefix "#" nm = false ->
  to_unsigned (time_value strtod ptok) = Done P ->
  P <> 0 -> ~ is_pow2 P ->
  parse_line strtod st line = Exit (InvalidPeriod P nm).
Proof.
  intros Htok Hc HP H0 Hpow.
  assert (Hp : ptok <> "") by (apply (tokens_nonempty line); rewrite Htok, !elem_of_cons; auto).
  assert (Hr : 0 <= P < UINT_MOD).
  { unfold to_unsigned in HP. destruct (trunc _) as [z|]; [|discriminate].
    destruct ((0 <=? z) && (z <? UINT_MOD)) eqn:Hz; [|discriminate].
    injection HP as <-. lia. }
  unfold parse_line. rewrite Htok, Hc. cbn [head].
  rewrite (parse_time_done strtod ptok Hp), bind_Done_l.
  fold (time_value strtod ptok). rewrite HP, bind_Done_l.
  destruct (Z.eqb_spec (Z.land P (wrap (P - 1))) 0) as [Hland|]; [|reflexivity].
  exfalso. apply Hpow. apply period_check_pow2; [lia|assumption].
Qed.

Lemma fgets_lines_tail tail cur :
  no_newline tail -> (length cur + length tail < 510)%nat ->
  fgets_lines tail cur = [].
Proof.
  revert cur. induction tail as [|c tail IH]; intros cur Hnl Hlen; [reflexivity|].
  apply Forall_cons in Hnl as [Hc Hnl]. cbn [fgets_lines]. rewrite Hc.
  simpl in Hlen.
  destruct (Nat.eqb_spec (length (cur ++ [c])) 510) as [Heq|_].
  - rewrite length_app in Heq. simpl in Heq. lia.
  - simpl. apply IH; [assumption|]. rewrite length_app. simpl. lia.
Qed.

Lemma fgets_lines_unterminated file tail cur :
  no_newline tail -> (length tail < 510)%nat ->
  fgets_lines (file ++ "010"%char :: tail) cur
  = fgets_lines (file ++ ["010"%char]) cur.
Proof.
  intros Hnl Hlen. revert cur. induction file as [|c file IH]; intros cur.
  - cbn [app fgets_lines]. change (Ascii.eqb "010" "010") with true. cbn [orb].
    f_equal. now apply fgets_lines_tail.
  - cbn [app fgets_lines].
    destruct (Ascii.eqb c "010" || (length (cur ++ [c]) =? 510)%nat); [f_equal|]; apply IH.
Qed.

(** X5: a last line that is not closed by a newline is never parsed: the
    file is read as if it ended after its last newline. *)
Theorem unterminated_last_line_is_dropped strtod st file tail :
  no_newline (list_ascii_of_string tail) -> (String.length tail < 510)%nat ->
  parse_schedule strtod st (file +:+ String "010" tail)
  = parse_schedule strtod st (file +:+ String "010" "").
Proof.
  intros Hnl Hlen. unfold parse_schedule. f_equal.
  assert (Happ : forall a b, list_ascii_of_string (a +:+ b)
                             = list_ascii_of_string a ++ list_ascii_of_string b).
  { intros a b. induction a as [|c a IH]; simpl; [reflexivity|]. now rewrite IH. }
  rewrite !Happ. cbn [list_ascii_of_string].
  apply fgets_lines_unterminated; [assumption|].
  clear -Hlen. revert Hlen. generalize 510%nat. induction tail as [|c t IH]; intros n; simpl; [auto|].
  destruct n; [lia|]. intros H. apply ->Nat.succ_lt_mono. apply IH. lia.
Qed.

(** A file without any newline, shorter than one buffer, schedules
    nothing. *)
Lemma file_without_newline strtod st file :
  no_newline (list_ascii_of_string file) -> (length (list_ascii_of_string file) < 510)%nat ->
  parse_schedule strtod st file = Done st.
Proof.
  intros Hnl Hlen. unfold parse_schedule. rewrite fgets_lines_tail; [reflexivity|assumption|].
  simpl. lia.
Qed.

Lemma split_conditional_none nm :
  no_question nm = true -> split_conditional nm = None.
Proof.
  induction nm as [|c nm IH]; simpl; [reflexivity|].
  destruct (Ascii.eqb c "?"); simpl; [discriminate|]. intros H. now rewrite IH.
Qed.

Lemma split_conditional_some nm cond :
  no_question nm = true ->
  split_conditional (nm +:+ String "?" cond) = Some (nm, cond).
Proof.
  induction nm as [|c nm IH]; simpl; [reflexivity|].
  destruct (Ascii.eqb c "?"); simpl; [discriminate|]. intros H. now rewrite IH.
Qed.

Lemma conditional_defined_elem st cond :
  conditional_defined st cond = true <-> cond ∈ conditionals st.
Proof.
  unfold conditional_defined. rewrite existsb_exists. split.
  - intros (x & Hin & Heq). apply String.eqb_eq in Heq as ->. now apply list_elem_of_In.
  - intros Hin. exists cond. split; [now apply list_elem_of_In|apply String.eqb_refl].
Qed.

(** X6: an entry [name?cond] is scheduled exactly like [name] when [cond]
    was defined with [-D]; otherwise it is only reported on standard error,
    whatever its period and length are, and the tables stay as they are. *)
Theorem conditional_entry st nm cond P l :
  no_question nm = true ->
  (cond ∈ conditionals st ->
   add_task st (nm +:+ String "?" cond) P l = add_task st nm P l) /\
  (cond ∉ conditionals st ->
   add_task st (nm +:+ String "?" cond) P l
   = Done (warn st (SkippingEntry (nm +:+ String "?" cond)))).
Proof.
  intros Hq. split; intros Hc.
  - apply conditional_defined_elem in Hc.
    unfold add_task. now rewrite (split_conditional_some nm cond Hq), Hc,
      (split_conditional_none nm Hq).
  - assert (Hd : conditional_defined st cond = false).
    { destruct (conditional_defined st cond) eqn:Hd; [|reflexivity].
      apply conditional_defined_elem in Hd. contradiction. }
    unfold add_task. now rewrite (split_conditional_some nm cond Hq), Hd.
Qed.

Lemma get_append_r (s t : string) (i : nat) :
  String.get (String.length s + i) (s +:+ t) = String.get i t.
Proof. induction s as [|c s IH]; simpl; [reflexivity|exact IH]. Qed.

Lemma length_append (s t : string) :
  String.length (s +:+ t) = (String.length s + String.length t)%nat.
Proof. induction s as [|c s IH]; simpl; [reflexivity|]. now rewrite IH. Qed.

Lemma substring_append_l (s t : string) :
  String.substring 0 (String.length s) (s +:+ t) = s.
Proof.
  induction s as [|c s IH]; simpl; [now destruct t|]. now rewrite IH.
Qed.

Lemma strides_beyond base P c i : 8 <= i -> strides base P 8 c i = O.
Proof.
  intros Hi. induction c as [|c IH]; simpl; [reflexivity|]. rewrite IH.
  pose proof (Z.mod_pos_bound (base + Z.of_nat c * P) 8).
  destruct (Z.eqb_spec ((base + Z.of_nat c * P) mod 8) i); [lia|reflexivity].
Qed.

Lemma strides_base base P c : 0 <= base < 8 -> (0 < c)%nat -> (0 < strides base P 8 c base)%nat.
Proof.
  intros Hb Hc. induction c as [|c IH]; [lia|]. simpl.
  destruct c as [|c'].
  - simpl. rewrite Z.add_0_r, Z.mod_small, Z.eqb_refl by lia. lia.
  - assert (0 < strides base P 8 (S c') base)%nat by (apply IH; lia). lia.
Qed.

Lemma tidy_ext st st' :
  n_ticks st' = n_ticks st -> ticks st' = ticks st -> tasks st' = tasks st ->
  max_divider st' = max_divider st -> tidy st -> tidy st'.
Proof.
  destruct st, st'. simpl. intros -> -> -> -> [H1 H2 H3 H4 H5].
  constructor; assumption.
Qed.

Lemma tidy_fresh : tidy (init_schedule globals).
Proof.
  constructor.
  - discriminate.
  - intros k T Hlk. discriminate.
  - intros i t s Hlk Hin. rewrite ticks_fresh in Hlk.
    apply lookup_replicate in Hlk as [-> _]. inversion Hin.
  - intros i t Hlk _. rewrite ticks_fresh in Hlk.
    now apply lookup_replicate in Hlk as [-> _].
  - left. reflexivity.
Qed.

Lemma inserted_tidy st T base :
  sound st -> tidy st -> is_pow2 (period T) -> Z.max 1 (period T / 8) < 256 ->
  0 <= base < 8 ->
  tidy (inserted st T base).
Proof.
  intros Hs Ht Hpow Hd Hbase.
  destruct (pow2_div8 _ Hpow Hd) as (e & He & Hde).
  assert (Hcount : (0 < Z.to_nat (Z.max 1 (8 / period T)))%nat) by lia.
  constructor.
  - intros _. rewrite inserted_tasks. now destruct (tasks st).
  - intros k T'. rewrite inserted_tasks. intros Hlk.
    apply lookup_app_Some in Hlk as [Hlk|[_ Hlk]].
    + eapply tidy_periods; eassumption.
    + apply list_lookup_singleton_Some in Hlk as [_ <-]. exact Hpow.
  - intros i t s Hlk Hin. rewrite inserted_max_divider.
    apply inserted_tick_lookup in Hlk as (t0 & Ht0 & ->).
    unfold placed_tick in Hin. simpl in Hin.
    apply elem_of_app in Hin as [Hin|Hin].
    + destruct (tidy_dividers st Ht _ _ _ Ht0 Hin). split; [assumption|lia].
    + apply elem_of_replicate in Hin as [-> _]. simpl. split; [|lia].
      exists e. split; [lia|assumption].
  - intros i t Hlk Hi.
    apply inserted_tick_lookup in Hlk as (t0 & Ht0 & ->).
    rewrite strides_beyond by lia. rewrite placed_tick_0.
    eapply tidy_beyond; eassumption.
  - rewrite inserted_max_divider.
    destruct (Z.le_gt_cases (Z.max 1 (period T / 8)) (max_divider st)) as [Hle|Hgt].
    + rewrite Z.max_l by assumption.
      destruct (tidy_max st Ht) as [|(i & t & s & Hlk & Hin & Hdiv)]; [left; assumption|].
      right. exists i, (placed_tick (Z.max 1 (period T / 8)) (length (tasks st)) (len T)
                          (strides base (period T) 8 (Z.to_nat (Z.max 1 (8 / period T)))
                             (Z.of_nat i)) t), s.
      repeat split; [|apply elem_of_app; left; assumption|assumption].
      rewrite inserted_ticks, list_lookup_imap, Hlk. reflexivity.
    + rewrite Z.max_r by lia. right.
      assert (Hlt : (Z.to_nat base < length (ticks st))%nat).
      { rewrite (sound_ticks st Hs). change (Z.to_nat MAX_TICKS) with 32%nat. lia. }
      apply lookup_lt_is_Some_2 in Hlt as [t0 Ht0].
      exists (Z.to_nat base),
        (placed_tick (Z.max 1 (period T / 8)) (length (tasks st)) (len T)
           (strides base (period T) 8 (Z.to_nat (Z.max 1 (8 / period T)))
              (Z.of_nat (Z.to_nat base))) t0),
        (mk_slot (Z.max 1 (period T / 8)) (length (tasks st))).
      repeat split.
      * rewrite inserted_ticks, list_lookup_imap, Ht0. reflexivity.
      * unfold placed_tick. simpl. apply elem_of_app. right.
        apply elem_of_replicate. split; [reflexivity|].
        rewrite Z2Nat.id by lia.
        pose proof (strides_base base (period T) _ Hbase Hcount). lia.
Qed.

Lemma reachable_tidy st : reachable st -> tidy st.
Proof.
  induction 1 as [|st o Hr IH|st nm P l st' Hr IH HP Hentry].
  - apply tidy_fresh.
  - revert IH. apply tidy_ext; destruct o; reflexivity.
  - pose proof (reachable_sound st Hr) as Hs.
    pose proof (sound_max_divider_bounds st Hs).
    unfold schedule_entry in Hentry.
    destruct (Z.eqb_spec (Z.land P (wrap (P - 1))) 0) as [Hland|]; simpl in Hentry;
      [|discriminate].
    destruct (geb l (unsigned_to_float P)); [discriminate|].
    apply add_task_done in Hentry
      as [[_ ->]|(_ & _ & nm' & auc & base & HP1 & Hd & Hb & ->)];
      [| | apply sound_shape; assumption | lia | lia].
    + revert IH. apply tidy_ext; reflexivity.
    + apply inserted_tidy; try assumption.
      simpl. apply period_check_pow2; [lia|assumption].
Qed.

(** X8: before the first task is scheduled the tick table is 0 wide, and
    from then on it is 8 wide, whatever [max_ticks] is. *)
Theorem tick_table_is_0_or_8_wide st :
  reachable st ->
  (tasks st = [] /\ n_ticks st = 0) \/ (tasks st <> [] /\ n_ticks st = 8).
Proof.
  intros Hr. destruct (sound_n_ticks st (reachable_sound st Hr)) as [H8|(H0 & Hnil & _)].
  - right. split; [|assumption]. now apply (tidy_width st (reachable_tidy st Hr)).
  - left. auto.
Qed.

(** X9: the period of every scheduled task is a power of two, and so is the
    divider of every slot. *)
Theorem periods_and_dividers_are_powers_of_two st :
  reachable st ->
  (forall k T, tasks st !! k = Some T -> is_pow2 (period T)) /\
  (forall i t s, ticks st !! i = Some t -> s ∈ slots t -> is_pow2 (divider s)).
Proof.
  intros Hr. pose proof (reachable_tidy st Hr) as Ht. split.
  - apply (tidy_periods st Ht).
  - intros i t s Hlk Hin. now destruct (tidy_dividers st Ht i t s Hlk Hin).
Qed.

(** X10: [max_divider] is the largest divider of any slot, 1 when no slot is
    divided. *)
Theorem max_divider_is_the_largest_divider st :
  reachable st ->
  (forall i t s, ticks st !! i = Some t -> s ∈ slots t -> divider s <= max_divider st) /\
  (max_divider st = 1 \/
   exists i t s, ticks st !! i = Some t /\ s ∈ slots t /\ divider s = max_divider st).
Proof.
  intros Hr. pose proof (reachable_tidy st Hr) as Ht. split.
  - intros i t s Hlk Hin. now destruct (tidy_dividers st Ht i t s Hlk Hin).
  - apply (tidy_max st Ht).
Qed.

(** X11: slots are only ever placed in the first [n_ticks] ticks, and every
    slot refers to a task of the task table. *)
Theorem slots_stay_inside_the_tables st i t :
  reachable st -> ticks st !! i = Some t ->
  ((Z.to_nat (n_ticks st) <= i)%nat -> slots t = []) /\
  (forall s, s ∈ slots t -> exists T, tasks st !! slot_task s = Some T).
Proof.
  intros Hr Hlk. pose proof (reachable_sound st Hr) as Hs. split.
  - intros Hi. destruct (sound_n_ticks st Hs) as [H8|(H0 & _ & Hrep)].
    + rewrite H8 in Hi. now rewrite (tidy_beyond st (reachable_tidy st Hr) i t Hlk) by lia.
    + rewrite Hrep in Hlk. now apply lookup_replicate in Hlk as [-> _].
  - intros s Hin. apply lookup_lt_is_Some_2. eapply (sound_refs st Hs); eassumption.
Qed.

(** X12: [alloc_slot] gives a slot of an existing tick exactly when the tick
    holds fewer than 31 slots; with 31 it stops the tool; it never writes
    past the 32 slots of the array. *)
Theorem alloc_slot_takes_31 st tickno t s :
  get_tick st tickno = Done t ->
  (tick_n_slots t < 31 ->
   alloc_slot st tickno s
   = Done (with_ticks st (<[Z.to_nat tickno := mk_tick (slots t ++ [s]) (tick_len t)]>
                            (ticks st)))) /\
  (tick_n_slots t = 31 -> alloc_slot st tickno s = Exit TooManySlots) /\
  (forall st', alloc_slot st tickno s = Done st' -> tick_n_slots t < 31).
Proof.
  intros Ht. unfold alloc_slot. rewrite Ht, bind_Done_l.
  assert (H0 : 0 <= tick_n_slots t) by (unfold tick_n_slots; lia).
  split; [|split].
  - intros Hlt. rewrite wrap_small by (unfold UINT_MOD; lia).
    destruct (Z.eqb_spec (tick_n_slots t + 1) MAX_SLOTS_PER_TICK) as [H|_];
      [unfold MAX_SLOTS_PER_TICK in H; lia|].
    destruct (Z.leb_spec MAX_SLOTS_PER_TICK (tick_n_slots t)) as [H|_];
      [unfold MAX_SLOTS_PER_TICK in H; lia|]. reflexivity.
  - intros ->. reflexivity.
  - intros st'.
    destruct (Z.eqb_spec (wrap (tick_n_slots t + 1)) MAX_SLOTS_PER_TICK) as [|Hne];
      [discriminate|].
    destruct (Z.leb_spec MAX_SLOTS_PER_TICK (tick_n_slots t)) as [|Hlt]; [discriminate|].
    intros _. unfold MAX_SLOTS_PER_TICK in *.
    rewrite wrap_small in Hne by (unfold UINT_MOD; lia). lia.
Qed.

Lemma place_slot_within_cap k P l d st base st' base' :
  within_cap 31 (ticks st) ->
  place_slot k P l d (st, base) = Done (st', base') ->
  within_cap 31 (ticks st').
Proof.
  intros Hcap H. unfold place_slot in H.
  apply bind_done in H as (sa & Halloc & H).
  apply bind_done in H as (bn & _ & H). injection H as <- _.
  unfold alloc_slot in Halloc. apply bind_done in Halloc as (t & Hget & Halloc).
  unfold get_tick in Hget.
  destruct (ticks st !! Z.to_nat base) as [t'|] eqn:Hlk; [|discriminate].
  injection Hget as ->.
  assert (H0 : 0 <= tick_n_slots t) by (unfold tick_n_slots; lia).
  destruct (Z.eqb_spec (wrap (tick_n_slots t + 1)) MAX_SLOTS_PER_TICK) as [|Hne];
    [discriminate|].
  destruct (Z.leb_spec MAX_SLOTS_PER_TICK (tick_n_slots t)) as [|Hlt]; [discriminate|].
  injection Halloc as <-. unfold MAX_SLOTS_PER_TICK in *.
  rewrite wrap_small in Hne by (unfold UINT_MOD; lia).
  destruct st as [n ts tk mt md pf inc cd err]. simpl in *.
  intros i ti Hi. destruct (decide (i = Z.to_nat base)) as [->|Hneq].
  - rewrite list_lookup_alter_eq, list_lookup_insert_eq in Hi
      by (eapply lookup_lt_Some; eassumption).
    injection Hi as <-. unfold tick_n_slots in *. simpl. rewrite length_app. simpl. lia.
  - rewrite list_lookup_alter_ne, list_lookup_insert_ne in Hi by congruence.
    eapply Hcap; eassumption.
Qed.

Lemma reset_lookup (ts : list tick) (l : list nat) i t :
  foldl (fun ts tickno => <[tickno := empty_tick]> ts) ts l !! i = Some t ->
  t = empty_tick \/ ts !! i = Some t.
Proof.
  revert ts. induction l as [|j l IH]; intros ts; simpl; [auto|].
  intros H. apply IH in H as [|H]; [left; assumption|].
  destruct (decide (i = j)) as [->|Hne].
  - destruct (decide (j < length ts)%nat) as [Hlt|Hge].
    + rewrite list_lookup_insert_eq in H by assumption. left. congruence.
    + rewrite list_insert_ge in H by lia. auto.
  - rewrite list_lookup_insert_ne in H by congruence. auto.
Qed.

Lemma plan_slots_within_cap st P st2 count d :
  within_cap 31 (ticks st) ->
  plan_slots st P = Done (st2, count, d) ->
  within_cap 31 (ticks st2).
Proof.
  intros Hcap. unfold plan_slots.
  destruct (P >? n_ticks st).
  - destruct (P <=? max_ticks st).
    + intros H. apply bind_done in H as (c & _ & H). injection H as <- _ _.
      intros i t Hi.
      apply (reset_lookup (ticks st) (seq 0 8)) in Hi as [->|Hi];
        [unfold tick_n_slots; simpl; lia|].
      eapply Hcap; eassumption.
    + intros H. apply bind_done in H as (dv & _ & H).
      destruct (dv >? max_divider st).
      * destruct (_ >=? 256); [discriminate|]. injection H as <- _ _. exact Hcap.
      * injection H as <- _ _. exact Hcap.
  - intros H. apply bind_done in H as (c & _ & H). injection H as <- _ _. exact Hcap.
Qed.

Lemma add_task_within_cap st nm P l st' :
  within_cap 31 (ticks st) -> add_task st nm P l = Done st' ->
  within_cap 31 (ticks st').
Proof.
  intros Hcap. unfold add_task.
  destruct (match split_conditional nm with
            | Some (before, cond) => if conditional_defined st cond then Some before else None
            | None => Some nm
            end) as [nm1|]; [|intros [= <-]; exact Hcap].
  destruct (split_unrolled nm1) as [nm' auc].
  destruct (MAX_TASKS <=? n_tasks st); [discriminate|].
  intros H. apply bind_done in H as ([[st2 count] d] & Hplan & H).
  apply bind_done in H as (base & _ & H).
  apply bind_done in H as ([st3 b] & Hloop & H). injection H as <-.
  apply plan_slots_within_cap in Hplan; [|exact Hcap].
  revert Hloop.
  apply (for_loop_inv (fun _ (s : schedule * Z) => within_cap 31 (ticks s.1))
           _ 0 _ (st2, base) (st3, b)); [exact Hplan|].
  intros j [s1 b1] [s2 b2] _ Hs1 Hstep. simpl in *.
  eapply place_slot_within_cap; eassumption.
Qed.

(** X13: no tick ever holds more than 31 slots, so the 32 slots of a tick
    are never overrun. *)
Theorem ticks_hold_at_most_31_slots st i t :
  reachable st -> ticks st !! i = Some t -> tick_n_slots t <= 31.
Proof.
  intros Hr. revert i t. change (within_cap 31 (ticks st)).
  induction Hr as [|st o Hr IH|st nm P l st' Hr IH HP Hentry].
  - intros i t Hlk. rewrite ticks_fresh in Hlk.
    apply lookup_replicate in Hlk as [-> _]. unfold tick_n_slots. simpl. lia.
  - destruct o; exact IH.
  - unfold schedule_entry in Hentry.
    destruct (negb _); [discriminate|]. destruct (geb _ _); [discriminate|].
    eapply add_task_within_cap; eassumption.
Qed.

(** X14: a successful insertion only appends: the tasks entered before keep
    their place and their description, and every tick keeps the slots it
    had, in order, in front of the new ones. *)
Theorem insertion_only_appends st nm P l st' :
  reachable st -> 0 <= P ->
  add_task st nm P l = Done st' ->
  (tasks st' = tasks st \/ exists T, tasks st' = tasks st ++ [T]) /\
  (forall i t, ticks st !! i = Some t ->
     exists t' more, ticks st' !! i = Some t' /\ slots t' = slots t ++ more).
Proof.
  intros Hr HP Hadd. pose proof (reachable_sound st Hr) as Hs.
  pose proof (sound_max_divider_bounds st Hs).
  apply add_task_done in Hadd
    as [[_ ->]|(_ & _ & nm' & auc & base & HP1 & Hd & Hb & ->)];
    [| | apply sound_shape; assumption | lia | lia].
  - split; [left; reflexivity|]. intros i t Hlk. exists t, []. split; [assumption|].
    now rewrite app_nil_r.
  - split; [right; rewrite inserted_tasks; eauto|].
    intros i t Hlk. eexists _, _. split.
    + rewrite inserted_ticks, list_lookup_imap, Hlk. reflexivity.
    + reflexivity.
Qed.

Lemma count_items_app kind l1 l2 :
  count_items kind (l1 ++ l2) = (count_items kind l1 + count_items kind l2)%nat.
Proof. induction l1 as [|i l1 IH]; simpl; [reflexivity|]. rewrite IH. lia. Qed.

Lemma count_items_replicate kind m i :
  count_items kind (replicate m i) = if kind i then m else O.
Proof.
  induction m as [|m IH]; simpl; [now destruct (kind i)|].
  rewrite IH. now destruct (kind i).
Qed.

Lemma count_items_none kind l :
  Forall (fun i => kind i = false) l -> count_items kind l = O.
Proof. induction 1 as [|i l Hi _ IH]; simpl; [reflexivity|]. now rewrite Hi, IH. Qed.

Lemma emit_slots_shape st n dv ss used items used' :
  emit_slots st n dv ss used = Done (items, used') ->
  Forall (fun i => call_text i = true) items /\
  count_items is_block_begin items
  = (if used then O else if used' then 1%nat else O) /\
  (used = true -> used' = true) /\
  count_items is_call items = with_divider dv ss.
Proof.
  revert used items used'. induction ss as [|s ss IH]; intros used items used'; simpl.
  - intros [= <- <-]. repeat split; [constructor|now destruct used|auto].
  - destruct (Z.eqb_spec (divider s) dv) as [Heq|Hne].
    + destruct (tasks st !! slot_task s) as [t|]; [|discriminate].
      intros H. apply bind_done in H as ([inl nm] & _ & H).
      apply bind_done in H as ([rest u] & Hrest & H). injection H as <- <-.
      apply IH in Hrest as (Hall & Hbegin & Hmono & Hcalls).
      change (Call nm (len t) :: rest) with ([Call nm (len t)] ++ rest).
      rewrite !count_items_app, Hbegin, Hcalls.
      repeat split.
      * rewrite !Forall_app. split; [|split; [|split]].
        -- destruct (_ && _); repeat constructor.
        -- destruct inl; repeat constructor.
        -- repeat constructor.
        -- assumption.
      * destruct used; simpl.
        -- rewrite andb_false_r. simpl. now destruct inl.
        -- rewrite andb_true_r. destruct (dv >? 1); simpl.
           ++ rewrite Hmono by reflexivity. now destruct inl.
           ++ now destruct inl.
      * intros ->. apply Hmono. reflexivity.
      * destruct (_ && _), inl; reflexivity.
    + intros H. apply IH in H as (Hall & Hbegin & Hmono & Hcalls).
      auto.
Qed.

Lemma emit_dividers_shape st n t divs items cnt :
  emit_dividers st n t divs = Done (items, cnt) ->
  Forall (fun i => call_text i = true) items /\
  count_items is_block_begin items = cnt /\
  count_items is_call items = sum_list (map (fun dv => with_divider dv (slots t)) divs).
Proof.
  revert items cnt. induction divs as [|dv divs IH]; intros items cnt; simpl.
  - intros [= <- <-]. repeat split. constructor.
  - intros H. apply bind_done in H as ([calls used] & Hcalls & H).
    apply bind_done in H as ([rest c] & Hrest & H). injection H as <- <-.
    apply emit_slots_shape in Hcalls as (Hall1 & Hb1 & _ & Hc1).
    apply IH in Hrest as (Hall2 & Hb2 & Hc2).
    rewrite !count_items_app, Hb1, Hb2, Hc1, Hc2. split; [|split].
    + rewrite Forall_app. auto.
    + now destruct used.
    + reflexivity.
Qed.

(** The pieces a handler is made of. *)
Lemma emit_handler_shape st n h :
  emit_handler st n = Done h ->
  exists t divs calls cnt,
    get_tick st n = Done t /\
    divider_values 33 1 (max_divider st) = Done divs /\
    emit_dividers st n t divs = Done (calls, cnt) /\
    h = [HandlerHead n; BlockBegin] ++ calls ++ replicate cnt BlockEnd
        ++ (if (n =? wrap (n_ticks st - 1)) && (max_divider st >? 1)
            then [DividerIncrement] else [])
        ++ (if n_ticks st >? 1 then [SetFunction ((n + 1) mod n_ticks st)] else [])
        ++ [TimeComment (tick_len t); Newline; BlockEnd; Newline].
Proof.
  unfold emit_handler. intros H.
  apply bind_done in H as (t & Ht & H).
  apply bind_done in H as (divs & Hdivs & H).
  apply bind_done in H as ([calls cnt] & Hcalls & H). injection H as <-.
  exists t, divs, calls, cnt. auto.
Qed.

(** X15: in every handler the blocks opened are closed: as many [BlockEnd]
    as [BlockBegin]. *)
Theorem handler_blocks_are_balanced st n h :
  emit_handler st n = Done h ->
  count_items is_block_begin h = count_items is_block_end h.
Proof.
  intros H. apply emit_handler_shape in H as (t & divs & calls & cnt & _ & _ & Hc & ->).
  apply emit_dividers_shape in Hc as (Hall & Hb & _).
  rewrite !count_items_app, Hb, !count_items_replicate.
  rewrite (count_items_none is_block_end calls).
  - destruct (_ && _), (n_ticks st >? 1); simpl; lia.
  - eapply Forall_impl; [exact Hall|]. intros i Hi. now destruct i.
Qed.

(** X16: the handler of the last tick, and no other, increments the divider
    counter, and only when some slot is divided. *)
Theorem divider_is_incremented_by_the_last_handler st n h :
  0 < n_ticks st < UINT_MOD ->
  emit_handler st n = Done h ->
  (DividerIncrement ∈ h <-> n = n_ticks st - 1 /\ 1 < max_divider st).
Proof.
  intros HN H. apply emit_handler_shape in H as (t & divs & calls & cnt & _ & _ & Hc & ->).
  apply emit_dividers_shape in Hc as (Hall & _ & _).
  rewrite wrap_small by lia.
  assert (Hcalls : DividerIncrement ∉ calls).
  { intros Hin. rewrite Forall_forall in Hall. apply Hall in Hin. discriminate. }
  rewrite !elem_of_app, !elem_of_cons, elem_of_replicate.
  destruct (Z.eqb_spec n (n_ticks st - 1)) as [->|Hne];
    destruct (Z.gtb_spec (max_divider st) 1) as [Hgt|Hle]; cbn [andb].
  all: split; [intros Hin|intros [H1 H2]; try lia].
  all: repeat match goal with
         | H : _ \/ _ |- _ => destruct H
         | H : _ /\ _ |- _ => destruct H
         | H : _ ∈ [] |- _ => inversion H
         | H : _ ∈ (if ?b then _ else _) |- _ => destruct b
         | H : _ ∈ [_] |- _ => apply list_elem_of_singleton in H
         end; try discriminate; try contradiction; try lia.
  right. right. right. left. left.
Qed.

Lemma divider_values_spec md fuel dv l :
  0 < dv -> md < 2 ^ 31 ->
  divider_values fuel dv md = Done l ->
  (forall x, x ∈ l -> dv <= x) /\ NoDup l /\
  (forall k, 0 <= k -> dv * 2 ^ k <= md -> dv * 2 ^ k ∈ l).
Proof.
  revert dv l. induction fuel as [|fuel IH]; intros dv l Hdv Hmd; simpl; [discriminate|].
  destruct (Z.leb_spec dv md) as [Hle|Hgt].
  - assert (Hw : wrap (dv * 2) = dv * 2).
    { apply wrap_small. unfold UINT_MOD. change (2 ^ 32) with (2 * 2 ^ 31). lia. }
    rewrite Hw. intros H. apply bind_done in H as (rest & Hrest & H). injection H as <-.
    apply IH in Hrest as (Hge & Hnd & Hin); [|lia|assumption].
    split; [|split].
    + intros x Hx. apply elem_of_cons in Hx as [->|Hx]; [lia|]. apply Hge in Hx. lia.
    + constructor; [|assumption]. intros Hx. apply Hge in Hx. lia.
    + intros k Hk Hbound. destruct (Z.eq_dec k 0) as [->|Hne].
      * rewrite Z.mul_1_r. left.
      * right. replace (dv * 2 ^ k) with (dv * 2 * 2 ^ (k - 1)).
        -- apply Hin; [lia|]. replace (dv * 2 * 2 ^ (k - 1)) with (dv * 2 ^ k); [assumption|].
           replace k with (Z.succ (k - 1)) at 1 by lia. rewrite Z.pow_succ_r by lia. lia.
        -- replace k with (Z.succ (k - 1)) at 2 by lia. rewrite Z.pow_succ_r by lia. lia.
  - intros [= <-]. split; [|split].
    + intros x Hx. inversion Hx.
    + constructor.
    + intros k Hk Hbound. assert (1 <= 2 ^ k) by (apply (Z.pow_le_mono_r 2 0 k); lia). nia.
Qed.

Lemma with_divider_indicator (divs : list Z) (ss : list slot) :
  NoDup divs -> (forall s, s ∈ ss -> divider s ∈ divs) ->
  sum_list (map (fun dv => with_divider dv ss) divs) = length ss.
Proof.
  intros Hnd. induction ss as [|s ss IH]; intros Hin; simpl.
  - induction divs as [|d divs IHd]; simpl; [reflexivity|].
    apply NoDup_cons in Hnd as [_ Hnd]. now rewrite IHd.
  - rewrite (sum_list_add (fun dv => if divider s =? dv then 1%nat else 0%nat)
               (fun dv => with_divider dv ss)).
    rewrite sum_indicator; [|assumption|apply Hin; left].
    rewrite IH; [reflexivity|]. intros s' Hs'. apply Hin. now right.
Qed.

(** X17: the handler of a tick calls every slot of the tick, once each: it
    holds as many calls as the tick has slots. *)
Theorem handler_calls_every_slot st n t h :
  reachable st -> get_tick st n = Done t -> emit_handler st n = Done h ->
  count_items is_call h = length (slots t).
Proof.
  intros Hr Ht H. pose proof (reachable_sound st Hr) as Hs.
  pose proof (sound_max_divider_bounds st Hs) as Hmd.
  apply emit_handler_shape in H as (t' & divs & calls & cnt & Ht' & Hdivs & Hc & ->).
  rewrite Ht in Ht'. injection Ht' as <-.
  apply emit_dividers_shape in Hc as (_ & _ & Hcalls).
  apply divider_values_spec in Hdivs as (_ & Hnd & Hin);
    [|lia|change (2 ^ 31) with 2147483648; lia].
  rewrite !count_items_app, Hcalls, count_items_replicate.
  rewrite with_divider_indicator; [|assumption|].
  - destruct (_ && _), (n_ticks st >? 1); simpl; lia.
  - intros s Hs'. unfold get_tick in Ht.
    destruct (ticks st !! Z.to_nat n) as [t0|] eqn:Hlk; [|discriminate].
    injection Ht as ->.
    destruct (tidy_dividers st (reachable_tidy st Hr) _ _ _ Hlk Hs') as [(k & Hk & Hpow) Hle].
    rewrite Hpow in *. rewrite <- (Z.mul_1_l (2 ^ k)). apply Hin; lia.
Qed.

Lemma small_pow2 P : is_pow2 P -> P <= 8 -> P = 1 \/ P = 2 \/ P = 4 \/ P = 8.
Proof.
  intros (k & Hk & ->) Hle.
  destruct (Z.le_gt_cases k 3) as [H3|H3].
  - assert (k = 0 \/ k = 1 \/ k = 2 \/ k = 3) as [->|[->|[->| ->]]] by lia; auto.
  - assert (2 ^ 4 <= 2 ^ k) by (apply Z.pow_le_mono_r; lia).
    change (2 ^ 4) with 16 in *. lia.
Qed.

Ltac enumerate x :=
  match goal with
  | H : 0 <= x < 8 |- _ =>
      assert (x = 0 \/ x = 1 \/ x = 2 \/ x = 3 \/ x = 4 \/ x = 5 \/ x = 6 \/ x = 7)
        as [->|[->|[->|[->|[->|[->|[->| ->]]]]]]] by lia
  end.

Lemma strides_on_stride P base i :
  P = 1 \/ P = 2 \/ P = 4 \/ P = 8 -> 0 <= base < 8 -> 0 <= i < 8 ->
  strides base P 8 (Z.to_nat (Z.max 1 (8 / P))) i = on_stride base P i.
Proof.
  intros HP Hb Hi. enumerate base; enumerate i;
    destruct HP as [->|[->|[->| ->]]]; reflexivity.
Qed.

Lemma window_on_stride P base fp :
  P = 1 \/ P = 2 \/ P = 4 \/ P = 8 -> 0 <= base < 8 -> 0 <= fp < 8 ->
  sum_list (map (on_stride base P) (map (fun j => (fp + j) mod 8) (seqZ 0 P))) = 1%nat.
Proof.
  intros HP Hb Hf. enumerate base; enumerate fp;
    destruct HP as [->|[->|[->| ->]]]; reflexivity.
Qed.

Lemma add_zero_above x :
  ltb minus_one x = true -> ltb minus_one (add zero x) = true.
Proof.
  destruct x as [s|s| |s m e]; simpl; try discriminate; auto.
  destruct s; reflexivity.
Qed.

Lemma total_len_single st P L i t :
  n_ticks st = 8 -> 0 <= i < 8 -> ticks st !! Z.to_nat i = Some t ->
  total_len st P 1 L i
  = Done (add zero
            (if geb (add (tick_len t) L) one then huge
             else if (P >? 8) && (i =? 7) then minus_one
             else tick_len t)).
Proof.
  intros Hn Hi Hlk. unfold total_len. change (Z.to_nat 1) with 1%nat. cbn [for_loop].
  unfold bucket_cost, udiv. rewrite Hn. change (1 =? 0) with false. cbv iota.
  rewrite bind_Done_l. change (8 / 1) with 8. change (wrap (8 * 0)) with 0.
  change (wrap (8 - 1)) with 7.
  rewrite Z.add_0_r, (wrap_small i) by (unfold UINT_MOD; lia).
  unfold get_tick. rewrite Hlk, !bind_Done_l. reflexivity.
Qed.

(** X21: a task that needs a divider is placed in the last tick whenever it
    fits there without reaching one tick of work and no other tick has a
    length of -1 or less. *)
Theorem divided_task_goes_to_the_last_tick st P L t7 :
  n_ticks st = 8 -> length (ticks st) = Z.to_nat MAX_TICKS -> P > 8 ->
  ticks st !! 7%nat = Some t7 -> geb (add (tick_len t7) L) one = false ->
  (forall i t, (i < 7)%nat -> ticks st !! i = Some t -> ltb minus_one (tick_len t) = true) ->
  find_best_tick st P 1 L = Done 7.
Proof.
  intros Hn Hlen HP H7 Hfit Hothers.
  assert (Hcost : forall i, 0 <= i < 8 -> exists t,
            ticks st !! Z.to_nat i = Some t /\
            total_len st P 1 L i
            = Done (add zero
                      (if geb (add (tick_len t) L) one then huge
                       else if (P >? 8) && (i =? 7) then minus_one
                       else tick_len t))).
  { intros i Hi. assert (Hlt : (Z.to_nat i < length (ticks st))%nat).
    { rewrite Hlen. change (Z.to_nat MAX_TICKS) with 32%nat. lia. }
    apply lookup_lt_is_Some_2 in Hlt as [t Ht]. exists t. split; [assumption|].
    now apply total_len_single. }
  assert (Hdone : exists b, find_best_tick st P 1 L = Done b).
  { unfold find_best_tick, udiv. rewrite Hn. change (1 =? 0) with false. cbv iota.
    rewrite bind_Done_l.
    destruct (for_loop_total (fun _ : Z * double => True)
                (fun tickno best_so_far =>
                   let '(best, best_len) := best_so_far in
                   total ← total_len st P 1 L tickno;
                   Done (if ltb total best_len then (tickno, total) else (best, best_len)))
                0 (Z.to_nat (8 / 1)) (0, huge)) as ([b bl] & Hloop); [exact I| |].
    - intros j [b0 bl0] Hj _. rewrite Z.add_0_l.
      destruct (Hcost (Z.of_nat j)) as (t & _ & ->); [change (8 / 1) with 8 in Hj; lia|].
      rewrite bind_Done_l. eauto.
    - rewrite Hloop, bind_Done_l. eauto. }
  destruct Hdone as (b & Hb). rewrite Hb. f_equal.
  destruct (find_best_tick_least st P 1 L b Hb) as (bl & Hbest).
  rewrite Hn in Hbest. change (Z.max 0 (8 / 1)) with 8 in Hbest.
  assert (Hc7 : total_len st P 1 L 7 = Done minus_one).
  { destruct (Hcost 7) as (t & Ht & ->); [lia|]. change (Z.to_nat 7) with 7%nat in Ht.
    rewrite H7 in Ht. injection Ht as <-. rewrite Hfit.
    destruct (Z.gtb_spec P 8); [|lia]. reflexivity. }
  assert (Habove : forall i ci, 0 <= i < 7 -> total_len st P 1 L i = Done ci ->
                                ltb minus_one ci = true).
  { intros i ci Hi Hci. destruct (Hcost i) as (t & Ht & Heq); [lia|].
    rewrite Heq in Hci. injection Hci as <-.
    destruct (Z.eqb_spec i 7); [lia|]. rewrite andb_false_r.
    destruct (geb (add (tick_len t) L) one); [reflexivity|].
    apply add_zero_above. apply (Hothers (Z.to_nat i)); [lia|assumption]. }
  destruct Hbest as [(_ & _ & Hall)|(Hrange & Hcb & _ & Hall & _)].
  - destruct (Hall 7) as (c7 & Hc & Hlt); [lia|]. rewrite Hc7 in Hc. injection Hc as <-.
    discriminate Hlt.
  - destruct (Z.eq_dec b 7) as [|Hne]; [assumption|exfalso].
    destruct (Hall 7) as (c7 & Hc & Hlt); [lia|]. rewrite Hc7 in Hc. injection Hc as <-.
    rewrite (Habove b bl) in Hlt by (assumption || lia). discriminate.
Qed.


Lemma three_is_no_power_of_two : ~ is_pow2 3.
Proof.
  intros (k & Hk & H). pose proof (land_pow2_pred k Hk) as Hland.
  rewrite <- H in Hland. vm_compute in Hland. discriminate.
Qed.

(** X1 on an indented comment line. *)
Lemma blank_and_comment_lines_are_ignored_witness :
  first_visible ("  # x" +:+ lf) = Some "#"%char /\
  parse_line strtod_decimal fresh ("  # x" +:+ lf) = Done fresh.
Proof.
  split; [reflexivity|].
  apply (blank_and_comment_lines_are_ignored strtod_decimal fresh ("  # x" +:+ lf)).
  right. reflexivity.
Defined.

(** X2 on the period 16. *)
Lemma period_test_accepts_zero_and_powers_of_two_witness :
  0 <= 16 < UINT_MOD /\
  (Z.land 16 (wrap (16 - 1)) = 0 <-> 16 = 0 \/ is_pow2 16).
Proof.
  assert (H : 0 <= 16 < UINT_MOD) by (unfold UINT_MOD; lia).
  split; [exact H|]. exact (period_test_accepts_zero_and_powers_of_two 16 H).
Defined.

(** X3 on a line of four tokens. *)
Lemma parse_line_uses_three_tokens_witness :
  tokens ("scan 1 0.1 often" +:+ lf) = ["scan"; "1"; "0.1"; "often"] /\
  parse_line strtod_decimal fresh ("scan 1 0.1 often" +:+ lf)
  = schedule_entry fresh "scan" 1 (to_float (time_value strtod_decimal "0.1")).
Proof.
  split; [vm_compute; reflexivity|].
  apply (parse_line_uses_three_tokens strtod_decimal fresh ("scan 1 0.1 often" +:+ lf)
           "scan" "1" "0.1" ["often"] 1); vm_compute; reflexivity.
Defined.

(** X4 on the line [bad 3]. *)
Lemma parse_line_rejects_other_periods_witness :
  tokens ("bad 3" +:+ lf) = ["bad"; "3"] /\
  parse_line strtod_decimal fresh ("bad 3" +:+ lf) = Exit (InvalidPeriod 3 "bad").
Proof.
  split; [vm_compute; reflexivity|].
  apply (parse_line_rejects_other_periods strtod_decimal fresh ("bad 3" +:+ lf)
           "bad" "3" [] 3);
    [vm_compute; reflexivity | vm_compute; reflexivity | vm_compute; reflexivity
    | lia | exact three_is_no_power_of_two].
Defined.

(** X5 on a file whose last line [b 2 0] has no newline. *)
Lemma unterminated_last_line_is_dropped_witness :
  parse_schedule strtod_decimal fresh (("a 1 0" +:+ lf) +:+ String "010" "b 2 0")
  = parse_schedule strtod_decimal fresh (("a 1 0" +:+ lf) +:+ String "010" "").
Proof.
  apply (unterminated_last_line_is_dropped strtod_decimal fresh ("a 1 0" +:+ lf) "b 2 0").
  - repeat constructor.
  - simpl. lia.
Defined.

(** X6 on an entry whose conditional was not defined. *)
Lemma conditional_entry_witness :
  no_question "opt" = true /\ ("DEBUG" ∉ conditionals fresh) /\
  add_task fresh ("opt" +:+ String "?" "DEBUG") 2 (dec 1 1)
  = Done (warn fresh (SkippingEntry ("opt" +:+ String "?" "DEBUG"))).
Proof.
  assert (Hq : no_question "opt" = true) by reflexivity.
  assert (Hc : "DEBUG" ∉ conditionals fresh).
  { change (conditionals fresh) with (@nil string). apply not_elem_of_nil. }
  split; [exact Hq|]. split; [exact Hc|].
  destruct (conditional_entry fresh "opt" "DEBUG" 2 (dec 1 1) Hq) as [_ Hskip].
  exact (Hskip Hc).
Defined.

(** X8 on the schedule of [scan 1 0.1]. *)
Lemma tick_table_is_0_or_8_wide_witness :
  reachable scanned /\
  ((tasks scanned = [] /\ n_ticks scanned = 0) \/
   (tasks scanned <> [] /\ n_ticks scanned = 8)).
Proof.
  split; [exact reachable_scanned|].
  exact (tick_table_is_0_or_8_wide scanned reachable_scanned).
Defined.

(** X9 on the schedule of [scan 1 0.1]. *)
Lemma periods_and_dividers_are_powers_of_two_witness :
  reachable scanned /\
  ((forall k T, tasks scanned !! k = Some T -> is_pow2 (period T)) /\
   (forall i t s, ticks scanned !! i = Some t -> s ∈ slots t -> is_pow2 (divider s))).
Proof.
  split; [exact reachable_scanned|].
  exact (periods_and_dividers_are_powers_of_two scanned reachable_scanned).
Defined.

(** X10 on the schedule of [scan 1 0.1]. *)
Lemma max_divider_is_the_largest_divider_witness :
  reachable scanned /\
  ((forall i t s, ticks scanned !! i = Some t -> s ∈ slots t ->
                  divider s <= max_divider scanned) /\
   (max_divider scanned = 1 \/
    exists i t s, ticks scanned !! i = Some t /\ s ∈ slots t /\
                  divider s = max_divider scanned)).
Proof.
  split; [exact reachable_scanned|].
  exact (max_divider_is_the_largest_divider scanned reachable_scanned).
Defined.

(** X11 on tick 9 of the schedule of [scan 1 0.1]. *)
Lemma slots_stay_inside_the_tables_witness :
  reachable scanned /\ ticks scanned !! 9%nat = Some empty_tick /\
  (((Z.to_nat (n_ticks scanned) <= 9)%nat -> slots empty_tick = []) /\
   (forall s, s ∈ slots empty_tick -> exists T, tasks scanned !! slot_task s = Some T)).
Proof.
  assert (H : ticks scanned !! 9%nat = Some empty_tick) by (vm_compute; reflexivity).
  split; [exact reachable_scanned|]. split; [exact H|].
  exact (slots_stay_inside_the_tables scanned 9 empty_tick reachable_scanned H).
Defined.

(** X12 on tick 0 of the schedule of [scan 1 0.1]. *)
Lemma alloc_slot_takes_31_witness :
  get_tick scanned 0 = Done scan_tick /\ tick_n_slots scan_tick < 31 /\
  alloc_slot scanned 0 (mk_slot 1 0)
  = Done (with_ticks scanned
            (<[Z.to_nat 0 := mk_tick (slots scan_tick ++ [mk_slot 1 0]) (tick_len scan_tick)]>
               (ticks scanned))).
Proof.
  assert (H : get_tick scanned 0 = Done scan_tick) by (vm_compute; reflexivity).
  assert (H31 : tick_n_slots scan_tick < 31) by (vm_compute; reflexivity).
  split; [exact H|]. split; [exact H31|].
  destruct (alloc_slot_takes_31 scanned 0 scan_tick (mk_slot 1 0) H) as (Hroom & _).
  exact (Hroom H31).
Defined.

(** X13 on tick 0 of the schedule of [scan 1 0.1]. *)
Lemma ticks_hold_at_most_31_slots_witness :
  reachable scanned /\ ticks scanned !! 0%nat = Some scan_tick /\
  tick_n_slots scan_tick <= 31.
Proof.
  assert (H : ticks scanned !! 0%nat = Some scan_tick) by (vm_compute; reflexivity).
  split; [exact reachable_scanned|]. split; [exact H|].
  exact (ticks_hold_at_most_31_slots scanned 0 scan_tick reachable_scanned H).
Defined.

(** X14 on [rare 16 0.2] entered after [scan 1 0.1]. *)
Lemma insertion_only_appends_witness :
  reachable scanned /\ add_task scanned "rare" 16 (dec 2 1) = Done rare_added /\
  ((tasks rare_added = tasks scanned \/ exists T, tasks rare_added = tasks scanned ++ [T]) /\
   (forall i t, ticks scanned !! i = Some t ->
      exists t' more, ticks rare_added !! i = Some t' /\ slots t' = slots t ++ more)).
Proof.
  assert (H : add_task scanned "rare" 16 (dec 2 1) = Done rare_added)
    by (vm_compute; reflexivity).
  split; [exact reachable_scanned|]. split; [exact H|].
  apply (insertion_only_appends scanned "rare" 16 (dec 2 1) rare_added);
    [exact reachable_scanned | lia | exact H].
Defined.

(** X15 on the handler of tick 0 of [scan 1 0.1]. *)
Lemma handler_blocks_are_balanced_witness :
  emit_handler scanned 0 = Done scan_handler /\
  count_items is_block_begin scan_handler = count_items is_block_end scan_handler.
Proof.
  assert (H : emit_handler scanned 0 = Done scan_handler) by (vm_compute; reflexivity).
  split; [exact H|]. exact (handler_blocks_are_balanced scanned 0 scan_handler H).
Defined.

(** X16 on the handler of tick 0 of [scan 1 0.1]. *)
Lemma divider_is_incremented_by_the_last_handler_witness :
  0 < n_ticks scanned < UINT_MOD /\ emit_handler scanned 0 = Done scan_handler /\
  (DividerIncrement ∈ scan_handler <-> 0 = n_ticks scanned - 1 /\ 1 < max_divider scanned).
Proof.
  assert (H : emit_handler scanned 0 = Done scan_handler) by (vm_compute; reflexivity).
  assert (HN : 0 < n_ticks scanned < UINT_MOD)
    by (split; vm_compute; reflexivity).
  split; [exact HN|]. split; [exact H|].
  exact (divider_is_incremented_by_the_last_handler scanned 0 scan_handler HN H).
Defined.

(** X17 on the handler of tick 0 of [scan 1 0.1]. *)
Lemma handler_calls_every_slot_witness :
  reachable scanned /\ get_tick scanned 0 = Done scan_tick /\
  emit_handler scanned 0 = Done scan_handler /\
  count_items is_call scan_handler = length (slots scan_tick).
Proof.
  assert (Ht : get_tick scanned 0 = Done scan_tick) by (vm_compute; reflexivity).
  assert (H : emit_handler scanned 0 = Done scan_handler) by (vm_compute; reflexivity).
  split; [exact reachable_scanned|]. split; [exact Ht|]. split; [exact H|].
  exact (handler_calls_every_slot scanned 0 scan_tick scan_handler reachable_scanned Ht H).
Defined.

(** X21 on a task of period 16 entered after [scan 1 0.1]. *)
Lemma divided_task_goes_to_the_last_tick_witness :
  ticks scanned !! 7%nat = Some scan_tick /\
  geb (add (tick_len scan_tick) (dec 2 1)) one = false /\
  find_best_tick scanned 16 1 (dec 2 1) = Done 7.
Proof.
  assert (H7 : ticks scanned !! 7%nat = Some scan_tick) by (vm_compute; reflexivity).
  assert (Hfit : geb (add (tick_len scan_tick) (dec 2 1)) one = false)
    by (vm_compute; reflexivity).
  split; [exact H7|]. split; [exact Hfit|].
  apply (divided_task_goes_to_the_last_tick scanned 16 (dec 2 1) scan_tick);
    [reflexivity | reflexivity | lia | exact H7 | exact Hfit |].
  intros i t Hi Hlk.
  do 7 (destruct i as [|i]; [vm_compute in Hlk; injection Hlk as <-; reflexivity|]).
  lia.
Defined.


(** X23 on [rare 16 0] as the first entry. *)
Lemma first_task_above_max_ticks_witness :
  n_ticks fresh = 0 /\ max_ticks fresh < 16 /\
  add_task fresh "rare" 16 zero = Undefined DivisionByZero.
Proof.
  assert (Hm : max_ticks fresh < 16) by (vm_compute; reflexivity).
  split; [reflexivity|]. split; [exact Hm|].
  apply (first_task_above_max_ticks fresh "rare" 16 zero);
    [reflexivity | lia | exact Hm | reflexivity | vm_compute; reflexivity].
Defined.

(** ** The names of the calls *)

Lemma decimal_digit z : 0 <= z < 8 -> String.length (decimal z) = 1%nat.
Proof.
  intros Hz.
  assert (z = 0 \/ z = 1 \/ z = 2 \/ z = 3 \/ z = 4 \/ z = 5 \/ z = 6 \/ z = 7)
    as [->|[->|[->|[->|[->|[->|[->| ->]]]]]]] by lia; reflexivity.
Qed.

Lemma suffix_digit n x p : 0 <= n < 8 -> 0 < x -> 0 < p -> 0 <= (n mod x) / p < 8.
Proof.
  intros Hn Hx Hp. pose proof (Z.mod_pos_bound n x Hx).
  assert (n mod x <= n) by (apply Z.mod_le; lia).
  split; [apply Z.div_pos; lia|].
  apply Z.div_lt_upper_bound; [assumption|]. nia.
Qed.

Lemma call_name_total T n :
  suffix_defined T -> name_fits T -> 0 < period T -> 0 <= n < 8 ->
  exists r, call_name T n = Done r.
Proof.
  intros Hok Hfit Hp Hn. unfold call_name. unfold name_fits in Hfit.
  set (task_name := if String.prefix "!" (name T)
                    then String.substring 1 (String.length (name T) - 1) (name T)
                    else name T) in *.
  cbv zeta in Hfit.
  destruct (Z.eqb_spec (already_unrolled_count T) 0) as [|Hne].
  - unfold fits. destruct (Z.ltb_spec (Z.of_nat (String.length task_name)) MAX_ID);
      [simpl; eauto|lia].
  - destruct Hok as [|Hok]; [contradiction|].
    unfold fits at 1.
    destruct (Z.ltb_spec (Z.of_nat (String.length task_name)) MAX_ID); [|lia]. cbn [negb].
    unfold umod.
    destruct (Z.eqb_spec (wrap (wrap (already_unrolled_count T) * period T)) 0);
      [contradiction|]. rewrite bind_Done_l.
    unfold udiv. destruct (Z.eqb_spec (period T) 0); [lia|]. rewrite bind_Done_l.
    assert (Hx : 0 < wrap (wrap (already_unrolled_count T) * period T)).
    { pose proof (Z.mod_pos_bound (wrap (already_unrolled_count T) * period T) UINT_MOD).
      unfold wrap at 1 in n0. unfold wrap at 1. unfold UINT_MOD in *. lia. }
    pose proof (suffix_digit n _ (period T) Hn Hx Hp) as Hs.
    unfold fits. rewrite !length_append. cbn [String.length].
    rewrite (decimal_digit _ Hs).
    destruct (Z.ltb_spec (Z.of_nat (String.length task_name + (1 + 1))) MAX_ID); [eauto|lia].
Qed.

(** The task can be called from a handler. *)
Lemma emit_slots_total st n dv ss used :
  0 <= n < 8 ->
  (forall s, s ∈ ss -> exists T, tasks st !! slot_task s = Some T /\
                                 suffix_defined T /\ name_fits T /\ 0 < period T) ->
  exists r, emit_slots st n dv ss used = Done r.
Proof.
  intros Hn. revert used. induction ss as [|s ss IH]; intros used Hss; simpl; [eauto|].
  assert (Hrest : forall s', s' ∈ ss ->
            exists T, tasks st !! slot_task s' = Some T /\
                      suffix_defined T /\ name_fits T /\ 0 < period T).
  { intros s' Hs'. apply Hss. now right. }
  destruct (divider s =? dv); [|now apply IH].
  destruct (Hss s) as (T & -> & HT & Hfit & Hp); [now left|].
  destruct (call_name_total T n HT Hfit Hp Hn) as ([inl nm] & ->). simpl.
  destruct (IH (used || (dv >? 1) && negb used) Hrest) as ([rest u] & ->). simpl. eauto.
Qed.

Lemma emit_dividers_total st n t divs :
  0 <= n < 8 ->
  (forall s, s ∈ slots t -> exists T, tasks st !! slot_task s = Some T /\
                                      suffix_defined T /\ name_fits T /\ 0 < period T) ->
  exists r, emit_dividers st n t divs = Done r.
Proof.
  intros Hn Hss. induction divs as [|dv divs IH]; simpl; [eauto|].
  destruct (emit_slots_total st n dv (slots t) false Hn Hss) as ([calls used] & ->). simpl.
  destruct IH as ([rest c] & ->). simpl. eauto.
Qed.

(** The emitter writes its handlers for every schedule the tool can build,
    as long as the suffix of each pre-unrolled task is defined and the
    names fit the buffer they are built in. *)
Lemma emit_handlers_total st :
  reachable st -> (forall T, T ∈ tasks st -> suffix_defined T /\ name_fits T) ->
  exists hs, emit_handlers st = Done hs.
Proof.
  intros Hr Hok. pose proof (reachable_sound st Hr) as Hs.
  unfold emit_handlers.
  apply (for_loop_total (fun _ => True)); [exact I|].
  intros j hs Hj _. rewrite Z.add_0_l.
  assert (Hj8 : (j < 8)%nat).
  { destruct (sound_n_ticks st Hs) as [H8|(H0 & _)]; rewrite ?H8, ?H0 in Hj; simpl in Hj; lia. }
  assert (Hlt : (j < length (ticks st))%nat).
  { rewrite (sound_ticks st Hs). change (Z.to_nat MAX_TICKS) with 32%nat. lia. }
  apply lookup_lt_is_Some_2 in Hlt as [t Ht].
  unfold emit_handler, get_tick. rewrite Nat2Z.id, Ht, bind_Done_l.
  pose proof (sound_max_divider_bounds st Hs) as Hmd.
  destruct (divider_values_total (max_divider st) 32 1) as (divs & ->);
    [lia|change (2 ^ Z.of_nat 32) with 4294967296; lia|change (2 ^ 31) with 2147483648; lia|].
  rewrite bind_Done_l.
  destruct (emit_dividers_total st (Z.of_nat j) t divs) as ([calls c] & ->).
  - lia.
  - intros s Hin. pose proof (sound_refs st Hs _ _ _ Ht Hin) as Hlt.
    apply lookup_lt_is_Some_2 in Hlt as [T HT]. exists T. split; [assumption|].
    destruct (Hok T) as [H1 H2]; [eapply list_elem_of_lookup_2; eassumption|].
    destruct (sound_tasks st Hs _ _ HT) as (Hp & _). repeat split; try assumption. lia.
  - simpl. eauto.
Qed.

(** ** Running the emitted handlers *)

Lemma run_app l1 l2 f : run (l1 ++ l2) f = run l2 (run l1 f).
Proof. unfold run. apply foldl_app. Qed.

Lemma run_cons i l f : run (i :: l) f = run l (execute f i).
Proof. reflexivity. Qed.

Ltac evaluate :=
  cbv beta iota zeta delta
    [run foldl execute statement enter vars pending skipping called].

(** The guard the emitter writes in front of the first call of a divider:
    it opens one block, entered or passed over. *)
Lemma run_guard mask f :
  pending f = None ->
  let f' := run [Newline; IfDivider mask; BlockBegin] f in
  pending f' = None /\ vars f' = vars f /\ called f' = called f /\
  (skipping f <= skipping f' <= skipping f + 1)%nat.
Proof.
  destruct f as [m p [|d] c]; simpl; intros ->; evaluate.
  - destruct (Z.land (tick_divider m) mask =? 0); (repeat split; try reflexivity); lia.
  - (repeat split; try reflexivity); lia.
Qed.

(** A call, with its declaration when the task is no macro. *)
Lemma run_call (inline_p : bool) nm l f :
  pending f = None ->
  let f' := run ((if inline_p then [] else [Extern nm]) ++ [Call nm l]) f in
  pending f' = None /\ vars f' = vars f /\ skipping f' = skipping f /\
  called f' = called f ++ (if skipping f is O then [nm] else []).
Proof.
  destruct f as [m p [|d] c]; simpl; intros ->; destruct inline_p; cbn [app]; evaluate;
    rewrite ?app_nil_r; auto.
Qed.

Lemma emit_slots_run st n dv ss used items used' f :
  emit_slots st n dv ss used = Done (items, used') ->
  pending f = None ->
  pending (run items f) = None /\ vars (run items f) = vars f /\
  (skipping (run items f)
   <= skipping f + (if used then 0 else if used' then 1 else 0))%nat /\
  (used = true -> used' = true).
Proof.
  revert used items used' f.
  induction ss as [|s ss IH]; intros used items used' f; simpl.
  - intros [= <- <-] Hp. simpl. repeat split; try assumption; destruct used; lia.
  - destruct (divider s =? dv); [|apply IH].
    destruct (tasks st !! slot_task s) as [t|]; [|discriminate].
    intros H Hp. apply bind_done in H as ([inl nm] & _ & H).
    apply bind_done in H as ([rest u] & Hrest & H). injection H as <- <-.
    rewrite run_app, (app_assoc _ [Call nm (len t)] rest), run_app.
    set (f1 := run (if (dv >? 1) && negb used
                    then [Newline; IfDivider (dv - 1); BlockBegin] else []) f).
    assert (H1 : pending f1 = None /\ vars f1 = vars f /\
                 (skipping f1 <= skipping f + (if (dv >? 1) && negb used then 1 else 0))%nat).
    { subst f1. destruct ((dv >? 1) && negb used).
      - destruct (run_guard (dv - 1) f Hp) as (? & ? & _ & ?). repeat split; try assumption. lia.
      - simpl. repeat split; try assumption. lia. }
    destruct H1 as (Hp1 & Hv1 & Hs1).
    destruct (run_call inl nm (len t) f1 Hp1) as (Hp2 & Hv2 & Hs2 & _).
    set (f2 := run ((if inl then [] else [Extern nm]) ++ [Call nm (len t)]) f1) in *.
    destruct (IH _ _ _ f2 Hrest Hp2) as (Hp3 & Hv3 & Hs3 & Hmono).
    repeat split.
    + assumption.
    + congruence.
    + rewrite Hs2 in Hs3. destruct used; simpl in *.
      * rewrite andb_false_r in Hs1. lia.
      * rewrite andb_true_r in Hs1. destruct (dv >? 1); simpl in *.
        -- rewrite Hmono in * by reflexivity. lia.
        -- lia.
    + intros ->. apply Hmono. reflexivity.
Qed.

Lemma emit_dividers_run st n t divs items cnt f :
  emit_dividers st n t divs = Done (items, cnt) ->
  pending f = None ->
  pending (run items f) = None /\ vars (run items f) = vars f /\
  (skipping (run items f) <= skipping f + cnt)%nat.
Proof.
  revert items cnt f. induction divs as [|dv divs IH]; intros items cnt f; simpl.
  - intros [= <- <-] Hp. simpl. repeat split; try assumption; lia.
  - intros H Hp. apply bind_done in H as ([calls used] & Hcalls & H).
    apply bind_done in H as ([rest c] & Hrest & H). injection H as <- <-.
    rewrite run_app.
    destruct (emit_slots_run _ _ _ _ _ _ _ f Hcalls Hp) as (Hp1 & Hv1 & Hs1 & _).
    destruct (IH _ _ (run calls f) Hrest Hp1) as (Hp2 & Hv2 & Hs2).
    repeat split; [assumption|congruence|]. destruct used; lia.
Qed.

(** Closing the guards leaves every block that was passed over. *)
Lemma run_block_ends c f :
  pending f = None -> (skipping f <= c)%nat ->
  run (replicate c BlockEnd) f = mk_frame (vars f) None O (called f).
Proof.
  revert f. induction c as [|c IH]; intros [m p s cl];
    cbn [pending skipping vars called]; intros -> Hs.
  - now replace s with O by lia.
  - cbn [replicate]. rewrite run_cons. destruct s as [|d].
    + change (execute (mk_frame m None O cl) BlockEnd) with (mk_frame m None O cl).
      rewrite IH by (simpl; lia || reflexivity). reflexivity.
    + change (execute (mk_frame m None (S d) cl) BlockEnd) with (mk_frame m None d cl).
      rewrite IH by (simpl; lia || reflexivity). reflexivity.
Qed.

(** What a handler leaves in the two variables, whatever they held when
    it was entered. *)
Lemma emit_handler_run st n h m :
  emit_handler st n = Done h ->
  vars (run h (enter m))
  = mk_machine
      (if n_ticks st >? 1 then (n + 1) mod n_ticks st else tick_function m)
      (if (n =? wrap (n_ticks st - 1)) && (max_divider st >? 1)
       then (tick_divider m + 1) mod 256 else tick_divider m).
Proof.
  unfold emit_handler. intros H.
  apply bind_done in H as (t & _ & H).
  apply bind_done in H as (divs & _ & H).
  apply bind_done in H as ([calls cnt] & Hcalls & H). injection H as <-.
  change (HandlerHead n :: BlockBegin :: ?l) with ([HandlerHead n; BlockBegin] ++ l).
  rewrite !run_app.
  change (run [HandlerHead n; BlockBegin] (enter m)) with (enter m).
  destruct (emit_dividers_run _ _ _ _ _ _ (enter m) Hcalls eq_refl) as (Hp & Hv & Hs).
  rewrite (run_block_ends cnt (run calls (enter m)) Hp) by (simpl in Hs; lia).
  rewrite Hv. simpl vars.
  destruct m as [fn dv].
  destruct ((n =? wrap (n_ticks st - 1)) && (max_divider st >? 1));
    destruct (n_ticks st >? 1); reflexivity.
Qed.

(** An interrupt runs the handler the pointer names and leaves the pointer
    at the next one. *)
Lemma interrupt_next st hs m :
  emit_handlers st = Done hs -> 0 <= tick_function m < n_ticks st ->
  exists h calls m',
    hs !! Z.to_nat (tick_function m) = Some h /\
    emit_handler st (tick_function m) = Done h /\
    interrupt hs m = Some (calls, m') /\
    calls = called (run h (enter m)) /\
    tick_function m' = (tick_function m + 1) mod n_ticks st.
Proof.
  intros Hhs Hfp. destruct (emit_handlers_done st hs Hhs) as [_ Hall].
  destruct (Hall _ Hfp) as (h & Hlk & Hh).
  exists h, (called (run h (enter m))), (vars (run h (enter m))).
  unfold interrupt. destruct (Z.ltb_spec (tick_function m) 0); [lia|].
  rewrite Hlk. repeat split; try assumption.
  rewrite (emit_handler_run st _ h m Hh). simpl.
  destruct (Z.gtb_spec (n_ticks st) 1); [reflexivity|].
  assert (n_ticks st = 1) as -> by lia. assert (tick_function m = 0) as -> by lia.
  reflexivity.
Qed.

Lemma dispatch_rotation st hs k m :
  emit_handlers st = Done hs -> 0 <= tick_function m < n_ticks st ->
  exists trace,
    dispatch hs k m = Some trace /\
    map fst trace
    = map (fun j => (tick_function m + j) mod n_ticks st) (seqZ 0 (Z.of_nat k)).
Proof.
  intros Hhs. revert m. induction k as [|k IH]; intros m Hfp; [exists []; auto|].
  cbn [dispatch].
  destruct (interrupt_next st hs m Hhs Hfp) as (h & calls & m' & _ & _ & -> & _ & Hnext).
  destruct (IH m') as (trace & -> & Htrace).
  { rewrite Hnext. apply Z.mod_pos_bound. lia. }
  eexists. split; [reflexivity|]. cbn [map fst]. rewrite Htrace, Hnext.
  rewrite Nat2Z.inj_succ, (seqZ_cons 0 (Z.succ (Z.of_nat k))) by lia. cbn [map].
  rewrite Z.add_0_r, (Z.mod_small (tick_function m)) by assumption. f_equal.
  replace (Z.pred (Z.succ (Z.of_nat k))) with (Z.of_nat k) by lia.
  change (Z.succ 0) with (1 + 0). rewrite <- fmap_add_seqZ.
  change (@map Z Z) with (@fmap list _ Z Z).
  rewrite <- list_fmap_compose. apply list_fmap_ext. intros _ j _. simpl.
  rewrite Zplus_mod_idemp_l. f_equal. lia.
Qed.

(** The pointer of the running program always names a handler. *)
Lemma running_in_range st hs m :
  emit_handlers st = Done hs -> 0 < n_ticks st -> running hs m ->
  0 <= tick_function m < n_ticks st.
Proof.
  intros Hhs HN. induction 1 as [m|m calls m' _ IH Hint].
  - simpl. lia.
  - destruct (interrupt_next st hs m Hhs IH) as (h & calls' & m'' & _ & _ & Hint' & _ & Hnext).
    rewrite Hint in Hint'. injection Hint' as _ <-.
    rewrite Hnext. apply Z.mod_pos_bound. lia.
Qed.

(** C9: the emitted dispatch is a rotation.  The initialization function
    leaves the function pointer at handler 0 (and the divider at 0); when
    [n_ticks > 1], handler [i] returns with the pointer at handler
    [(i + 1) mod n_ticks], whatever the pointer and the divider counter
    held when it was entered, so the assignment is not under any divider
    guard; in [n_ticks] consecutive interrupts, started in any state whose
    pointer names a handler, every handler runs exactly once; and every
    state the program reaches from its initialization is such a state. *)
Theorem dispatch_is_round_robin st hs :
  emit_handlers st = Done hs ->
  let N := n_ticks st in
  (forall m, vars (run emit_init (enter m)) = mk_machine 0 0) /\
  (1 < N -> forall i, 0 <= i < N ->
     exists h, hs !! Z.to_nat i = Some h /\
               forall m, tick_function (vars (run h (enter m))) = (i + 1) mod N) /\
  (forall m h, 0 <= tick_function m < N -> 0 <= h < N ->
     exists trace, dispatch hs (Z.to_nat N) m = Some trace /\
                   times_run h (map fst trace) = 1%nat) /\
  (0 < N -> forall m, running hs m -> 0 <= tick_function m < N).
Proof.
  intros Hhs N. split; [reflexivity|]. split; [|split].
  - intros HN i Hi. destruct (emit_handlers_done st hs Hhs) as [_ Hall].
    destruct (Hall i Hi) as (h & Hlk & Hh). exists h. split; [assumption|].
    intros m. rewrite (emit_handler_run st i h m Hh). simpl.
    fold N. destruct (Z.gtb_spec N 1); [reflexivity|lia].
  - intros m h Hfp Hh.
    destruct (dispatch_rotation st hs (Z.to_nat N) m Hhs Hfp) as (trace & Hd & Htrace).
    exists trace. split; [assumption|]. rewrite Htrace.
    rewrite Z2Nat.id by lia. now apply rotation_once.
  - intros HN m Hm. now apply (running_in_range st hs).
Qed.

(** C5: in every schedule the tool can build, [max_divider] is a power of
    two, 128 at most: so it is at the start and after every insertion that
    succeeds, whatever the task table holds.  And inserting a task whose
    period exceeds both [n_ticks] and [max_ticks] and whose divider
    [period / n_ticks] is 256 or more stops the tool with the diagnostic
    "period too large" (when the entry is not skipped and the task table
    has room for it). *)
Theorem divider_overflow_is_fatal st :
  reachable st ->
  (is_pow2 (max_divider st) /\ max_divider st <= 128) /\
  (forall nm P l st',
     0 <= P < UINT_MOD -> schedule_entry st nm P l = Done st' ->
     is_pow2 (max_divider st') /\ max_divider st' <= 128) /\
  (forall nm P l,
     skipped st nm = false -> n_tasks st < MAX_TASKS ->
     P > n_ticks st -> P > max_ticks st ->
     P / n_ticks st >= 256 ->
     add_task st nm P l = Exit PeriodTooLarge).
Proof.
  intros Hr.
  assert (Hinv : forall s, reachable s -> is_pow2 (max_divider s) /\ max_divider s <= 128).
  { intros s Hs. pose proof (reachable_sound s Hs) as Hsound.
    pose proof (sound_max_divider_bounds s Hsound) as Hmd. split; [|lia].
    destruct (sound_max_divider s Hsound) as (e & He & ->). exists e. split; [lia|reflexivity]. }
  split; [now apply Hinv|]. split.
  - intros nm P l st' HP Hentry. apply Hinv. now apply (reach_entry st nm P l).
  - intros nm P l Hskip Htasks Hn Hmt Hdiv.
    assert (Hn0 : n_ticks st <> 0).
    { intros H0. rewrite H0, Z.div_0_r in Hdiv. lia. }
    pose proof (reachable_sound st Hr) as Hs.
    pose proof (sound_max_divider_bounds st Hs) as Hmd.
    unfold add_task. unfold skipped in Hskip.
    assert (Hplan : forall T, plan_slots (with_tasks st (tasks st ++ [T])) P
                              = Exit PeriodTooLarge).
    { intros T. unfold plan_slots. simpl.
      destruct (Z.gtb_spec P (n_ticks st)); [|lia].
      destruct (Z.leb_spec P (max_ticks st)); [lia|].
      unfold udiv. destruct (Z.eqb_spec (n_ticks st) 0); [contradiction|]. simpl.
      destruct (Z.gtb_spec (P / n_ticks st) (max_divider st)); [|lia]. simpl.
      destruct (Z.geb_spec (P / n_ticks st) 256); [reflexivity|lia]. }
    destruct (split_conditional nm) as [[before cond]|].
    + destruct (conditional_defined st cond); [|discriminate]. simpl.
      destruct (split_unrolled before) as [nm' auc].
      destruct (Z.leb_spec MAX_TASKS (n_tasks st)); [lia|].
      now rewrite Hplan.
    + destruct (split_unrolled nm) as [nm' auc].
      destruct (Z.leb_spec MAX_TASKS (n_tasks st)); [lia|].
      now rewrite Hplan.
Qed.

Lemma no_question_app s t :
  no_question (s +:+ t) = no_question s && no_question t.
Proof.
  induction s as [|c s IH]; simpl; [reflexivity|]. rewrite IH. apply andb_assoc.
Qed.

Lemma split_unrolled_suffix nm d :
  split_unrolled (nm +:+ String "/" (String d ""))
  = (nm, Z.of_nat (nat_of_ascii d) - 48).
Proof.
  unfold split_unrolled. rewrite length_append. cbn [String.length].
  replace (String.length nm + 2 - 2)%nat with (String.length nm + 0)%nat by lia.
  replace (String.length nm + 2 - 1)%nat with (String.length nm + 1)%nat by lia.
  rewrite !get_append_r. cbn [String.get].
  replace (2 <=? String.length nm + 2)%nat with true by (symmetry; apply Nat.leb_le; lia).
  change (Ascii.eqb "/" "/") with true. cbn [andb].
  rewrite Nat.add_0_r, substring_append_l. reflexivity.
Qed.

(** X7: an entry [f/d], where [f] holds no ['?'] and [d] is a 7-bit
    character other than ['?'] (7-bit, so that the difference does not
    depend on the sign of [char]), enters the task [f] at the end of the
    task table with [already_unrolled_count = d - '0'] and the given
    period and length: [d] is not checked to be a digit, and below ['0']
    the difference is negative. *)
Theorem unrolled_suffix_is_stripped st nm d P l st' :
  reachable st -> 0 <= P ->
  no_question nm = true -> d <> "?"%char -> (nat_of_ascii d < 128)%nat ->
  add_task st (nm +:+ String "/" (String d "")) P l = Done st' ->
  exists T, tasks st' = tasks st ++ [T] /\
            name T = nm /\
            already_unrolled_count T = Z.of_nat (nat_of_ascii d) - 48 /\
            period T = P /\ len T = l.
Proof.
  intros Hr HP Hq Hd _ Hadd. pose proof (reachable_sound st Hr) as Hs.
  pose proof (sound_max_divider_bounds st Hs) as Hmd.
  assert (Hq' : no_question (nm +:+ String "/" (String d "")) = true).
  { rewrite no_question_app, Hq. simpl.
    destruct (Ascii.eqb_spec d "?"); [contradiction|reflexivity]. }
  unfold add_task in Hadd.
  rewrite (split_conditional_none _ Hq'), split_unrolled_suffix in Hadd.
  destruct (Z.leb_spec MAX_TASKS (n_tasks st)) as [|Hlt]; [discriminate|].
  apply bind_done in Hadd as ([[st2 count] dv] & Hplan & H).
  apply bind_done in H as (base & Hbest & H).
  apply bind_done in H as ([st3 b] & Hloop & H). injection H as <-.
  eapply plan_slots_done in Hplan as (HP1 & -> & -> & Hdv & Hbase & ->);
    [| exact (sound_shape st Hs) | exact HP | simpl; lia | exact Hbest].
  apply place_loop in Hloop as [-> _]; [|reflexivity|assumption].
  eexists. split.
  - apply (inserted_tasks st (mk_task nm P l (Z.of_nat (nat_of_ascii d) - 48) 0) base).
  - simpl. auto.
Qed.

(** ** The calls a handler holds *)

(** Every slot with the divider of the turn is written as a call, by the
    name [call_name] gives, with its declaration unless it is a macro. *)
Lemma emit_slots_calls st n dv ss used items used' s T inline_p nm :
  emit_slots st n dv ss used = Done (items, used') ->
  s ∈ ss -> divider s = dv -> tasks st !! slot_task s = Some T ->
  call_name T n = Done (inline_p, nm) ->
  Call nm (len T) ∈ items /\ (inline_p = false -> Extern nm ∈ items).
Proof.
  intros H Hin Hdv HT Hnm. revert used items used' H.
  induction ss as [|s0 ss IH]; intros used items used'; [inversion Hin|]. simpl.
  apply elem_of_cons in Hin as [<-|Hin].
  - rewrite Hdv, Z.eqb_refl, HT, Hnm, bind_Done_l.
    intros H. apply bind_done in H as ([rest u] & _ & H). injection H as <- _.
    split.
    + rewrite !elem_of_app, elem_of_cons. auto.
    + intros ->. rewrite !elem_of_app, list_elem_of_singleton. auto.
  - destruct (divider s0 =? dv); [|now apply IH].
    destruct (tasks st !! slot_task s0) as [t0|]; [|discriminate].
    intros H. apply bind_done in H as ([inl0 nm0] & _ & H).
    apply bind_done in H as ([rest u] & Hrest & H). injection H as <- _.
    destruct (IH Hin _ _ _ Hrest) as [Hc He].
    split; [|intros Hi; specialize (He Hi)]; rewrite !elem_of_app, ?elem_of_cons; auto.
Qed.

Lemma emit_dividers_calls st n t divs items cnt s T inline_p nm :
  emit_dividers st n t divs = Done (items, cnt) ->
  s ∈ slots t -> divider s ∈ divs -> tasks st !! slot_task s = Some T ->
  call_name T n = Done (inline_p, nm) ->
  Call nm (len T) ∈ items /\ (inline_p = false -> Extern nm ∈ items).
Proof.
  intros H Hin Hdv HT Hnm. revert items cnt H.
  induction divs as [|dv divs IH]; intros items cnt; [inversion Hdv|]. simpl.
  intros H. apply bind_done in H as ([calls used] & Hcalls & H).
  apply bind_done in H as ([rest c] & Hrest & H). injection H as <- _.
  apply elem_of_cons in Hdv as [Hdv|Hdv].
  - destruct (emit_slots_calls _ _ _ _ _ _ _ s T inline_p nm Hcalls Hin Hdv HT Hnm)
      as [Hc He].
    split; [|intros Hi; specialize (He Hi)]; rewrite elem_of_app; auto.
  - destruct (IH Hdv _ _ Hrest) as [Hc He].
    split; [|intros Hi; specialize (He Hi)]; rewrite elem_of_app; auto.
Qed.

(** The dividers of a schedule the tool can build are among the values the
    emitter goes through. *)
Lemma divider_values_hold st i t s divs :
  reachable st -> ticks st !! i = Some t -> s ∈ slots t ->
  divider_values 33 1 (max_divider st) = Done divs ->
  divider s ∈ divs.
Proof.
  intros Hr Hlk Hin Hdivs. pose proof (reachable_sound st Hr) as Hs.
  pose proof (sound_max_divider_bounds st Hs) as Hmd.
  apply divider_values_spec in Hdivs as (_ & _ & Hall);
    [|lia|change (2 ^ 31) with 2147483648; lia].
  destruct (tidy_dividers st (reachable_tidy st Hr) _ _ _ Hlk Hin) as [(k & Hk & Hpow) Hle].
  rewrite Hpow in *. rewrite <- (Z.mul_1_l (2 ^ k)). apply Hall; lia.
Qed.

(** A slot of the tick is called in the handler of the tick. *)
Lemma emit_handler_calls st n t h s T inline_p nm :
  reachable st -> get_tick st n = Done t -> emit_handler st n = Done h ->
  s ∈ slots t -> tasks st !! slot_task s = Some T ->
  call_name T n = Done (inline_p, nm) ->
  Call nm (len T) ∈ h /\ (inline_p = false -> Extern nm ∈ h).
Proof.
  intros Hr Ht H Hin HT Hnm.
  apply emit_handler_shape in H as (t' & divs & calls & cnt & Ht' & Hdivs & Hc & ->).
  rewrite Ht in Ht'. injection Ht' as <-.
  unfold get_tick in Ht.
  destruct (ticks st !! Z.to_nat n) as [t0|] eqn:Hlk; [|discriminate]. injection Ht as ->.
  pose proof (divider_values_hold st _ _ _ _ Hr Hlk Hin Hdivs) as Hdv.
  destruct (emit_dividers_calls _ _ _ _ _ _ s T inline_p nm Hc Hin Hdv HT Hnm) as [Hcall He].
  split; [|intros Hi; specialize (He Hi)]; rewrite !elem_of_app; auto.
Qed.

(** X18: in every schedule the tool can build, a slot of a pre-unrolled
    task [f/a] (or of the macro [!f/a]) in tick [n] is called in the
    handler of tick [n] as [f_<s>], with [s = (n mod (a * period)) /
    period], and declared [extern] under that name unless it is a macro;
    [s] is below [a], and it is 0 in every handler below the period. *)
Theorem unrolled_call_suffix st n t s T h :
  reachable st -> get_tick st n = Done t -> 0 <= n ->
  s ∈ slots t -> tasks st !! slot_task s = Some T ->
  0 < already_unrolled_count T ->
  already_unrolled_count T * period T < UINT_MOD ->
  emit_handler st n = Done h ->
  let a := already_unrolled_count T in
  let suffix := (n mod (a * period T)) / period T in
  (forall f, name T = String "!" f ->
     Call (f +:+ "_" +:+ decimal suffix) (len T) ∈ h) /\
  (String.prefix "!" (name T) = false ->
     Extern (name T +:+ "_" +:+ decimal suffix) ∈ h /\
     Call (name T +:+ "_" +:+ decimal suffix) (len T) ∈ h) /\
  0 <= suffix < a /\
  (n < period T -> suffix = 0).
Proof.
  intros Hr Ht Hn Hin HT Ha Hprod Hh a suffix. subst a suffix.
  pose proof (reachable_sound st Hr) as Hs.
  destruct (sound_tasks st Hs _ _ HT) as (Hp & _).
  assert (Hap : 0 < already_unrolled_count T * period T) by nia.
  (* the handler was written, so the name of the slot was built *)
  assert (Hnm : exists r, call_name T n = Done r).
  { pose proof Hh as Hh'.
    apply emit_handler_shape in Hh' as (t' & divs & calls & cnt & Ht' & Hdivs & Hc & _).
    rewrite Ht in Ht'. injection Ht' as <-.
    unfold get_tick in Ht.
    destruct (ticks st !! Z.to_nat n) as [t0|] eqn:Hlk; [|discriminate]. injection Ht as ->.
    pose proof (divider_values_hold st _ _ _ _ Hr Hlk Hin Hdivs) as Hdv.
    clear -Hc Hin Hdv HT. revert calls cnt Hc.
    induction divs as [|dv divs IH]; intros calls cnt; [inversion Hdv|]. simpl.
    intros H. apply bind_done in H as ([c1 used] & Hc1 & H).
    apply bind_done in H as ([rest c] & Hrest & _).
    apply elem_of_cons in Hdv as [Hdv|Hdv]; [|eapply IH; eassumption].
    clear -Hc1 Hin Hdv HT. revert c1 used Hc1. generalize false.
    induction (slots t) as [|s0 ss IHs]; intros u0 c1 used; [inversion Hin|]. simpl.
    apply elem_of_cons in Hin as [<-|Hin].
    - rewrite Hdv, Z.eqb_refl, HT. intros H. apply bind_done in H as (r & Hr & _). eauto.
    - destruct (divider s0 =? dv); [|now apply IHs].
      destruct (tasks st !! slot_task s0); [|discriminate].
      intros H. apply bind_done in H as (r0 & _ & H).
      destruct r0 as [i0 n0]. apply bind_done in H as ([rest u] & Hrest & _).
      eapply IHs; eassumption. }
  destruct Hnm as ([inline_p nm] & Hnm).
  destruct (emit_handler_calls st n t h s T inline_p nm Hr Ht Hh Hin HT Hnm) as [Hcall Hext].
  (* what the name is *)
  assert (Hname : inline_p = String.prefix "!" (name T) /\
            nm = (if String.prefix "!" (name T)
                  then String.substring 1 (String.length (name T) - 1) (name T)
                  else name T)
                 +:+ "_" +:+ decimal ((n mod (already_unrolled_count T * period T))
                                      / period T)).
  { unfold call_name in Hnm.
    destruct (negb (fits _)); [discriminate|].
    destruct (Z.eqb_spec (already_unrolled_count T) 0); [lia|].
    rewrite (wrap_small (already_unrolled_count T)) in Hnm by (unfold UINT_MOD in *; nia).
    rewrite wrap_small in Hnm by lia.
    unfold umod, udiv in Hnm.
    destruct (Z.eqb_spec (already_unrolled_count T * period T) 0); [lia|].
    rewrite bind_Done_l in Hnm.
    destruct (Z.eqb_spec (period T) 0); [lia|]. rewrite bind_Done_l in Hnm.
    cbv zeta in Hnm. destruct (fits _); [|discriminate]. injection Hnm as <- <-. auto. }
  destruct Hname as [-> ->].
  split; [|split; [|split]].
  - intros f Hf. rewrite Hf in Hcall.
    change (String.prefix "!" (String "!" f)) with (String.prefix "" f) in Hcall.
    replace (String.prefix "" f) with true in Hcall by (now destruct f).
    replace (String.substring 1 (String.length (String "!" f) - 1) (String "!" f))
      with f in Hcall; [exact Hcall|].
    simpl. rewrite Nat.sub_0_r. clear. induction f as [|c f IH]; simpl; [reflexivity|].
    now rewrite <- IH.
  - intros Hplain. rewrite Hplain in *. split; [now apply Hext|exact Hcall].
  - pose proof (Z.mod_pos_bound n (already_unrolled_count T * period T) Hap).
    split; [apply Z.div_pos; lia|]. apply Z.div_lt_upper_bound; lia.
  - intros Hlt. rewrite Z.mod_small by nia. apply Z.div_small. lia.
Qed.

(** ** The advisory loop *)

Lemma to_int_done x :
  (exists z, trunc x = Some z /\ - 2 ^ 31 <= z < 2 ^ 31) <-> exists c, to_int x = Done c.
Proof.
  unfold to_int. split.
  - intros (z & -> & Hz).
    destruct (Z.leb_spec (- 2 ^ 31) z); [|lia].
    destruct (Z.ltb_spec z (2 ^ 31)); [|lia]. simpl. eauto.
  - intros (c & Hc). destruct (trunc x) as [z|]; [|discriminate].
    exists z. split; [reflexivity|].
    destruct (Z.leb_spec (- 2 ^ 31) z); [|discriminate].
    destruct (Z.ltb_spec z (2 ^ 31)); [|discriminate]. lia.
Qed.

Lemma to_int_fault x :
  (exists c, to_int x = Done c) \/ to_int x = Undefined ConversionOverflow.
Proof.
  unfold to_int. destruct (trunc x) as [z|]; [|auto].
  destruct ((- 2 ^ 31 <=? z) && (z <? 2 ^ 31)); eauto.
Qed.

Lemma advise_task_done T :
  cycles_defined T <-> exists w, advise_task T = Done w.
Proof.
  unfold cycles_defined, advise_task. rewrite to_int_done. split.
  - intros (c & ->). rewrite bind_Done_l. eauto.
  - intros (w & Hw). apply bind_done in Hw as (c & Hc & _). eauto.
Qed.

Lemma advise_task_fault T :
  (exists w, advise_task T = Done w) \/ advise_task T = Undefined ConversionOverflow.
Proof.
  unfold advise_task.
  destruct (to_int_fault (mul (len T) (of_Z CYCLES_PER_TICK))) as [(c & ->)| ->];
    [left; rewrite bind_Done_l; eauto|right; reflexivity].
Qed.

Lemma advise_tasks_total ts :
  (forall T, T ∈ ts -> cycles_defined T) -> exists w, advise_tasks ts = Done w.
Proof.
  induction ts as [|T ts IH]; intros Hall; simpl; [eauto|].
  destruct (proj1 (advise_task_done T)) as (w & ->); [apply Hall; left|].
  destruct IH as (ws & ->); [intros T' HT'; apply Hall; now right|].
  simpl. eauto.
Qed.

Lemma advise_tasks_fault ts T :
  T ∈ ts -> ~ cycles_defined T -> advise_tasks ts = Undefined ConversionOverflow.
Proof.
  intros Hin Hbad. induction ts as [|T0 ts IH]; [inversion Hin|]. simpl.
  destruct (advise_task_fault T0) as [(w & Hw)|Hw]; rewrite Hw; [|reflexivity].
  rewrite bind_Done_l.
  apply elem_of_cons in Hin as [->|Hin].
  - exfalso. apply Hbad. apply advise_task_done. eauto.
  - rewrite (IH Hin). reflexivity.
Qed.

(** X19: for every schedule the tool can build, the emitter runs to its
    end and writes the whole file and its warnings, as long as for every
    task the length in cycles converts to an [int], the suffix of a
    pre-unrolled task can be computed, and the call name fits the buffer
    it is built in. *)
Theorem emitter_completes st :
  reachable st ->
  (forall T, T ∈ tasks st -> cycles_defined T /\ suffix_defined T /\ name_fits T) ->
  exists out advice, write_tick_driver st = Done (out, advice).
Proof.
  intros Hr Hok.
  destruct (advise_tasks_total (tasks st)) as (w & Hw); [intros T HT; now apply Hok|].
  destruct (emit_handlers_total st Hr) as (hs & Hhs); [intros T HT; now apply Hok|].
  unfold write_tick_driver. rewrite Hw, bind_Done_l, Hhs, bind_Done_l. eauto.
Qed.

(** X24: when the length in cycles of some task of the table does not
    convert to an [int] (a NaN, an infinity, or a product of 2^31 or more
    in size), the emitter runs into the undefined conversion before it
    writes any handler. *)
Theorem emitter_needs_cycles st T :
  T ∈ tasks st -> ~ cycles_defined T ->
  write_tick_driver st = Undefined ConversionOverflow.
Proof.
  intros Hin Hbad. unfold write_tick_driver.
  rewrite (advise_tasks_fault (tasks st) T Hin Hbad). reflexivity.
Qed.

(** ** The calls a handler makes *)

Lemma count_calls_app mine l1 l2 :
  count_calls mine (l1 ++ l2) = (count_calls mine l1 + count_calls mine l2)%nat.
Proof. induction l1 as [|c l1 IH]; simpl; [reflexivity|]. rewrite IH. lia. Qed.

(** Text without a call calls nothing. *)
Lemma run_no_call l f :
  Forall (fun i => is_call i = false) l -> called (run l f) = called f.
Proof.
  intros Hl. revert f. induction Hl as [|i l Hi _ IH]; intros f; [reflexivity|].
  rewrite run_cons, IH.
  destruct f as [m p [|d] c]; destruct i; try discriminate; try reflexivity;
    cbv beta iota zeta delta [execute statement vars pending skipping called];
    destruct p as [[|]|]; rewrite ?app_nil_r; reflexivity.
Qed.

Section Calls.
Variables (st : schedule) (n : Z) (mine : string -> bool) (k : nat).
Hypothesis Hmine : forall k' T' r,
  tasks st !! k' = Some T' -> call_name T' n = Done r -> mine r.2 = (k' =? k)%nat.

(** The calls that stand under no guard are all made. *)
Lemma emit_slots_count_plain dv ss used items used' f :
  (dv >? 1) = false ->
  (forall s, s ∈ ss -> slot_task s = k -> divider s = dv) ->
  emit_slots st n dv ss used = Done (items, used') ->
  pending f = None -> skipping f = O ->
  pending (run items f) = None /\ skipping (run items f) = O /\
  count_calls mine (called (run items f))
  = (count_calls mine (called f) + length (filter (fun s => slot_task s = k) ss))%nat.
Proof.
  intros Hdv. revert used items used' f.
  induction ss as [|s ss IH]; intros used items used' f Hk; simpl.
  - intros [= <- <-] Hp Hs. simpl. repeat split; try assumption. lia.
  - assert (Hk' : forall s', s' ∈ ss -> slot_task s' = k -> divider s' = dv).
    { intros s' Hs'. apply Hk. now right. }
    destruct (Z.eqb_spec (divider s) dv) as [Heq|Hne].
    + destruct (tasks st !! slot_task s) as [t|] eqn:Ht; [|discriminate].
      intros H Hp Hs. apply bind_done in H as ([inl nm] & Hnm & H).
      apply bind_done in H as ([rest u] & Hrest & H). injection H as <- <-.
      rewrite Hdv. cbn [andb app].
      rewrite (app_assoc _ [Call nm (len t)] rest), run_app.
      destruct (run_call inl nm (len t) f Hp) as (Hp2 & _ & Hs2 & Hc2).
      rewrite Hs in Hs2, Hc2.
      destruct (IH _ _ _ _ Hk' Hrest Hp2 Hs2) as (Hp3 & Hs3 & Hc3).
      repeat split; try assumption.
      rewrite Hc3, Hc2, count_calls_app. cbn [count_calls].
      rewrite (Hmine _ _ _ Ht Hnm : mine nm = _).
      destruct (Nat.eqb_spec (slot_task s) k) as [Hsk|Hsk].
      * rewrite filter_cons_True by assumption. simpl. lia.
      * rewrite filter_cons_False by assumption. lia.
    + intros H Hp Hs.
      rewrite filter_cons_False by (intros Hsk; apply Hne; apply Hk; [left|assumption]).
      now apply (IH _ _ _ _ Hk' H).
Qed.

(** The calls of other tasks do not count, made or passed over. *)
Lemma emit_slots_count_others dv ss used items used' f :
  (forall s, s ∈ ss -> divider s = dv -> slot_task s <> k) ->
  emit_slots st n dv ss used = Done (items, used') ->
  pending f = None ->
  count_calls mine (called (run items f)) = count_calls mine (called f).
Proof.
  revert used items used' f.
  induction ss as [|s ss IH]; intros used items used' f Hk; simpl.
  - intros [= <- <-] _. reflexivity.
  - assert (Hk' : forall s', s' ∈ ss -> divider s' = dv -> slot_task s' <> k).
    { intros s' Hs'. apply Hk. now right. }
    destruct (Z.eqb_spec (divider s) dv) as [Heq|Hne]; [|now apply IH].
    destruct (tasks st !! slot_task s) as [t|] eqn:Ht; [|discriminate].
    intros H Hp. apply bind_done in H as ([inl nm] & Hnm & H).
    apply bind_done in H as ([rest u] & Hrest & H). injection H as <- <-.
    rewrite run_app, (app_assoc _ [Call nm (len t)] rest), run_app.
    set (f1 := run (if (dv >? 1) && negb used
                    then [Newline; IfDivider (dv - 1); BlockBegin] else []) f).
    assert (H1 : pending f1 = None /\ called f1 = called f).
    { subst f1. destruct ((dv >? 1) && negb used); [|auto].
      destruct (run_guard (dv - 1) f Hp) as (? & _ & ? & _). auto. }
    destruct H1 as (Hp1 & Hc1).
    destruct (run_call inl nm (len t) f1 Hp1) as (Hp2 & _ & _ & Hc2).
    rewrite (IH _ _ _ _ Hk' Hrest Hp2), Hc2, count_calls_app, Hc1.
    assert (Hno : mine nm = false).
    { rewrite (Hmine _ _ _ Ht Hnm : mine nm = _).
      apply Nat.eqb_neq. apply Hk; [left|assumption]. }
    destruct (skipping f1); simpl; rewrite ?Hno; lia.
Qed.

Lemma emit_dividers_count_others t divs items cnt f :
  (forall dv s, dv ∈ divs -> s ∈ slots t -> divider s = dv -> slot_task s <> k) ->
  emit_dividers st n t divs = Done (items, cnt) ->
  pending f = None ->
  count_calls mine (called (run items f)) = count_calls mine (called f).
Proof.
  revert items cnt f. induction divs as [|dv divs IH]; intros items cnt f Hk; simpl.
  - intros [= <- <-] _. reflexivity.
  - intros H Hp. apply bind_done in H as ([calls used] & Hcalls & H).
    apply bind_done in H as ([rest c] & Hrest & H). injection H as <- <-.
    rewrite run_app.
    destruct (emit_slots_run _ _ _ _ _ _ _ f Hcalls Hp) as (Hp1 & _).
    assert (Hk' : forall dv' s, dv' ∈ divs -> s ∈ slots t -> divider s = dv' ->
                              slot_task s <> k).
    { intros dv' s Hd. apply Hk. now right. }
    rewrite (IH _ _ _ Hk' Hrest Hp1).
    apply (emit_slots_count_others dv (slots t) false calls used f); [|assumption..].
    intros s. apply Hk. left.
Qed.

End Calls.

(** The first divider of the emitter is 1, and it does not come again. *)
Lemma divider_values_first md divs :
  1 <= md < 2 ^ 31 -> divider_values 33 1 md = Done divs ->
  exists rest, divs = 1 :: rest /\ 1 ∉ rest.
Proof.
  intros Hmd H. pose proof H as Hspec.
  apply divider_values_spec in Hspec as (_ & Hnd & _); [|lia..].
  cbn [divider_values] in H. destruct (Z.leb_spec 1 md); [|lia].
  apply bind_done in H as (rest & _ & H). injection H as <-.
  exists rest. split; [reflexivity|]. now apply NoDup_cons in Hnd as [? _].
Qed.

(** The handler of tick [n] calls a task that is not divided once for
    each of its slots in the tick, whatever the divider counter holds. *)
Lemma emit_handler_calls_task st n h m mine k T :
  reachable st -> tasks st !! k = Some T -> period T <= n_ticks st ->
  (forall k' T' r, tasks st !! k' = Some T' -> call_name T' n = Done r ->
                   mine r.2 = (k' =? k)%nat) ->
  0 <= n < n_ticks st ->
  emit_handler st n = Done h ->
  count_calls mine (called (run h (enter m))) = slots_in st k n.
Proof.
  intros Hr HT HP Hmine Hn Hh. pose proof (reachable_sound st Hr) as Hs.
  pose proof (sound_max_divider_bounds st Hs) as Hmd.
  assert (HN : n_ticks st = 8).
  { destruct (sound_n_ticks st Hs) as [|(H0 & _)]; [assumption|lia]. }
  destruct (sound_tasks st Hs k T HT) as (HP1 & _ & _ & Hdiv & _).
  assert (Hone : Z.max 1 (period T / n_ticks st) = 1).
  { rewrite HN in *. destruct (Z.eq_dec (period T) 8) as [->|]; [reflexivity|].
    rewrite Z.div_small by lia. reflexivity. }
  cbv zeta in Hdiv. rewrite Hone in Hdiv.
  apply emit_handler_shape in Hh as (t & divs & calls & cnt & Ht & Hdivs & Hc & ->).
  unfold get_tick in Ht. unfold slots_in.
  destruct (ticks st !! Z.to_nat n) as [t0|] eqn:Hlk; [|discriminate]. injection Ht as ->.
  assert (Hmd31 : 1 <= max_divider st < 2 ^ 31) by (change (2 ^ 31) with 2147483648; lia).
  destruct (divider_values_first _ _ Hmd31 Hdivs) as (rest & -> & Hrest).
  cbn [emit_dividers] in Hc.
  apply bind_done in Hc as ([calls1 used] & Hcalls1 & Hc).
  apply bind_done in Hc as ([calls2 c2] & Hcalls2 & Hc). injection Hc as <- <-.
  rewrite run_app. change (run [HandlerHead n; BlockBegin] (enter m)) with (enter m).
  rewrite run_app, (run_app calls1 calls2).
  rewrite run_no_call.
  2: { rewrite !Forall_app. repeat split.
       - apply Forall_replicate. reflexivity.
       - destruct (_ && _); repeat constructor.
       - destruct (_ >? _); repeat constructor.
       - repeat constructor. }
  destruct (emit_slots_count_plain st n mine k Hmine 1 (slots t) false calls1 used (enter m))
    as (Hp1 & _ & Hcount); [reflexivity| |assumption|reflexivity|reflexivity|].
  { intros s Hin Hsk. now apply (Hdiv _ _ _ Hlk Hin). }
  rewrite (emit_dividers_count_others st n mine k Hmine t rest calls2 c2 _); [|  |assumption|assumption].
  - rewrite Hcount. reflexivity.
  - intros dv s Hdv Hin Hds Hsk.
    rewrite (Hdiv _ _ _ Hlk Hin Hsk) in Hds. subst dv. contradiction.
Qed.

(** The calls of a run of interrupts, handler by handler. *)
Lemma dispatch_calls st hs mine k T c :
  reachable st -> emit_handlers st = Done hs ->
  tasks st !! k = Some T -> period T <= n_ticks st ->
  (forall k' T' n r, tasks st !! k' = Some T' -> 0 <= n < n_ticks st ->
                     call_name T' n = Done r -> mine r.2 = (k' =? k)%nat) ->
  forall m trace, 0 <= tick_function m < n_ticks st ->
    dispatch hs c m = Some trace ->
    count_calls mine (concat (map snd trace))
    = sum_list (map (slots_in st k) (map fst trace)).
Proof.
  intros Hr Hhs HT HP Hmine. induction c as [|c IH]; intros m trace Hfp.
  - intros [= <-]. reflexivity.
  - cbn [dispatch].
    destruct (interrupt_next st hs m Hhs Hfp) as (h & calls & m' & _ & Hh & -> & -> & Hnext).
    destruct (dispatch hs c m') as [rest|] eqn:Hrest; [|discriminate].
    intros [= <-]. cbn [map fst snd concat sum_list].
    rewrite count_calls_app. f_equal.
    + apply (emit_handler_calls_task st _ h m mine k T); try assumption.
      intros k' T' r Hk' Hr'. now apply (Hmine k' T' (tick_function m)).
    + apply (IH m'); [|assumption]. rewrite Hnext. apply Z.mod_pos_bound. lia.
Qed.

(** X20: in the program emitted for a schedule the tool can build, a task
    whose period does not exceed [n_ticks] is called exactly once in any
    [period] consecutive interrupts, from whatever handler and with
    whatever divider count they start; the calls of the task are told by
    their name, [mine] holding of the names the task is called by and of
    no name another task is called by. *)
Theorem undivided_task_runs_once_per_period st hs k T mine m :
  reachable st -> emit_handlers st = Done hs ->
  tasks st !! k = Some T -> period T <= n_ticks st ->
  (forall k' T' n r, tasks st !! k' = Some T' -> 0 <= n < n_ticks st ->
                     call_name T' n = Done r -> mine r.2 = (k' =? k)%nat) ->
  0 <= tick_function m < n_ticks st ->
  exists trace,
    dispatch hs (Z.to_nat (period T)) m = Some trace /\
    count_calls mine (concat (map snd trace)) = 1%nat.
Proof.
  intros Hr Hhs Hlk HP Hmine Hfp. pose proof (reachable_sound st Hr) as Hs.
  assert (Hn : n_ticks st = 8).
  { destruct (sound_n_ticks st Hs) as [|(H0 & _)]; [assumption|lia]. }
  destruct (sound_tasks st Hs k T Hlk) as (HP1 & _ & _ & _ & base & Hbase & Hstr).
  destruct (dispatch_rotation st hs (Z.to_nat (period T)) m Hhs Hfp) as (trace & Hd & Htrace).
  exists trace. split; [assumption|].
  rewrite (dispatch_calls st hs mine k T _ Hr Hhs Hlk HP Hmine m trace Hfp Hd), Htrace.
  rewrite Hn in *.
  assert (Hsmall : period T = 1 \/ period T = 2 \/ period T = 4 \/ period T = 8).
  { apply small_pow2; [|assumption]. eapply tidy_periods; [apply reachable_tidy|]; eassumption. }
  rewrite Z2Nat.id by lia.
  rewrite <- (window_on_stride (period T) base (tick_function m)) by assumption.
  f_equal. apply map_ext_in. intros i Hi.
  apply in_map_iff in Hi as (j & <- & _).
  pose proof (Z.mod_pos_bound (tick_function m + j) 8).
  rewrite Hstr by lia. apply strides_on_stride; [assumption|lia|lia].
Qed.

Lemma reachable_rare_added : reachable rare_added.
Proof.
  apply (reach_entry scanned "rare" 16 (dec 2 1));
    [apply reachable_scanned | unfold UINT_MOD; lia | vm_compute; reflexivity].
Qed.

Lemma reachable_unrolled_added : reachable unrolled_added.
Proof.
  apply (reach_entry fresh "f/2" 1 (dec 1 1));
    [apply reach_init | unfold UINT_MOD; lia | vm_compute; reflexivity].
Qed.

(** C5 on the schedule of [scan 1 0.1]: a period of 256 times [n_ticks]. *)
Lemma divider_overflow_is_fatal_witness :
  reachable scanned /\
  (is_pow2 (max_divider scanned) /\ max_divider scanned <= 128) /\
  skipped scanned "big" = false /\ n_tasks scanned < MAX_TASKS /\
  2048 > n_ticks scanned /\ 2048 > max_ticks scanned /\
  2048 / n_ticks scanned >= 256 /\
  add_task scanned "big" 2048 zero = Exit PeriodTooLarge.
Proof.
  assert (H1 : skipped scanned "big" = false) by reflexivity.
  assert (H2 : n_tasks scanned < MAX_TASKS) by (vm_compute; reflexivity).
  assert (H3 : 2048 > n_ticks scanned) by (vm_compute; reflexivity).
  assert (H4 : 2048 > max_ticks scanned) by (vm_compute; reflexivity).
  assert (H5 : 2048 / n_ticks scanned >= 256) by (vm_compute; discriminate).
  destruct (divider_overflow_is_fatal scanned reachable_scanned) as (Hinv & _ & Hexit).
  split; [exact reachable_scanned|]. split; [exact Hinv|].
  split; [exact H1|]. split; [exact H2|]. split; [exact H3|]. split; [exact H4|].
  split; [exact H5|]. exact (Hexit "big" 2048 zero H1 H2 H3 H4 H5).
Defined.

(** C9 on the eight handlers emitted for [scan 1 0.1] and [rare 16 0.2]. *)
Lemma dispatch_is_round_robin_witness :
  emit_handlers rare_added = Done rare_handlers /\
  (let N := n_ticks rare_added in
   (forall m, vars (run emit_init (enter m)) = mk_machine 0 0) /\
   (1 < N -> forall i, 0 <= i < N ->
      exists h, rare_handlers !! Z.to_nat i = Some h /\
                forall m, tick_function (vars (run h (enter m))) = (i + 1) mod N) /\
   (forall m h, 0 <= tick_function m < N -> 0 <= h < N ->
      exists trace, dispatch rare_handlers (Z.to_nat N) m = Some trace /\
                    times_run h (map fst trace) = 1%nat) /\
   (0 < N -> forall m, running rare_handlers m -> 0 <= tick_function m < N)).
Proof.
  assert (H : emit_handlers rare_added = Done rare_handlers) by (vm_compute; reflexivity).
  split; [exact H|]. exact (dispatch_is_round_robin rare_added rare_handlers H).
Defined.

(** X7 on the entry [f/2 1 0.1]. *)
Lemma unrolled_suffix_is_stripped_witness :
  reachable fresh /\ no_question "f" = true /\ (nat_of_ascii "2" < 128)%nat /\
  add_task fresh ("f" +:+ String "/" (String "2" "")) 1 (dec 1 1) = Done unrolled_added /\
  exists T, tasks unrolled_added = tasks fresh ++ [T] /\
            name T = "f" /\
            already_unrolled_count T = Z.of_nat (nat_of_ascii "2") - 48 /\
            period T = 1 /\ len T = dec 1 1.
Proof.
  assert (Hr : reachable fresh) by apply reach_init.
  assert (Hq : no_question "f" = true) by reflexivity.
  assert (Hd : "2"%char <> "?"%char) by discriminate.
  assert (H7 : (nat_of_ascii "2" < 128)%nat) by (vm_compute; lia).
  assert (H : add_task fresh ("f" +:+ String "/" (String "2" "")) 1 (dec 1 1)
              = Done unrolled_added) by (vm_compute; reflexivity).
  split; [exact Hr|]. split; [exact Hq|]. split; [exact H7|]. split; [exact H|].
  apply (unrolled_suffix_is_stripped fresh "f" "2" 1 (dec 1 1) unrolled_added Hr);
    [lia | exact Hq | exact Hd | exact H7 | exact H].
Defined.

(** X18 on handler 3 of the schedule of [f/2 1 0.1]. *)
Lemma unrolled_call_suffix_witness :
  reachable unrolled_added /\ get_tick unrolled_added 3 = Done unrolled_tick /\
  mk_slot 1 0 ∈ slots unrolled_tick /\
  tasks unrolled_added !! slot_task (mk_slot 1 0) = Some unrolled_task /\
  emit_handler unrolled_added 3 = Done unrolled_handler /\
  (let a := already_unrolled_count unrolled_task in
   let suffix := (3 mod (a * period unrolled_task)) / period unrolled_task in
   (forall f, name unrolled_task = String "!" f ->
      Call (f +:+ "_" +:+ decimal suffix) (len unrolled_task) ∈ unrolled_handler) /\
   (String.prefix "!" (name unrolled_task) = false ->
      Extern (name unrolled_task +:+ "_" +:+ decimal suffix) ∈ unrolled_handler /\
      Call (name unrolled_task +:+ "_" +:+ decimal suffix) (len unrolled_task)
        ∈ unrolled_handler) /\
   0 <= suffix < a /\
   (3 < period unrolled_task -> suffix = 0)).
Proof.
  assert (Ht : get_tick unrolled_added 3 = Done unrolled_tick) by (vm_compute; reflexivity).
  assert (Hin : mk_slot 1 0 ∈ slots unrolled_tick) by left.
  assert (HT : tasks unrolled_added !! slot_task (mk_slot 1 0) = Some unrolled_task)
    by (vm_compute; reflexivity).
  assert (Hh : emit_handler unrolled_added 3 = Done unrolled_handler)
    by (vm_compute; reflexivity).
  split; [exact reachable_unrolled_added|]. split; [exact Ht|]. split; [exact Hin|].
  split; [exact HT|]. split; [exact Hh|].
  apply (unrolled_call_suffix unrolled_added 3 unrolled_tick (mk_slot 1 0) unrolled_task
           unrolled_handler reachable_unrolled_added Ht);
    [lia | exact Hin | exact HT | simpl; lia | simpl; unfold UINT_MOD; lia | exact Hh].
Defined.

(** X19 on the schedule of [scan 1 0.1]. *)
Lemma emitter_completes_witness :
  reachable scanned /\ exists out advice, write_tick_driver scanned = Done (out, advice).
Proof.
  split; [exact reachable_scanned|].
  apply (emitter_completes scanned reachable_scanned).
  intros T HT. change (tasks scanned) with [scan_task] in HT.
  apply list_elem_of_singleton in HT. subst T. split; [|split].
  - exists 195. split; [vm_compute; reflexivity|lia].
  - left. reflexivity.
  - unfold name_fits. simpl. unfold MAX_ID. lia.
Defined.

(** X20 on the task [scan] of the schedule of [scan 1 0.1] and
    [rare 16 0.2], from the handler that calls [rare] under its guard. *)
Lemma undivided_task_runs_once_per_period_witness :
  reachable rare_added /\ emit_handlers rare_added = Done rare_handlers /\
  tasks rare_added !! 0%nat = Some scan_task /\
  exists trace,
    dispatch rare_handlers (Z.to_nat (period scan_task)) (mk_machine 7 0) = Some trace /\
    count_calls (String.eqb "scan") (concat (map snd trace)) = 1%nat.
Proof.
  assert (Hh : emit_handlers rare_added = Done rare_handlers) by (vm_compute; reflexivity).
  assert (Hk : tasks rare_added !! 0%nat = Some scan_task) by (vm_compute; reflexivity).
  split; [exact reachable_rare_added|]. split; [exact Hh|]. split; [exact Hk|].
  apply (undivided_task_runs_once_per_period rare_added rare_handlers 0 scan_task
           (String.eqb "scan") (mk_machine 7 0) reachable_rare_added Hh Hk).
  - simpl. lia.
  - intros k' T' n r HT' _ Hr.
    destruct k' as [|[|k']]; vm_compute in HT'; [| |discriminate];
      injection HT' as <-; vm_compute in Hr; injection Hr as <-; reflexivity.
  - simpl. lia.
Defined.

(** X24 on the schedule of the single entry [n 8 nan]. *)
Lemma emitter_needs_cycles_witness :
  schedule_entry fresh "n" 8 S754_nan = Done nan_added /\
  nan_task ∈ tasks nan_added /\ ~ cycles_defined nan_task /\
  write_tick_driver nan_added = Undefined ConversionOverflow.
Proof.
  assert (Hin : nan_task ∈ tasks nan_added) by left.
  assert (Hbad : ~ cycles_defined nan_task).
  { intros (z & Hz & _). vm_compute in Hz. discriminate. }
  split; [vm_compute; reflexivity|]. split; [exact Hin|]. split; [exact Hbad|].
  exact (emitter_needs_cycles nan_added nan_task Hin Hbad).
Defined.
